(** * memcached-engines: the STL example engine and the persistent engine

    A shallow embedding of [src/stl/stl_engine.{h,cc}] and of
    [src/persistent/{persistent_engine.c,sqlite.cc}], with the properties the
    specification states about them and further properties of the code.

    Conventions.  [size_t] and [uint64_t] are [Z] with the wrap-around written
    out; byte buffers ([std::string value], item data) are [list byte]; keys
    are [string], compared bytewise as [std::string::operator<] does; a
    [std::map] whose iteration order matters is a key-sorted association list;
    a [std::map] used only for lookup is a [gmap]. *)

From Stdlib Require Import ZArith String Ascii Strings.Byte List Lia OrdersEx
  DecimalString Sorted.
From stdpp Require Import gmap strings list.

Local Open Scope Z_scope.

(** ** The engine interface ([memcached/engine.h]) *)

Inductive ENGINE_ERROR_CODE :=
  | ENGINE_SUCCESS
  | ENGINE_KEY_ENOENT
  | ENGINE_KEY_EEXISTS
  | ENGINE_ENOMEM
  | ENGINE_NOT_STORED
  | ENGINE_EINVAL
  | ENGINE_ENOTSUP
  | ENGINE_EWOULDBLOCK
  | ENGINE_E2BIG
  | ENGINE_FAILED.

Inductive ENGINE_STORE_OPERATION :=
  | OPERATION_ADD
  | OPERATION_SET
  | OPERATION_REPLACE
  | OPERATION_APPEND
  | OPERATION_PREPEND
  | OPERATION_CAS.

#[global] Instance ENGINE_ERROR_CODE_eq_dec : EqDecision ENGINE_ERROR_CODE.
Proof. solve_decision. Defined.

#[global] Instance ENGINE_STORE_OPERATION_eq_dec : EqDecision ENGINE_STORE_OPERATION.
Proof. solve_decision. Defined.

(** ** Unsigned machine arithmetic *)

Definition SIZE_MAX : Z := 2 ^ 64 - 1.

(** [a - b] on [size_t]: the result is reduced modulo [2^64]. *)
Definition size_sub (a b : Z) : Z := (a - b) mod 2 ^ 64.

(** [a + b] on [size_t]. *)
Definition size_add (a b : Z) : Z := (a + b) mod 2 ^ 64.

Definition size (s : list byte) : Z := Z.of_nat (length s).

(** Bytes of a literal, and the two-byte line terminator. *)
Definition bytes (s : string) : list byte := list_byte_of_string s.
Definition CRLF : list byte := [Byte.x0d; Byte.x0a].

(** A computation that either returns or leaves by a C++ exception. *)
Inductive outcome (A : Type) :=
  | Return (a : A)
  | Throw_length_error.
Arguments Return {A} a.
Arguments Throw_length_error {A}.

#[global] Instance outcome_bind : MBind outcome := λ A B f m,
  match m with
  | Return a => f a
  | Throw_length_error => Throw_length_error
  end.

(** ** The STL example engine *)

Module STL.

Section WithMaxSize.

(** [std::string::max_size()]: fixed by the C++ library, not by this
    repository.  Every library keeps it below [npos - 1]. *)
Variable max_size : Z.

(** [std::string::resize(n)]: [length_error] when [n > max_size()], else the
    string is cut to [n] bytes or padded with NUL bytes up to [n]. *)
Definition resize (n : Z) (s : list byte) : outcome (list byte) :=
  if max_size <? n then Throw_length_error
  else Return (take (Z.to_nat n) s ++ replicate (Z.to_nat n - length s) Byte.x00).

(** Every [std::string] is at most [max_size()] bytes long. *)
Definition fits (v : list byte) : Prop := size v <= max_size.

(** [class Item] of stl_engine.h. *)
Record Item := mkItem {
  key : string;
  exptime : Z;
  flags : Z;
  value : list byte;
  cas : Z;
}.

Definition set_value (it : Item) (v : list byte) : Item :=
  {| key := key it; exptime := exptime it; flags := flags it;
     value := v; cas := cas it |}.

(** [Item::Item(theKey, numKey, numValue, flgs, expt)] *)
Definition new_Item (theKey : string) (numValue : nat) (flgs expt : Z) : Item :=
  {| key := theKey; exptime := expt; flags := flgs;
     value := replicate numValue Byte.x00; cas := 0 |}.

Definition getCas (it : Item) : Z := cas it.

Definition setCas (it : Item) (newCas : Z) : Item :=
  {| key := key it; exptime := exptime it; flags := flags it;
     value := value it; cas := newCas |}.

Definition clone (it : Item) : Item := it.

(** [Item::append(Item *other)]:
    [val = other->value; val.resize(val.length() - 2); val.append(value);
     value = val;] *)
Definition append (this other : Item) : outcome Item :=
  val ← resize (size_sub (size (value other)) 2) (value other) ;
  Return (set_value this (val ++ value this)).

(** [Item::prepend(Item *other)]:
    [value.resize(value.length() - 2); value.append(other->value);] *)
Definition prepend (this other : Item) : outcome Item :=
  val ← resize (size_sub (size (value this)) 2) (value this) ;
  Return (set_value this (val ++ value other)).

(** What [STLEngine::Store] leaves behind when it returns: the return code,
    the cache, the caller's item (which [append]/[prepend] change in place) and
    the value written through the [cas] out-parameter, if any. *)
Record stored := mkStored {
  code : ENGINE_ERROR_CODE;
  cache_after : gmap string Item;
  item_after : Item;
  cas_out : option Z;
}.

(** [STLEngine::Store(cookie, item, cas, operation)] *)
Definition Store (cache : gmap string Item) (it : Item)
    (operation : ENGINE_STORE_OPERATION) : outcome stored :=
  match cache !! key it with
  | None =>
      match operation with
      | OPERATION_REPLACE | OPERATION_APPEND | OPERATION_PREPEND =>
          Return (mkStored ENGINE_KEY_ENOENT cache it None)
      | _ =>
          Return (mkStored ENGINE_SUCCESS (<[key it := clone it]> cache) it None)
      end
  | Some second =>
      if decide (operation = OPERATION_ADD) then
        Return (mkStored ENGINE_NOT_STORED cache it None)
      else if decide (cas it ≠ 0 ∧ cas it ≠ cas second) then
        Return (mkStored ENGINE_KEY_EEXISTS cache it None)
      else
        it' ← (if decide (operation = OPERATION_APPEND) then append it second
               else if decide (operation = OPERATION_PREPEND) then prepend it second
               else Return it) ;
        Return (mkStored ENGINE_SUCCESS
                  (<[key it' := clone it']> (delete (key it) cache))
                  it' (Some (cas it')))
  end.

(** [STLEngine::Get] *)
Definition Get (cache : gmap string Item) (k : string)
    : ENGINE_ERROR_CODE * option Item :=
  match cache !! k with
  | Some second => (ENGINE_SUCCESS, Some (clone second))
  | None => (ENGINE_KEY_ENOENT, None)
  end.

(** [STLEngine::Remove] *)
Definition Remove (cache : gmap string Item) (k : string) (cas_in : Z)
    : ENGINE_ERROR_CODE * gmap string Item :=
  match cache !! k with
  | Some second =>
      if decide (cas_in = cas second) then (ENGINE_SUCCESS, delete k cache)
      else (ENGINE_KEY_EEXISTS, cache)
  | None => (ENGINE_KEY_ENOENT, cache)
  end.

(** *** The rest of the interface *)

(** Conversion of an argument to [uint16_t] and to [uint32_t]. *)
Definition to_uint16 (n : Z) : Z := n mod 2 ^ 16.
Definition to_uint32 (n : Z) : Z := n mod 2 ^ 32.

(** [Item::Item(theKey, numKey, numValue, flgs, expt)]:
    [key(theKey, numKey), exptime(expt), flags(flgs), value(), cas(0)], then
    [value.resize(numValue)].  The heap is taken to have room
    ([std::bad_alloc] is left out). *)
Definition Item_ctor (theKey : string) (numKey numValue flgs expt : Z)
    : outcome Item :=
  v ← resize numValue [] ;
  Return (mkItem (substring 0 (Z.to_nat numKey) theKey) expt flgs v 0).

(** [STLEngine::Allocate(cookie, itm, key, nkey, nbytes, flags, exptime)];
    [key] is the [nkey] bytes at the pointer.  The constructor takes [numKey]
    as [uint16_t] and [numValue] and [flgs] as [uint32_t]: the [size_t] and
    [int] arguments are converted on the way. *)
Definition Allocate (key : string) (nbytes flags exptime : Z)
    : outcome (ENGINE_ERROR_CODE * Item) :=
  it ← Item_ctor key (to_uint16 (Z.of_nat (String.length key)))
         (to_uint32 nbytes) (to_uint32 flags) exptime ;
  Return (ENGINE_SUCCESS, it).

(** [STLEngine::Flush(cookie, when)] *)
Definition Flush (cache : gmap string Item) (when : Z)
    : ENGINE_ERROR_CODE * gmap string Item :=
  if decide (when ≠ 0) then (ENGINE_ENOTSUP, cache) else (ENGINE_SUCCESS, ∅).

(** A call of the interface that works on the cache. *)
Inductive call :=
  | Call_Store (it : Item) (operation : ENGINE_STORE_OPERATION)
  | Call_Remove (k : string) (cas_in : Z)
  | Call_Get (k : string)
  | Call_Flush (when : Z).

(** The cache a call leaves behind.  An exception leaves [stl_store] through
    the host's frames: no call follows it. *)
Definition serve (cache : gmap string Item) (c : call)
    : outcome (gmap string Item) :=
  match c with
  | Call_Store it operation =>
      r ← Store cache it operation ; Return (cache_after r)
  | Call_Remove k cas_in => Return (Remove cache k cas_in).2
  | Call_Get k => Return cache
  | Call_Flush when => Return (Flush cache when).2
  end.

Fixpoint serve_all (cache : gmap string Item) (cs : list call)
    : outcome (gmap string Item) :=
  match cs with
  | [] => Return cache
  | c :: cs => cache ← serve cache c ; serve_all cache cs
  end.

End WithMaxSize.

(** Every entry of the cache is filed under the key of its item. *)
Definition keyed (cache : gmap string Item) : Prop :=
  ∀ k it, cache !! k = Some it → key it = k.

(** A value as the memcached protocol hands it over: a payload followed by
    the line terminator. *)
Definition terminated (v : list byte) : Prop := ∃ payload, v = payload ++ CRLF.

(** The items a sequence of calls stores. *)
Definition stored_items (cs : list call) : list Item :=
  omap (λ c, match c with Call_Store it _ => Some it | _ => None end) cs.

End STL.

(** ** The specification's wording for the STL engine

    The definitions below follow the sentences of the specification, not the
    code; the theorems compare them with [STL.Store]. *)

Module STLSpec.
Import STL.

(** "ADD against an existing key fails NOT_STORED; REPLACE, APPEND and PREPEND
    against an absent key fail KEY_ENOENT; when the supplied CAS token is
    nonzero and differs from the stored item's CAS token the store fails
    KEY_EEXISTS; otherwise the store succeeds."  [stored_cas] is the CAS token
    of the item the cache holds under the key, if it holds one. *)
Definition store_result (stored_cas : option Z) (supplied_cas : Z)
    (op : ENGINE_STORE_OPERATION) : ENGINE_ERROR_CODE :=
  match stored_cas, op with
  | Some _, OPERATION_ADD => ENGINE_NOT_STORED
  | None, (OPERATION_REPLACE | OPERATION_APPEND | OPERATION_PREPEND) =>
      ENGINE_KEY_ENOENT
  | Some c, _ =>
      if decide (supplied_cas ≠ 0 ∧ supplied_cas ≠ c) then ENGINE_KEY_EEXISTS
      else ENGINE_SUCCESS
  | None, _ => ENGINE_SUCCESS
  end.

(** A value "with its trailing line terminator trimmed": without its last
    two bytes. *)
Definition trim_terminator (v : list byte) : list byte :=
  take (length v - 2) v.

(** "the existing value with its trailing line terminator trimmed, followed by
    the new value's bytes" *)
Definition appended (existing new : list byte) : list byte :=
  trim_terminator existing ++ new.

(** "the new value's bytes followed by the existing value, again with the
    trailing line terminator trimmed from the existing value" *)
Definition prepended (existing new : list byte) : list byte :=
  new ++ trim_terminator existing.

(** The value whose length [Store] reduces by two, if the call gets as far as
    the concatenation: the cached one for APPEND, the caller's for PREPEND. *)
Definition trimmed_by (cache : gmap string Item) (it : Item)
    (op : ENGINE_STORE_OPERATION) : option (list byte) :=
  match cache !! key it, op with
  | Some second, OPERATION_APPEND => Some (value second)
  | Some _, OPERATION_PREPEND => Some (value it)
  | _, _ => None
  end.

(** [basic_string<char>::max_size()] of libstdc++ on LP64, used where a
    concrete library is needed. *)
Definition libstdcxx_max_size : Z := 4611686018427387897.

(** An item under the key "k", for the concrete calls below. *)
Definition item_k (v : list byte) (c : Z) : Item := mkItem "k" 0 0 v c.

End STLSpec.

(** ** [std::map] as a key-sorted association list

    [std::map<K,V>] iterates in ascending key order and [begin()] is the entry
    with the least key; the two worker queues of sqlite.cc depend on it. *)

Module StdMap.

(** Three-way comparison behind [std::less<K>]. *)
Class Cmp (K : Type) := cmp : K → K → comparison.

(** [std::string::operator<]: bytewise lexicographic. *)
#[global] Instance string_cmp : Cmp string := String_as_OT.compare.

(** [const void *] compared as addresses. *)
#[global] Instance Z_cmp : Cmp Z := Z.compare.

(** The laws of a strict total order. *)
Class StrictCmp (K : Type) `{Cmp K} := {
  cmp_eq : ∀ x y : K, cmp x y = Eq ↔ x = y;
  cmp_antisym : ∀ x y : K, cmp y x = CompOpp (cmp x y);
  cmp_trans : ∀ x y z : K, cmp x y = Lt → cmp y z = Lt → cmp x z = Lt;
}.

Section Map.
Context {K V : Type} `{Cmp K}.

Definition lt (a b : K) : Prop := cmp a b = Lt.

(** [m.find(k)], as the mapped value. *)
Fixpoint find (k : K) (m : list (K * V)) : option V :=
  match m with
  | [] => None
  | (k', v) :: m' =>
      match cmp k k' with
      | Lt => None
      | Eq => Some v
      | Gt => find k m'
      end
  end.

(** [m[k] = v] *)
Fixpoint insert (k : K) (v : V) (m : list (K * V)) : list (K * V) :=
  match m with
  | [] => [(k, v)]
  | (k', v') :: m' =>
      match cmp k k' with
      | Lt => (k, v) :: m
      | Eq => (k, v) :: m'
      | Gt => (k', v') :: insert k v m'
      end
  end.

(** [m.erase(m.find(k))] *)
Fixpoint erase (k : K) (m : list (K * V)) : list (K * V) :=
  match m with
  | [] => []
  | (k', v') :: m' =>
      match cmp k k' with
      | Lt => m
      | Eq => m'
      | Gt => (k', v') :: erase k m'
      end
  end.

(** [*m.begin()] and [m.erase(m.begin())] *)
Definition begin (m : list (K * V)) : option (K * V) := head m.
Definition erase_begin (m : list (K * V)) : list (K * V) := tail m.

Definition keys (m : list (K * V)) : list K := map fst m.

(** The representation invariant: keys strictly ascending. *)
Definition sorted (m : list (K * V)) : Prop := StronglySorted lt (keys m).

End Map.

End StdMap.

(** ** The persistent engine: data *)

Module Persistent.

(** The host's caller token, a [const void *], as an address. *)
Definition cookie := Z.

(** [hash_item *], an address in item memory; [NULL] is [None]. *)
Definition item_ptr := positive.

(** Flags of persistent_engine.h. *)
Definition ITEM_WITH_CAS : Z := 1.
Definition ITEM_LINKED : Z := Z.shiftl 1 8.
Definition ITEM_SLABBED : Z := Z.shiftl 2 8.

(** [hash_item]: the header fields the sources read and write ([refcount],
    [iflag], [flags], [exptime]; [nkey] and [nbytes] are the lengths of [key]
    and [data]), then what follows the header in memory: the CAS slot, the key
    and the data. *)
Record hash_item := mk_hash_item {
  refcount : nat;
  iflag : Z;
  flags : Z;
  exptime : Z;
  cas_slot : Z;
  key : string;
  data : list byte;
}.

Definition nkey (it : hash_item) : Z := Z.of_nat (String.length (key it)).
Definition nbytes (it : hash_item) : Z := size (data it).

Definition set_refcount (n : nat) (it : hash_item) : hash_item :=
  mk_hash_item n (iflag it) (flags it) (exptime it) (cas_slot it) (key it) (data it).
Definition set_iflag (f : Z) (it : hash_item) : hash_item :=
  mk_hash_item (refcount it) f (flags it) (exptime it) (cas_slot it) (key it) (data it).
Definition set_cas_slot (c : Z) (it : hash_item) : hash_item :=
  mk_hash_item (refcount it) (iflag it) (flags it) (exptime it) c (key it) (data it).
Definition set_data (d : list byte) (it : hash_item) : hash_item :=
  mk_hash_item (refcount it) (iflag it) (flags it) (exptime it) (cas_slot it) (key it) d.

(** [item_get_cas], [item_set_cas], [item_get_key], [item_get_data],
    [item_get_clsid] of persistent_engine.c. *)
Definition item_get_cas (item : hash_item) : Z :=
  if decide (Z.land (iflag item) ITEM_WITH_CAS ≠ 0) then cas_slot item else 0.

Definition item_set_cas (it : hash_item) (val : Z) : hash_item :=
  if decide (Z.land (iflag it) ITEM_WITH_CAS ≠ 0) then set_cas_slot val it else it.

Definition item_get_key (item : hash_item) : string := key item.
Definition item_get_data (item : hash_item) : list byte := data item.
Definition item_get_clsid (item : hash_item) : Z := 0.

(** [memcpy(item_get_data(item), src, n)] with [n = length src]. *)
Definition memcpy_data (src : list byte) (it : hash_item) : hash_item :=
  set_data (src ++ drop (length src) (data it)) it.

(** [struct config]; [factor] is a [float], kept as a fraction. *)
Record config := mk_config {
  use_cas : bool;
  verbose : Z;
  oldest_live : Z;
  evict_to_free : bool;
  maxbytes : Z;
  preallocate : bool;
  factor : Z * Z;
  chunk_size : Z;
  item_size_max : Z;
  warmup : bool;
  dbname : string;
}.

(** The defaults [create_instance] installs. *)
Definition default_config : config :=
  {| use_cas := true; verbose := 0; oldest_live := 0; evict_to_free := true;
     maxbytes := 64 * 1024 * 1024; preallocate := false; factor := (125, 100);
     chunk_size := 48; item_size_max := 1024 * 1024; warmup := false;
     dbname := "/tmp/memcached" |}.

(** One row of table [kv], without its primary key:
    [flags, exptime, hash, value]. *)
Record row := mk_row {
  row_flags : Z;
  row_exptime : Z;
  row_hash : Z;
  row_value : list byte;
}.

(** The part of [struct persistent_engine] that items.c, assoc.c and slabs.c
    work on: item memory, their own tables ([struct assoc], [struct slabs],
    [struct items], whose declarations are not in this tree, kept abstract as
    [A]) and the configuration. *)
Record cache (A : Type) := mk_cache {
  mem : gmap item_ptr hash_item;
  tables : A;
  cfg : config;
}.
Arguments mk_cache {A} _ _ _.
Arguments mem {A} _.
Arguments tables {A} _.
Arguments cfg {A} _.

Definition set_mem {A} (m : gmap item_ptr hash_item) (c : cache A) : cache A :=
  mk_cache m (tables c) (cfg c).

(** The engine with its two workers' queues, the sqlite table they share and
    the record of the host's [notify_io_complete] calls. *)
Record persistent_engine (A : Type) := mk_engine {
  store : cache A;
  reader_queue : list (cookie * string);
  writer_queue : list (string * item_ptr);
  kv : gmap string row;
  kv_log : list string;
  io_complete : list (cookie * ENGINE_ERROR_CODE);
}.
Arguments mk_engine {A} _ _ _ _ _ _.
Arguments store {A} _.
Arguments reader_queue {A} _.
Arguments writer_queue {A} _.
Arguments kv {A} _.
Arguments kv_log {A} _.
Arguments io_complete {A} _.

Definition set_store {A} (c : cache A) (e : persistent_engine A) :=
  mk_engine c (reader_queue e) (writer_queue e) (kv e) (kv_log e) (io_complete e).
Definition set_reader_queue {A} (q : list (cookie * string)) (e : persistent_engine A) :=
  mk_engine (store e) q (writer_queue e) (kv e) (kv_log e) (io_complete e).
Definition set_writer_queue {A} (q : list (string * item_ptr)) (e : persistent_engine A) :=
  mk_engine (store e) (reader_queue e) q (kv e) (kv_log e) (io_complete e).

(** ** The item layer (items.h)

    The functions of items.c, assoc.c and slabs.c that persistent_engine.c and
    sqlite.cc call.  Their bodies are not in this tree: the engine code below
    is written against this interface; [Items] further down is an
    implementation modelled from the specification. *)
Class ItemsLayer (A : Type) := {
  sizeof_hash_item : Z;
  (** [slabs_clsid(engine, size)]: the slab class of an object, 0 if none fits *)
  slabs_clsid : cache A → Z → Z;
  (** [item_alloc(engine, key, nkey, flags, exptime, nbytes, cookie)] *)
  item_alloc : cache A → string → Z → Z → Z → option item_ptr * cache A;
  (** [item_get(engine, key, nkey)] *)
  item_get : cache A → string → option item_ptr * cache A;
  (** [item_unlink(engine, item)] *)
  item_unlink : cache A → item_ptr → cache A;
  (** [item_release(engine, item)] *)
  item_release : cache A → item_ptr → cache A;
  (** the cache half of [store_item]: the result and, on success, the item
      now linked *)
  do_store_item : cache A → item_ptr → ENGINE_STORE_OPERATION
                  → ENGINE_ERROR_CODE * option item_ptr * cache A;
  (** [add_delta(engine, item, incr, delta, cas, result, cookie)]: the result
      and, on success, the values written to [*cas] and [*result] *)
  add_delta : cache A → item_ptr → bool → Z
              → ENGINE_ERROR_CODE * option (Z * Z) * cache A;
}.

(** ** The persistent engine: code *)

(** Columns of the current row of a prepared statement. *)
Inductive column :=
  | Integer (z : Z)
  | Blob (b : list byte)
  | Text (s : string).

(** [sqlite3_column_int], [sqlite3_column_bytes], [sqlite3_column_text].  The
    sources read integers from INTEGER columns and bytes from the BLOB column
    only; sqlite's conversions between the two are left out. *)
Definition sqlite3_column_int (cols : list column) (i : nat) : Z :=
  match cols !! i with Some (Integer z) => z | _ => 0 end.

Definition sqlite3_column_text (cols : list column) (i : nat) : list byte :=
  match cols !! i with
  | Some (Blob b) => b
  | Some (Text s) => bytes s
  | _ => []
  end.

Definition sqlite3_column_bytes (cols : list column) (i : nat) : Z :=
  size (sqlite3_column_text cols i).

(** Conversion of an [int] argument to [uint16_t]. *)
Definition uint16_t (n : Z) : Z := n mod 2 ^ 16.

(** Conversion of a [uint32_t] argument to [int], the parameter type of
    [sqlite3_bind_int]: the value of the same 32 bits in two's complement. *)
Definition to_int (n : Z) : Z := (n + 2 ^ 31) mod 2 ^ 32 - 2 ^ 31.

(** [std::string(p, n)]: the first [n] bytes at [p]. *)
Definition std_string (p : string) (n : Z) : string := substring 0 (Z.to_nat n) p.

(** [snprintf(buffer, sizeof(buffer), "%llu\r\n", initial)] *)
Definition decimal (n : Z) : list byte :=
  bytes (NilZero.string_of_uint (N.to_uint (Z.to_N n))).

Section Engine.
Context {A : Type} `{ItemsLayer A}.
Implicit Types (e : persistent_engine A) (c : cache A).

(** Apply [f] to the item at [item]. *)
Definition update_item e (item : item_ptr) (f : hash_item → hash_item)
    : persistent_engine A :=
  set_store (set_mem (alter f item (mem (store e))) (store e)) e.

(** [persistent_item_release] *)
Definition persistent_item_release e (item : item_ptr) : persistent_engine A :=
  set_store (item_release (store e) item) e.

(** *** sqlite.cc: the write-behind worker *)

(** [SQLiteWriter::enqueue(hash_item *item)].  [item] must point to an
    allocated item: with a dangling pointer the C++ code has no defined
    behaviour, and the model leaves the engine as it is. *)
Definition SQLiteWriter_enqueue e (item : item_ptr) : persistent_engine A :=
  match mem (store e) !! item with
  | None => e
  | Some it =>
      let key := item_get_key it in
      let e := update_item e item (set_refcount (S (refcount it))) in
      match StdMap.find key (writer_queue e) with
      | Some second =>
          let e := persistent_item_release e second in
          set_writer_queue
            (StdMap.insert key item (StdMap.erase key (writer_queue e))) e
      | None =>
          set_writer_queue (StdMap.insert key item (writer_queue e)) e
      end
  end.

(** [SQLiteWriter::storeItem(hash_item *it)]: binds key, flags, exptime, 0 and
    the data to INSERT OR REPLACE and steps the statement; sqlite is taken to
    complete it with SQLITE_DONE.  Flags and expiry time, both [uint32_t], go
    through [sqlite3_bind_int] and reach the table as [int]s.  [kv_log]
    records the keys in the order of the executions. *)
Definition SQLiteWriter_storeItem e (it : item_ptr) : persistent_engine A :=
  match mem (store e) !! it with
  | None => e
  | Some itm =>
      mk_engine (store e) (reader_queue e) (writer_queue e)
        (<[item_get_key itm :=
             mk_row (to_int (flags itm)) (to_int (exptime itm)) 0
               (item_get_data itm)]> (kv e))
        (kv_log e ++ [item_get_key itm]) (io_complete e)
  end.

(** One turn of the inner loop of [SQLiteWriter::run], in its two halves.
    With the lock held:
    [item = queue.begin()->second; queue.erase(queue.begin());] *)
Definition writer_pop e : option (item_ptr * persistent_engine A) :=
  match StdMap.begin (writer_queue e) with
  | None => None
  | Some (_, item) =>
      Some (item, set_writer_queue (StdMap.erase_begin (writer_queue e)) e)
  end.

(** With the lock released: [storeItem(item); engine->engine.release(item);] *)
Definition writer_persist e (item : item_ptr) : persistent_engine A :=
  persistent_item_release (SQLiteWriter_storeItem e item) item.

(** [SQLiteWriter::run], the loop [while (queue.begin() != queue.end())] with
    no producer running in between; when it ends the worker waits. *)
Fixpoint SQLiteWriter_run (fuel : nat) e : persistent_engine A :=
  match fuel with
  | O => e
  | S fuel =>
      match writer_pop e with
      | None => e
      | Some (item, e) => SQLiteWriter_run fuel (writer_persist e item)
      end
  end.

(** [sqlite_io_store_item] *)
Definition sqlite_io_store_item e (item : item_ptr) : persistent_engine A :=
  SQLiteWriter_enqueue e item.

(** Modelled from the spec: [store_item(engine, item, cas, operation, persist,
    cookie)] of items.c, which is not in this tree.  "authoritative write path
    is synchronous against ItemStore; on success, best-effort enqueue to
    WriteBehindWorker".  Returns the result and the value written to [*cas],
    if one is. *)
Definition store_item e (item : item_ptr) (operation : ENGINE_STORE_OPERATION)
    (persist : bool) : ENGINE_ERROR_CODE * option Z * persistent_engine A :=
  let '(ret, linked, c) := do_store_item (store e) item operation in
  let e := set_store c e in
  match linked with
  | Some it =>
      (ret, item_get_cas <$> mem c !! it,
       if persist then sqlite_io_store_item e it else e)
  | None => (ret, None, e)
  end.

(** *** persistent_engine.c: allocation *)

(** [persistent_item_allocate]; [ntotal] is a [size_t]. *)
Definition persistent_item_allocate e (key : string) (nbytes : Z)
    (flags exptime : Z)
    : ENGINE_ERROR_CODE * option item_ptr * persistent_engine A :=
  let ntotal :=
    size_add (size_add sizeof_hash_item (Z.of_nat (String.length key))) nbytes in
  let ntotal := if use_cas (cfg (store e)) then size_add ntotal 8 else ntotal in
  let id := slabs_clsid (store e) ntotal in
  if decide (id = 0) then (ENGINE_E2BIG, None, e)
  else
    match item_alloc (store e) key flags exptime nbytes with
    | (Some it, c) => (ENGINE_SUCCESS, Some it, set_store c e)
    | (None, c) => (ENGINE_ENOMEM, None, set_store c e)
    end.

(** *** sqlite.cc: the read-through worker *)

(** [SQLiteReader::enqueue(cookie, key)] *)
Definition SQLiteReader_enqueue e (cookie : cookie) (key : string)
    : persistent_engine A :=
  set_reader_queue (StdMap.insert cookie key (reader_queue e)) e.

(** [SQLiteReader::createItem(key, flagoffset, cookie)] on the current row. *)
Definition createItem e (cols : list column) (key : string) (flagoffset : nat)
    : bool * persistent_engine A :=
  let nbytes := sqlite3_column_bytes cols (flagoffset + 2) in
  let '(r, it, e) :=
    persistent_item_allocate e key nbytes
      (sqlite3_column_int cols flagoffset)
      (sqlite3_column_int cols (flagoffset + 1)) in
  match r, it with
  | ENGINE_SUCCESS, Some itm =>
      let e := update_item e itm
                 (memcpy_data (sqlite3_column_text cols (flagoffset + 2))) in
      let '(_, _, e) := store_item e itm OPERATION_ADD false in
      (true, e)
  | _, _ => (false, e)
  end.

(** [SQLiteReader::readItem(key, cookie)]: SELECT flags, exptime, hash, value
    WHERE key = ?; sqlite is taken to answer SQLITE_ROW when the table has the
    key and SQLITE_DONE when it has not. *)
Definition readItem e (key : string) : bool * persistent_engine A :=
  match kv e !! key with
  | Some r =>
      createItem e [Integer (row_flags r); Integer (row_exptime r);
                    Integer (row_hash r); Blob (row_value r)] key 1
  | None => (false, e)
  end.

(** [engine->server.notify_io_complete(cookie, status)] *)
Definition notify_io_complete e (cookie : cookie) (status : ENGINE_ERROR_CODE)
    : persistent_engine A :=
  mk_engine (store e) (reader_queue e) (writer_queue e) (kv e) (kv_log e)
    (io_complete e ++ [(cookie, status)]).

(** One turn of the inner loop of [SQLiteReader::run]. *)
Definition reader_pop e : option (cookie * string * persistent_engine A) :=
  match StdMap.begin (reader_queue e) with
  | None => None
  | Some (cookie, key) =>
      Some (cookie, key,
            set_reader_queue (StdMap.erase_begin (reader_queue e)) e)
  end.

Definition reader_serve e (cookie : cookie) (key : string)
    : persistent_engine A :=
  let '(success, e) := readItem e key in
  notify_io_complete e cookie
    (if success then ENGINE_SUCCESS else ENGINE_KEY_ENOENT).

(** [SQLiteReader::run], the loop [while (queue.begin() != queue.end())]. *)
Fixpoint SQLiteReader_run (fuel : nat) e : persistent_engine A :=
  match fuel with
  | O => e
  | S fuel =>
      match reader_pop e with
      | None => e
      | Some (cookie, key, e) => SQLiteReader_run fuel (reader_serve e cookie key)
      end
  end.

(** What [readItem] returns, and [run] notifies as ENGINE_SUCCESS: the table
    has a row for [key] and [persistent_item_allocate], called as [createItem]
    calls it, answers ENGINE_SUCCESS.  The result of the ADD that follows has
    no part in it. *)
Definition found_and_allocated e (key : string) : bool :=
  match kv e !! key with
  | Some r =>
      bool_decide
        ((persistent_item_allocate e key (size (row_value r))
            (row_exptime r) (row_hash r)).1.1 = ENGINE_SUCCESS)
  | None => false
  end.

(** Two engines that differ in the cache only. *)
Definition same_io e e' : Prop :=
  reader_queue e' = reader_queue e ∧ writer_queue e' = writer_queue e ∧
  kv e' = kv e ∧ kv_log e' = kv_log e ∧ io_complete e' = io_complete e.

(** [sqlite_io_get_item(engine, cookie, key, keylen)] *)
Definition sqlite_io_get_item e (cookie : cookie) (key : string) (keylen : Z)
    : persistent_engine A :=
  SQLiteReader_enqueue e cookie (std_string key keylen).

(** *** persistent_engine.c: the operations *)

(** [persistent_get]; the key is the [nkey] bytes at [key]. *)
Definition persistent_get e (cookie : cookie) (key : string)
    : ENGINE_ERROR_CODE * option item_ptr * persistent_engine A :=
  let nkey := Z.of_nat (String.length key) in
  match item_get (store e) key with
  | (Some it, c) => (ENGINE_SUCCESS, Some it, set_store c e)
  | (None, c) =>
      (ENGINE_EWOULDBLOCK, None,
       sqlite_io_get_item (set_store c e) cookie key (uint16_t nkey))
  end.

(** [persistent_item_delete] *)
Definition persistent_item_delete e (cookie : cookie) (key : string) (cas : Z)
    : ENGINE_ERROR_CODE * persistent_engine A :=
  match persistent_get e cookie key with
  | (ENGINE_SUCCESS, Some it, e) =>
      (ENGINE_SUCCESS,
       set_store (item_release (item_unlink (store e) it) it) e)
  | (_, _, e) => (ENGINE_SUCCESS, e)
  end.

(** [persistent_store] *)
Definition persistent_store e (item : item_ptr)
    (operation : ENGINE_STORE_OPERATION)
    : ENGINE_ERROR_CODE * option Z * persistent_engine A :=
  store_item e item operation true.

(** The out-parameters [*cas] and [*result] of [persistent_arithmetic]. *)
Record arith_out := mk_out { out_cas : Z; out_result : Z }.

(** [persistent_arithmetic].  The function calls itself when the ADD answers
    ENGINE_KEY_EEXISTS; [fuel] bounds the depth of these calls, [None] is a
    call that needed more. *)
Fixpoint persistent_arithmetic (fuel : nat) e (key : string)
    (increment create : bool) (delta initial exptime : Z) (out : arith_out)
    : option (ENGINE_ERROR_CODE * arith_out * persistent_engine A) :=
  match fuel with
  | O => None
  | S fuel =>
      match item_get (store e) key with
      | (None, c) =>
          let e := set_store c e in
          if negb create then Some (ENGINE_KEY_ENOENT, out, e)
          else
            let buffer := decimal initial ++ CRLF in
            let len := size buffer in
            match item_alloc (store e) key 0 exptime len with
            | (None, c) => Some (ENGINE_ENOMEM, out, set_store c e)
            | (Some item, c) =>
                let e := update_item (set_store c e) item (memcpy_data buffer) in
                let '(ret, cas, e) := store_item e item OPERATION_ADD true in
                let out := mk_out (default (out_cas out) cas) (out_result out) in
                if decide (ret = ENGINE_KEY_EEXISTS) then
                  persistent_arithmetic fuel (persistent_item_release e item)
                    key increment create delta initial exptime out
                else
                  let out :=
                    mk_out (default 0 (item_get_cas <$> mem (store e) !! item))
                      initial in
                  Some (ret, out, persistent_item_release e item)
            end
      | (Some item, c) =>
          let '(ret, written, c) := add_delta c item increment delta in
          let out := match written with
                     | Some (cas, result) => mk_out cas result
                     | None => out
                     end in
          Some (ret, out, set_store (item_release c item) e)
      end
  end.

End Engine.

(** *** persistent_engine.c: initialisation *)

Section Initialize.
Context {A : Type}.

(** What the host and the operating system answer during initialisation:
    [server.core->parse_config] (its [int] result and the configuration it
    fills in through the item table), [assoc_init], [slabs_init], the results
    of [initialize] for the reader and the writer, once they have returned,
    and [pthread_create] for the two workers.  The calls of sqlite behind the
    two [initialize] are in [sqlite_io_start_threads_on] further down. *)
Record init_env := mk_init_env {
  parse_config : string → config → Z * config;
  assoc_init : cache A → ENGINE_ERROR_CODE;
  slabs_init : cache A → ENGINE_ERROR_CODE;
  reader_initialize : string → bool;
  writer_initialize : string → bool;
  pthread_create_reader : Z;
  pthread_create_writer : Z;
}.

Variable env : init_env.

(** [initalize_configuration(se, config, cfg_str)]; a NULL [cfg_str] is
    [None]. *)
Definition initalize_configuration (config : config) (cfg_str : option string)
    : ENGINE_ERROR_CODE * Persistent.config :=
  let ret : Z := 0 (* ENGINE_SUCCESS *) in
  let '(ret, config) :=
    match cfg_str with
    | Some str => parse_config env str config
    | None => (ret, config)
    end in
  (ENGINE_SUCCESS, config).

(** [sqlite_io_start_threads] *)
Definition sqlite_io_start_threads (c : cache A) : ENGINE_ERROR_CODE :=
  if negb (reader_initialize env (dbname (cfg c)))
     || negb (writer_initialize env (dbname (cfg c)))
  then ENGINE_FAILED
  else if negb (pthread_create_reader env =? 0)
          || negb (pthread_create_writer env =? 0)
  then ENGINE_FAILED
  else ENGINE_SUCCESS.

(** [persistent_initialize] *)
Definition persistent_initialize (c : cache A) (config_str : option string)
    : ENGINE_ERROR_CODE * cache A :=
  let '(ret, config) := initalize_configuration (cfg c) config_str in
  let c := mk_cache (mem c) (tables c) config in
  if decide (ret ≠ ENGINE_SUCCESS) then (ret, c)
  else
    let ret := assoc_init env c in
    if decide (ret ≠ ENGINE_SUCCESS) then (ret, c)
    else
      let ret := slabs_init env c in
      if decide (ret ≠ ENGINE_SUCCESS) then (ret, c)
      else
        let ret := sqlite_io_start_threads c in
        if decide (ret ≠ ENGINE_SUCCESS) then (ret, c)
        else (ENGINE_SUCCESS, c).

(** The environment with another answer of [parse_config] to every
    configuration string. *)
Definition with_parse_result (ret : Z) : init_env :=
  mk_init_env (λ str config, (ret, (parse_config env str config).2))
    (assoc_init env) (slabs_init env) (reader_initialize env)
    (writer_initialize env) (pthread_create_reader env)
    (pthread_create_writer env).

End Initialize.

(** ** Producers and the write-behind worker, interleaved

    A producer runs [SQLiteWriter::enqueue] with the queue's lock held; the
    worker takes the lock to pop an entry and releases it to persist the
    entry.  A schedule is a sequence of these three steps. *)

Inductive writer_event :=
  | Enqueue (item : item_ptr)
  | Pop
  | Persist.

(** What the sqlite table gets for an item: its key and row. *)
Definition item_entry (it : hash_item) : string * row :=
  (item_get_key it,
   mk_row (to_int (flags it)) (to_int (exptime it)) 0 (item_get_data it)).

(** The engine, the worker's local variable [item] between a pop and the
    persist that follows, and the history of enqueued keys and rows. *)
Record writer_system (A : Type) := mk_writer_system {
  engine : persistent_engine A;
  item_local : option item_ptr;
  enqueued : list (string * row);
}.
Arguments mk_writer_system {A} _ _ _.
Arguments engine {A} _.
Arguments item_local {A} _.
Arguments enqueued {A} _.

Section Schedule.
Context {A : Type} `{ItemsLayer A}.

(** A step the schedule cannot take (a pop on an empty queue, where the worker
    waits; a dangling item) is [None]. *)
Definition writer_step (s : writer_system A) (ev : writer_event)
    : option (writer_system A) :=
  match ev with
  | Enqueue item =>
      it ← mem (store (engine s)) !! item;
      Some (mk_writer_system (SQLiteWriter_enqueue (engine s) item)
              (item_local s) (enqueued s ++ [item_entry it]))
  | Pop =>
      match item_local s with
      | Some _ => None
      | None =>
          '(item, e) ← writer_pop (engine s);
          Some (mk_writer_system e (Some item) (enqueued s))
      end
  | Persist =>
      item ← item_local s;
      _ ← mem (store (engine s)) !! item;
      Some (mk_writer_system (writer_persist (engine s) item) None (enqueued s))
  end.

Fixpoint writer_steps (s : writer_system A) (evs : list writer_event)
    : option (writer_system A) :=
  match evs with
  | [] => Some s
  | ev :: evs => s' ← writer_step s ev; writer_steps s' evs
  end.

End Schedule.

(** The table a history of writes produces: for each key the row written
    last. *)
Definition latest (log : list (string * row)) : gmap string row :=
  foldl (λ m kr, <[kr.1 := kr.2]> m) ∅ log.

(** The keys of a history in the order of their first occurrence. *)
Fixpoint first_occurrences (ks : list string) : list string :=
  match ks with
  | [] => []
  | k :: ks => k :: filter (λ k', k' ≠ k) (first_occurrences ks)
  end.

(** The item layer leaves allocated items alone when it releases one: it
    touches no other item, and of the released item it changes only the
    header's reference count, unless it frees the item. *)
Class ReleaseLaws (A : Type) `{ItemsLayer A} := {
  release_other : ∀ (c : cache A) (p q : item_ptr),
    p ≠ q → mem (item_release c p) !! q = mem c !! q;
  release_same : ∀ (c : cache A) (p : item_ptr) (it : hash_item),
    mem (item_release c p) !! p = Some it →
    ∃ it0, mem c !! p = Some it0 ∧ item_entry it0 = item_entry it;
}.

(** ** The item layer, modelled from the specification *)

(** Modelled from the spec: the tables of items.c, assoc.c and slabs.c, which
    are not in this tree.  "ItemStore: mapping from key to exactly one live
    Item"; "fixed-size-class slab allocator".  [assoc] is the hash index,
    [free_chunks] the number of chunks the allocator can still hand out,
    [next_item] the address of the next one, [next_cas] the CAS counter. *)
Record tables_t := mk_tables {
  assoc : gmap string item_ptr;
  free_chunks : nat;
  next_item : item_ptr;
  next_cas : Z;
}.

(** [it->iflag & ITEM_LINKED] *)
Definition linked (it : hash_item) : bool :=
  negb (Z.land (iflag it) ITEM_LINKED =? 0).

(** Modelled from the spec: [slabs_clsid] of slabs.c.  "picks a slab class
    sized >= header+key+value(+CAS slot if enabled); fails E2BIG if no class
    fits the configured maximum".  One class stands for all. *)
Definition spec_slabs_clsid (c : cache tables_t) (size : Z) : Z :=
  if item_size_max (cfg c) <? size then 0 else 1.

(** Modelled from the spec: [item_alloc] of items.c.  "fails ENOMEM if the
    class has no free chunk and eviction is disabled or eviction cannot free
    enough".  Eviction is left out; the new item has one reference, the
    caller's, and is not linked. *)
Definition spec_item_alloc (c : cache tables_t) (key : string)
    (flags exptime nbytes : Z) : option item_ptr * cache tables_t :=
  match free_chunks (tables c) with
  | O => (None, c)
  | S n =>
      let p := next_item (tables c) in
      let it := mk_hash_item 1 (if use_cas (cfg c) then ITEM_WITH_CAS else 0)
                  flags exptime 0 key (replicate (Z.to_nat nbytes) Byte.x00) in
      (Some p,
       mk_cache (<[p := it]> (mem c))
         (mk_tables (assoc (tables c)) n (Pos.succ p) (next_cas (tables c)))
         (cfg c))
  end.

(** Modelled from the spec: [item_get] of items.c.  "lookup(key) -> Item |
    miss: ... does not change link state; increments refcount of returned
    item". *)
Definition spec_item_get (c : cache tables_t) (key : string)
    : option item_ptr * cache tables_t :=
  match assoc (tables c) !! key with
  | None => (None, c)
  | Some p =>
      match mem c !! p with
      | None => (None, c)
      | Some it =>
          (Some p, set_mem (<[p := set_refcount (S (refcount it)) it]> (mem c)) c)
      end
  end.

(** Modelled from the spec: the free of an item's chunk, in slabs.c.  "frees
    the slab chunk": the item leaves memory and the allocator has one more
    chunk to hand out. *)
Definition spec_free (c : cache tables_t) (p : item_ptr) : cache tables_t :=
  mk_cache (delete p (mem c))
    (mk_tables (assoc (tables c)) (S (free_chunks (tables c)))
       (next_item (tables c)) (next_cas (tables c)))
    (cfg c).

(** Modelled from the spec: [item_unlink] of items.c.  "removes from hash
    index, flips link state to unlinked; physical free deferred until refcount
    reaches 0". *)
Definition spec_item_unlink (c : cache tables_t) (p : item_ptr)
    : cache tables_t :=
  match mem c !! p with
  | None => c
  | Some it =>
      if linked it then
        let it := set_iflag (Z.land (iflag it) (Z.lnot ITEM_LINKED)) it in
        let c := mk_cache (<[p := it]> (mem c))
                   (mk_tables (delete (key it) (assoc (tables c)))
                      (free_chunks (tables c)) (next_item (tables c))
                      (next_cas (tables c)))
                   (cfg c) in
        if decide (refcount it = 0%nat) then spec_free c p else c
      else c
  end.

(** Modelled from the spec: [item_release] of items.c.  "decrements refcount;
    frees the slab chunk when refcount reaches 0 and item is unlinked". *)
Definition spec_item_release (c : cache tables_t) (p : item_ptr)
    : cache tables_t :=
  match mem c !! p with
  | None => c
  | Some it =>
      let n := pred (refcount it) in
      if bool_decide (n = 0%nat) && negb (linked it) then spec_free c p
      else set_mem (<[p := set_refcount n it]> (mem c)) c
  end.

(** Modelled from the spec: [item_link] of items.c.  "link(item): inserts
    into hash index, flips link state"; "On success, assign a new nonzero CAS
    when CAS is enabled". *)
Definition spec_item_link (c : cache tables_t) (p : item_ptr)
    : cache tables_t :=
  match mem c !! p with
  | None => c
  | Some it =>
      let cas := next_cas (tables c) + 1 in
      let it := item_set_cas (set_iflag (Z.lor (iflag it) ITEM_LINKED) it) cas in
      mk_cache (<[p := it]> (mem c))
        (mk_tables (<[key it := p]> (assoc (tables c)))
           (free_chunks (tables c)) (next_item (tables c)) cas)
        (cfg c)
  end.

(** Modelled from the spec: the trimming inside [store_item].  "trimming any
    trailing line-terminator convention from the existing value": the value
    without its last two bytes. *)
Definition trim_CRLF (v : list byte) : list byte := take (length v - 2) v.

(** Modelled from the spec: the cache half of [store_item] of items.c.
    "ADD: fails NOT_STORED if key exists.  REPLACE/APPEND/PREPEND: fail
    KEY_ENOENT if key absent.  If expectedCas <> 0 and differs from stored
    CAS: fail KEY_EEXISTS.  APPEND/PREPEND concatenate value bytes ...
    producing a new Item; the old Item is unlinked and released, the new one
    linked." *)
Definition spec_do_store_item (c : cache tables_t) (p : item_ptr)
    (op : ENGINE_STORE_OPERATION)
    : ENGINE_ERROR_CODE * option item_ptr * cache tables_t :=
  match mem c !! p with
  | None => (ENGINE_EINVAL, None, c)
  | Some it =>
      let old := assoc (tables c) !! key it in
      match old ≫= (λ q, pair q <$> mem c !! q), op with
      | Some _, OPERATION_ADD => (ENGINE_NOT_STORED, None, c)
      | None, (OPERATION_REPLACE | OPERATION_APPEND | OPERATION_PREPEND) =>
          (ENGINE_KEY_ENOENT, None, c)
      | None, _ => (ENGINE_SUCCESS, Some p, spec_item_link c p)
      | Some (q, old_it), _ =>
          if decide (item_get_cas it ≠ 0 ∧ item_get_cas it ≠ item_get_cas old_it)
          then (ENGINE_KEY_EEXISTS, None, c)
          else
            match op with
            | OPERATION_APPEND | OPERATION_PREPEND =>
                let v := if decide (op = OPERATION_APPEND)
                         then trim_CRLF (data old_it) ++ data it
                         else data it ++ trim_CRLF (data old_it) in
                match spec_item_alloc c (key it) (flags it) (exptime it) (size v) with
                | (None, c) => (ENGINE_ENOMEM, None, c)
                | (Some n, c) =>
                    let c := set_mem (alter (set_data v) n (mem c)) c in
                    let c := spec_item_release (spec_item_unlink c q) q in
                    (ENGINE_SUCCESS, Some n, spec_item_link c n)
                end
            | _ =>
                let c := spec_item_release (spec_item_unlink c q) q in
                (ENGINE_SUCCESS, Some p, spec_item_link c p)
            end
      end
  end.

(** Modelled from the spec: the parse inside [add_delta].  "parses the stored
    value as a decimal integer text": the digits before the line terminator,
    as a number. *)
Definition parse_decimal (v : list byte) : option Z :=
  (λ u, Z.of_N (N.of_uint u))
    <$> NilZero.uint_of_string (string_of_list_byte (trim_CRLF v)).

(** Modelled from the spec: [add_delta] of items.c.  "parses the stored value
    as a decimal integer text, applies increment/decrement with delta,
    re-stores as decimal text, fails (non-numeric) if parse fails".  The
    arithmetic is that of [uint64_t]. *)
Definition spec_add_delta (c : cache tables_t) (p : item_ptr)
    (incr : bool) (delta : Z) : ENGINE_ERROR_CODE * option (Z * Z) * cache tables_t :=
  match mem c !! p with
  | None => (ENGINE_EINVAL, None, c)
  | Some it =>
      match parse_decimal (data it) with
      | None => (ENGINE_EINVAL, None, c)
      | Some n =>
          let result := (if incr then n + delta else n - delta) mod 2 ^ 64 in
          let cas := next_cas (tables c) + 1 in
          let it := item_set_cas (set_data (decimal result ++ CRLF) it) cas in
          (ENGINE_SUCCESS, Some (item_get_cas it, result),
           mk_cache (<[p := it]> (mem c))
             (mk_tables (assoc (tables c)) (free_chunks (tables c))
                (next_item (tables c)) cas)
             (cfg c))
      end
  end.

#[global] Instance Items : ItemsLayer tables_t := {|
  sizeof_hash_item := 48;
  slabs_clsid := spec_slabs_clsid;
  item_alloc := spec_item_alloc;
  item_get := spec_item_get;
  item_unlink := spec_item_unlink;
  item_release := spec_item_release;
  do_store_item := spec_do_store_item;
  add_delta := spec_add_delta;
|}.

(** Two copies of an item header and body that differ at most in the
    reference count. *)
Definition same_item (it it' : hash_item) : Prop :=
  set_refcount 0 it = set_refcount 0 it'.



(** An engine with an empty cache, [n] free chunks and empty queues. *)
Definition fresh_engine (n : nat) : persistent_engine tables_t :=
  mk_engine (mk_cache ∅ (mk_tables ∅ n 1%positive 0) default_config)
    [] [] ∅ [] [].

(** The key and row of the item at [p], if one is allocated there. *)
Definition entry_at {A} (c : cache A) (p : item_ptr) : option (string * row) :=
  item_entry <$> mem c !! p.

(** [c] holds no item that [c0] did not hold, with the same key and row. *)
Definition frame {A} (c0 c : cache A) : Prop :=
  ∀ p it, mem c !! p = Some it → entry_at c0 p = Some (item_entry it).

(** The queue's entries point to allocated items filed under their keys. *)
Definition writer_queue_ok {A} (e : persistent_engine A) : Prop :=
  StdMap.sorted (writer_queue e) ∧
  ∀ k p, (k, p) ∈ writer_queue e →
         ∃ it, mem (store e) !! p = Some it ∧ key it = k.

(** The invariant of the schedules that start from the cache [c0] with an
    empty queue: for every key of the history, the row enqueued last is that
    of the queued item, or else of the item the worker holds, or else the row
    in the table. *)
Record writer_inv {A} (c0 : cache A) (s : writer_system A) : Prop := {
  inv_sorted : StdMap.sorted (writer_queue (engine s));
  inv_frame : frame c0 (store (engine s));
  inv_queue : ∀ k p, StdMap.find k (writer_queue (engine s)) = Some p →
                     ∃ r, entry_at c0 p = Some (k, r);
  inv_local : ∀ p, item_local s = Some p → ∃ k r, entry_at c0 p = Some (k, r);
  inv_latest : ∀ k r, latest (enqueued s) !! k = Some r →
    match StdMap.find k (writer_queue (engine s)) with
    | Some p => entry_at c0 p = Some (k, r)
    | None =>
        match item_local s with
        | Some p =>
            entry_at c0 p = Some (k, r) ∨
            ((∀ r', entry_at c0 p ≠ Some (k, r')) ∧ kv (engine s) !! k = Some r)
        | None => kv (engine s) !! k = Some r
        end
    end;
}.

(** Every item the worker's side refers to is allocated, and its reference
    count covers the references held: one while the item is queued, one while
    the worker has it in hand. *)
Definition references_counted {A} (s : writer_system A) : Prop :=
  ∀ p,
    let queued := ∃ k, StdMap.find k (writer_queue (engine s)) = Some p in
    let in_hand := item_local s = Some p in
    queued ∨ in_hand →
    ∃ it, mem (store (engine s)) !! p = Some it ∧
          (1 ≤ refcount it)%nat ∧
          (queued → in_hand → (2 ≤ refcount it)%nat).

(** What the threads may do in state [s]: a producer enqueues an allocated
    item; the worker pops when it holds nothing and the queue is not empty,
    and persists when it holds an item. *)
Definition enabled {A} (s : writer_system A) (ev : writer_event) : Prop :=
  match ev with
  | Enqueue item => is_Some (mem (store (engine s)) !! item)
  | Pop => item_local s = None ∧ writer_queue (engine s) ≠ []
  | Persist => is_Some (item_local s)
  end.

(** A schedule the threads may run from [s], step after step. *)
Fixpoint runnable {A} `{ItemsLayer A} (s : writer_system A)
    (evs : list writer_event) : Prop :=
  match evs with
  | [] => True
  | ev :: evs =>
      enabled s ev ∧ ∀ s', writer_step s ev = Some s' → runnable s' evs
  end.

(** An engine whose item memory holds, in the order of their allocation, an
    item "b" with data "v1" at address 1, an item "a" with data "v0" at
    address 2 and a second item "b" with data "v2" at address 3. *)
Definition engine_b_a_b : persistent_engine tables_t :=
  let '(_, _, e) := persistent_item_allocate (fresh_engine 4) "b" 2 0 0 in
  let e := update_item e 1%positive (memcpy_data (bytes "v1")) in
  let '(_, _, e) := persistent_item_allocate e "a" 2 0 0 in
  let e := update_item e 2%positive (memcpy_data (bytes "v0")) in
  let '(_, _, e) := persistent_item_allocate e "b" 2 0 0 in
  update_item e 3%positive (memcpy_data (bytes "v2")).

(** The three items are enqueued in the order of their addresses, then the
    worker drains the queue. *)
Definition schedule_b_a_b : list writer_event :=
  [Enqueue 1%positive; Enqueue 2%positive; Enqueue 3%positive;
   Pop; Persist; Pop; Persist].

Definition start_b_a_b : writer_system tables_t :=
  mk_writer_system engine_b_a_b None [].

Definition drained_b_a_b : writer_system tables_t :=
  default start_b_a_b (writer_steps start_b_a_b schedule_b_a_b).

(** The three enqueues alone, and the state they lead to, before the worker
    runs. *)
Definition enqueues_b_a_b : list writer_event :=
  [Enqueue 1%positive; Enqueue 2%positive; Enqueue 3%positive].

Definition pending_b_a_b : writer_system tables_t :=
  default start_b_a_b (writer_steps start_b_a_b enqueues_b_a_b).

(** An engine whose table has a row for "k" only and whose read-through queue
    holds a request of caller 1 for "a" and one of caller 2 for "k". *)
Definition engine_reads_a_k : persistent_engine tables_t :=
  mk_engine (store (fresh_engine 4)) [(1, "a"); (2, "k")] []
    {[ "k" := mk_row 5 0 0 (bytes "hi" ++ CRLF) ]} [] [].

(** ** An item layer under contention

    A stand-in for items.c in executions where other threads keep winning the
    race for the key: every lookup misses, every allocation succeeds, and the
    ADD answers what the script says next (ENGINE_SUCCESS once the script is
    used up).  It counts the ADDs. *)
Record contended_t := mk_contended {
  replies : list ENGINE_ERROR_CODE;
  adds : nat;
  next_chunk : item_ptr;
}.

Definition contended_item_alloc (c : cache contended_t) (key : string)
    (flags exptime nbytes : Z) : option item_ptr * cache contended_t :=
  let p := next_chunk (tables c) in
  let it := mk_hash_item 1 ITEM_WITH_CAS flags exptime 0 key
              (replicate (Z.to_nat nbytes) Byte.x00) in
  (Some p,
   mk_cache (<[p := it]> (mem c))
     (mk_contended (replies (tables c)) (adds (tables c)) (Pos.succ p))
     (cfg c)).

Definition contended_do_store_item (c : cache contended_t) (p : item_ptr)
    (op : ENGINE_STORE_OPERATION)
    : ENGINE_ERROR_CODE * option item_ptr * cache contended_t :=
  let t := tables c in
  match replies t with
  | r :: rest =>
      (r, if decide (r = ENGINE_SUCCESS) then Some p else None,
       mk_cache (mem c) (mk_contended rest (S (adds t)) (next_chunk t)) (cfg c))
  | [] =>
      (ENGINE_SUCCESS, Some p,
       mk_cache (mem c) (mk_contended [] (S (adds t)) (next_chunk t)) (cfg c))
  end.

#[global] Instance Contended : ItemsLayer contended_t := {|
  sizeof_hash_item := 48;
  slabs_clsid := λ _ _, 1;
  item_alloc := contended_item_alloc;
  item_get := λ c _, (None, c);
  item_unlink := λ c _, c;
  item_release := λ c p, set_mem (delete p (mem c)) c;
  do_store_item := contended_do_store_item;
  add_delta := λ c _ _ _, (ENGINE_ENOTSUP, None, c);
|}.

Definition contended_engine (script : list ENGINE_ERROR_CODE)
    : persistent_engine contended_t :=
  mk_engine (mk_cache ∅ (mk_contended script 0 1%positive) default_config)
    [] [] ∅ [] [].

(** ** persistent_engine.c: flush and statistics *)

Section Flush.
Context {A : Type}.

(** [item_flush_expired(engine, when)] of items.c, which is not in this tree;
    it works on the cache. *)
Variable item_flush_expired : cache A → Z → cache A.

(** [persistent_flush] *)
Definition persistent_flush (e : persistent_engine A) (when : Z)
    : ENGINE_ERROR_CODE * persistent_engine A :=
  (ENGINE_SUCCESS, set_store (item_flush_expired (store e) when) e).

End Flush.

(** [struct engine_stats], without its lock. *)
Record engine_stats := mk_stats {
  evictions : Z;
  curr_bytes : Z;
  curr_items : Z;
  total_items : Z;
  reclaimed : Z;
}.

(** One call [add_stat(key, klen, val, vlen, cookie)] of the host's
    callback. *)
Record stat := mk_stat {
  stat_name : string;
  stat_klen : Z;
  stat_val : list byte;
  stat_vlen : Z;
  stat_cookie : cookie;
}.

(** [strncmp(s1, s2, n) == 0] on C strings, given without the NUL that ends
    them: the first [n] bytes agree, or the strings end together before. *)
Fixpoint strncmp_eq (s1 s2 : string) (n : nat) : bool :=
  match n with
  | O => true
  | S n =>
      match s1, s2 with
      | EmptyString, EmptyString => true
      | String c1 s1, String c2 s2 =>
          if Ascii.eqb c1 c2 then strncmp_eq s1 s2 n else false
      | _, _ => false
      end
  end.

Section Stats.
Context {A : Type}.

(** What slabs.c and items.c, which are not in this tree, report to
    [add_stat] and reset: [slabs_stats], [item_stats], [item_stats_sizes] and
    [item_stats_reset], working on the cache. *)
Record stats_env := mk_stats_env {
  slabs_stats : cache A → cookie → list stat;
  item_stats : cache A → cookie → list stat;
  item_stats_sizes : cache A → cookie → list stat;
  item_stats_reset : cache A → cache A;
}.

Variable senv : stats_env.

(** [len = sprintf(val, "%llu", x); add_stat(name, klen, val, len, cookie);] *)
Definition add_llu (name : string) (klen : Z) (x : Z) (cookie : cookie) : stat :=
  mk_stat name klen (decimal x) (size (decimal x)) cookie.

(** [persistent_get_stats(handle, cookie, stat_key, nkey, add_stat)]: the
    result and the calls of [add_stat], in their order.  A NULL [stat_key] is
    [None]. *)
Definition persistent_get_stats (c : cache A) (stats : engine_stats)
    (cookie : cookie) (stat_key : option string) (nkey : Z)
    : ENGINE_ERROR_CODE * list stat :=
  match stat_key with
  | None =>
      (ENGINE_SUCCESS,
       [add_llu "evictions" 9 (evictions stats) cookie;
        add_llu "curr_items" 10 (curr_items stats) cookie;
        add_llu "total_items" 11 (total_items stats) cookie;
        add_llu "bytes" 5 (curr_bytes stats) cookie])
  | Some k =>
      if strncmp_eq k "slabs" 5 then (ENGINE_SUCCESS, slabs_stats senv c cookie)
      else if strncmp_eq k "items" 5 then (ENGINE_SUCCESS, item_stats senv c cookie)
      else if strncmp_eq k "sizes" 5
      then (ENGINE_SUCCESS, item_stats_sizes senv c cookie)
      else (ENGINE_KEY_ENOENT, [])
  end.

(** [persistent_reset_stats] *)
Definition persistent_reset_stats (c : cache A) (stats : engine_stats)
    : cache A * engine_stats :=
  (item_stats_reset senv c,
   mk_stats 0 (curr_bytes stats) (curr_items stats) 0 (reclaimed stats)).

End Stats.

(** ** sqlite.cc: the results of [sqlite3_step] *)

(** Result codes of sqlite3.h. *)
Definition SQLITE_BUSY : Z := 5.
Definition SQLITE_CONSTRAINT : Z := 19.
Definition SQLITE_ROW : Z := 100.
Definition SQLITE_DONE : Z := 101.

(** The loop of [SQLiteWriter::storeItem] over the results that the calls of
    [sqlite3_step] give, one a turn:
    [do { retry = false;
          switch ((rc = sqlite3_step(statement))) {
          case SQLITE_CONSTRAINT: success = false; break;
          case SQLITE_DONE: break;
          default: retry = true; }
     } while (retry);]
    The result is [success] and the number of turns; [None] when the results
    given are used up and the loop still runs. *)
Fixpoint storeItem_loop (rcs : list Z) (success : bool) : option (bool * nat) :=
  match rcs with
  | [] => None
  | rc :: rcs =>
      if decide (rc = SQLITE_CONSTRAINT) then Some (false, 1%nat)
      else if decide (rc = SQLITE_DONE) then Some (success, 1%nat)
      else '(success, turns) ← storeItem_loop rcs success; Some (success, S turns)
  end.

Section Steps.
Context {A : Type} `{ItemsLayer A}.
Implicit Types (e : persistent_engine A).

(** [SQLiteWriter::storeItem] on these results.  sqlite has executed the
    INSERT OR REPLACE when a step answers SQLITE_DONE, and has changed nothing
    when it answers anything else; [success] is not returned to the caller. *)
Definition SQLiteWriter_storeItem_on e (it : item_ptr) (rcs : list Z)
    : option (persistent_engine A) :=
  '(success, turns) ← storeItem_loop rcs true;
  Some (if (success : bool) then SQLiteWriter_storeItem e it else e).

(** The second half of a turn of [SQLiteWriter::run] on these results:
    [storeItem(item); engine->engine.release(item);] *)
Definition writer_persist_on e (item : item_ptr) (rcs : list Z)
    : option (persistent_engine A) :=
  e ← SQLiteWriter_storeItem_on e item rcs;
  Some (persistent_item_release e item).



(** The columns of a row of [SELECT flags, exptime, hash, value]. *)
Definition reader_columns (r : row) : list column :=
  [Integer (row_flags r); Integer (row_exptime r); Integer (row_hash r);
   Blob (row_value r)].

(** The columns of a row of [SELECT key, flags, exptime, hash, value]. *)
Definition warmup_columns (key : string) (r : row) : list column :=
  Text key :: reader_columns r.

(** [SQLiteCacheWarmup::run] over the results of its calls of [sqlite3_step],
    each with the columns of its row: a row is made an item, any other result
    ends the loop.  When the results given are used up the loop still runs;
    the engine is given as it stands then. *)
Fixpoint SQLiteCacheWarmup_run e (steps : list (Z * list column))
    : persistent_engine A :=
  match steps with
  | [] => e
  | (rc, cols) :: steps =>
      if decide (rc = SQLITE_ROW) then
        let key := string_of_list_byte (sqlite3_column_text cols 0) in
        SQLiteCacheWarmup_run (createItem e cols key 2).2 steps
      else e
  end.

(** The results of the steps of a warm-up whose SELECT yields [rows]. *)
Definition warmup_steps (rows : list (string * row)) : list (Z * list column) :=
  map (λ kr, (SQLITE_ROW, warmup_columns kr.1 kr.2)) rows.

End Steps.

(** ** sqlite.cc: opening the database and starting the threads *)

Definition SQLITE_OK : Z := 0.

(** What sqlite answers to the calls of one [initialize]: [sqlite3_open],
    [sqlite3_prepare_v2] for CREATE TABLE, the calls of [sqlite3_step] on that
    statement, one a turn, and [sqlite3_prepare_v2] for the statement of the
    worker. *)
Record sqlite_answers := mk_answers {
  open_rc : Z;
  prepare_table_rc : Z;
  step_rcs : list Z;
  prepare_statement_rc : Z;
}.

(** The members of [class SQLite] and of its subclasses that [initialize]
    sets: [db != NULL], and the text of the prepared [statement], if one is
    prepared. *)
Record SQLite := mk_SQLite {
  db : bool;
  statement : option string;
}.

(** The loop of [SQLite::initialize],
    [while ((rc = sqlite3_step(st)) != SQLITE_DONE) {;}]: the number of
    steps; [None] when the results given are used up and the loop still
    runs. *)
Fixpoint create_table_loop (rcs : list Z) : option nat :=
  match rcs with
  | [] => None
  | rc :: rcs =>
      if decide (rc ≠ SQLITE_DONE) then S <$> create_table_loop rcs
      else Some 1%nat
  end.

(** [SQLite::initialize(dbname)]: the result and the object after; [None]
    when it has not returned. *)
Definition SQLite_initialize (a : sqlite_answers) : option (bool * SQLite) :=
  if decide (open_rc a ≠ SQLITE_OK) then Some (false, mk_SQLite false None)
  else if decide (prepare_table_rc a ≠ SQLITE_OK)
  then Some (false, mk_SQLite true None)
  else _ ← create_table_loop (step_rcs a); Some (true, mk_SQLite true None).

(** The body that [SQLiteWriter::initialize], [SQLiteReader::initialize] and
    [SQLiteCacheWarmup::initialize] share; they differ in [query]. *)
Definition initialize_with (query : string) (a : sqlite_answers)
    : option (bool * SQLite) :=
  '(ok, this) ← SQLite_initialize a;
  if negb ok then Some (false, this)
  else if decide (prepare_statement_rc a ≠ SQLITE_OK) then Some (false, this)
  else Some (true, mk_SQLite (db this) (Some query)).

Definition SQLiteWriter_initialize : sqlite_answers → option (bool * SQLite) :=
  initialize_with
    "INSERT OR REPLACE INTO kv (key, flags, exptime, hash, value) values (?, ?, ?, ?, ?)".

Definition SQLiteReader_initialize : sqlite_answers → option (bool * SQLite) :=
  initialize_with "SELECT flags, exptime, hash, value FROM kv where key = ?".

Definition SQLiteCacheWarmup_initialize
    : sqlite_answers → option (bool * SQLite) :=
  initialize_with "SELECT key, flags, exptime, hash, value FROM kv".

(** The three objects that [sqlite_io_start_threads] creates. *)
Inductive worker := Reader | Writer | Warmup.

(** What sqlite answers to each of them for a database name, and what
    [pthread_create] returns for its thread. *)
Record io_env := mk_io_env {
  sqlite : worker → string → sqlite_answers;
  pthread_create : worker → Z;
}.

(** What [sqlite_io_start_threads] leaves behind: [engine->reader],
    [engine->writer] (NULL is [None]) and the threads created, in their
    order, each with the object it runs on. *)
Record io_threads := mk_io_threads {
  engine_reader : option SQLite;
  engine_writer : option SQLite;
  threads : list (worker * SQLite);
}.

(** [sqlite_io_start_threads] on these answers; [None] when it has not
    returned. *)
Definition sqlite_io_start_threads_on (env : io_env) (config : config)
    : option (ENGINE_ERROR_CODE * io_threads) :=
  '(ok, reader) ← SQLiteReader_initialize (sqlite env Reader (dbname config));
  if negb ok then Some (ENGINE_FAILED, mk_io_threads None None [])
  else
    '(ok, writer) ← SQLiteWriter_initialize (sqlite env Writer (dbname config));
    if negb ok then Some (ENGINE_FAILED, mk_io_threads None None [])
    else
      let started := mk_io_threads (Some reader) (Some writer) in
      if decide (pthread_create env Reader ≠ 0)
      then Some (ENGINE_FAILED, started [])
      else if decide (pthread_create env Writer ≠ 0)
      then Some (ENGINE_FAILED, started [(Reader, reader)])
      else if warmup config then
        '(_, cache_warmup) ←
          SQLiteCacheWarmup_initialize (sqlite env Warmup (dbname config));
        Some (ENGINE_SUCCESS,
              started ([(Reader, reader); (Writer, writer)]
                       ++ if decide (pthread_create env Warmup = 0)
                          then [(Warmup, cache_warmup)] else []))
      else Some (ENGINE_SUCCESS, started [(Reader, reader); (Writer, writer)]).

(** sqlite opens the database and compiles CREATE TABLE: [initialize] enters
    its loop. *)
Definition enters_loop (a : sqlite_answers) : Prop :=
  open_rc a = SQLITE_OK ∧ prepare_table_rc a = SQLITE_OK.

(** The loop gets its SQLITE_DONE and the worker's statement compiles as
    well: [initialize] returns true. *)
Definition comes_up (a : sqlite_answers) : Prop :=
  enters_loop a ∧ SQLITE_DONE ∈ step_rcs a ∧ prepare_statement_rc a = SQLITE_OK.

(** An engine whose item memory holds an item "k" with flags 5, expiry time
    9 and data "hi" at address 1. *)
Definition engine_k_5_9 : persistent_engine tables_t :=
  let '(_, _, e) := persistent_item_allocate (fresh_engine 4) "k" 2 5 9 in
  update_item e 1%positive (memcpy_data (bytes "hi")).

(** An engine whose item memory holds an item "k" with flags 5, the largest
    expiry time of a [uint32_t] and data "hi" at address 1. *)
Definition engine_k_5_max : persistent_engine tables_t :=
  let '(_, _, e) := persistent_item_allocate (fresh_engine 4) "k" 2 5 4294967295 in
  update_item e 1%positive (memcpy_data (bytes "hi")).

(** An engine with an empty cache and the table that the writer leaves when
    it has stored the item of [engine_k_5_9]. *)
Definition engine_restarted : persistent_engine tables_t :=
  mk_engine (store (fresh_engine 4)) [] []
    (kv (SQLiteWriter_storeItem engine_k_5_9 1%positive)) [] [].

(** An engine in which a caller has stored an item "k" with flags 5, expiry
    time 9 and data "hi" and has released it, and the writer has written its
    row. *)
Definition engine_stored_k : persistent_engine tables_t :=
  let '(_, _, e) := persistent_item_allocate (fresh_engine 4) "k" 2 5 9 in
  let e := update_item e 1%positive (memcpy_data (bytes "hi")) in
  let '(_, _, e) := persistent_store e 1%positive OPERATION_SET in
  SQLiteWriter_run 1 (persistent_item_release e 1%positive).


(** Another process holds the lock of the database: sqlite opens it, compiles
    the statements and answers SQLITE_BUSY to each of [steps] steps. *)
Definition io_env_busy (steps : nat) : io_env :=
  mk_io_env
    (λ _ _, mk_answers SQLITE_OK SQLITE_OK (replicate steps SQLITE_BUSY)
              SQLITE_OK)
    (λ _, 0).

Definition SQLITE_CANTOPEN : Z := 14.

(** sqlite serves the reader and the writer and cannot open the database a
    third time, for the warm-up; every thread is created. *)
Definition io_env_no_warmup : io_env :=
  mk_io_env
    (λ w _, mk_answers (if w is Warmup then SQLITE_CANTOPEN else SQLITE_OK)
              SQLITE_OK [SQLITE_DONE] SQLITE_OK)
    (λ _, 0).

(** The configuration after [warmup=true]. *)
Definition with_warmup (c : config) : config :=
  mk_config (use_cas c) (verbose c) (oldest_live c) (evict_to_free c)
    (maxbytes c) (preallocate c) (factor c) (chunk_size c) (item_size_max c)
    true (dbname c).

(** The item layer counts references: a release takes one reference from its
    item and leaves the item allocated while another reference is held; it
    touches no other item. *)
Class ReleaseCounts (A : Type) `{ItemsLayer A} := {
  release_counts : ∀ (c : cache A) (p q : item_ptr) (it : hash_item),
    mem c !! q = Some it → (p = q → (2 ≤ refcount it)%nat) →
    ∃ it', mem (item_release c p) !! q = Some it' ∧
           refcount it' = if decide (p = q) then pred (refcount it)
                          else refcount it;
}.

End Persistent.

(** * Properties *)

(** ** The STL engine *)

Section STL_Properties.
Import STL STLSpec.

Variable max_size : Z.
Hypothesis max_size_below_npos : 0 <= max_size < SIZE_MAX - 1.

Local Abbreviation fits := (STL.fits max_size).

Lemma size_sub_no_wrap (n : Z) :
  2 <= n <= max_size → size_sub n 2 = n - 2.
Proof.
  intros Hn. unfold size_sub, SIZE_MAX in *.
  apply Z.mod_small. lia.
Qed.

Lemma size_sub_wraps (n : Z) :
  0 <= n < 2 → size_sub n 2 = 2 ^ 64 - 2 + n.
Proof.
  intros Hn. unfold size_sub.
  assert (n = 0 ∨ n = 1) as [-> | ->] by lia; reflexivity.
Qed.

Lemma resize_shrinks (v : list byte) :
  2 <= size v → fits v →
  resize max_size (size_sub (size v) 2) v = Return (trim_terminator v).
Proof.
  intros Hlen Hfit. unfold STL.fits in Hfit.
  rewrite size_sub_no_wrap by lia.
  unfold resize, trim_terminator, size in *.
  destruct (Z.ltb_spec max_size (Z.of_nat (length v) - 2)) as [Hlt | _]; [lia |].
  replace (Z.to_nat (Z.of_nat (length v) - 2)) with (length v - 2)%nat by lia.
  replace (length v - 2 - length v)%nat with 0%nat by lia.
  simpl. by rewrite app_nil_r.
Qed.

Lemma resize_throws (v : list byte) :
  size v < 2 → resize max_size (size_sub (size v) 2) v = Throw_length_error.
Proof.
  intros Hlen.
  rewrite size_sub_wraps by (unfold size in *; lia).
  unfold resize, SIZE_MAX, size in *.
  destruct (Z.ltb_spec max_size (2 ^ 64 - 2 + Z.of_nat (length v))); [done | lia].
Qed.

Lemma append_ok (this other : Item) :
  2 <= size (value other) → fits (value other) →
  append max_size this other
  = Return (set_value this (appended (value other) (value this))).
Proof. intros. unfold append. by rewrite resize_shrinks. Qed.

Lemma prepend_ok (this other : Item) :
  2 <= size (value this) → fits (value this) →
  prepend max_size this other
  = Return (set_value this (trim_terminator (value this) ++ value other)).
Proof. intros. unfold prepend. by rewrite resize_shrinks. Qed.

Lemma append_throws (this other : Item) :
  size (value other) < 2 → append max_size this other = Throw_length_error.
Proof. intros. unfold append. by rewrite resize_throws. Qed.

Lemma prepend_throws (this other : Item) :
  size (value this) < 2 → prepend max_size this other = Throw_length_error.
Proof. intros. unfold prepend. by rewrite resize_throws. Qed.

(** C6, as the code has it: the return code of [Store] is the one the
    specification lists (ADD on a present key NOT_STORED, REPLACE / APPEND /
    PREPEND on an absent key KEY_ENOENT, a nonzero CAS differing from the
    stored one KEY_EEXISTS, else SUCCESS), whenever the value that an APPEND
    or PREPEND shortens by two bytes has at least two bytes. *)
Theorem Store_result_as_listed (cache : gmap string Item) (it : Item)
    (op : ENGINE_STORE_OPERATION) :
  (∀ v, trimmed_by cache it op = Some v → 2 <= size v ∧ fits v) →
  ∃ r, Store max_size cache it op = Return r ∧
       code r = store_result (cas <$> cache !! key it) (cas it) op.
Proof.
  intros Hpre. unfold Store, trimmed_by, store_result in *.
  destruct (cache !! key it) as [second|] eqn:Hk; simpl.
  - destruct (decide (op = OPERATION_ADD)) as [-> | Hadd]; [eauto |].
    destruct (decide (cas it ≠ 0 ∧ cas it ≠ cas second)).
    { destruct op; try done; eauto. }
    destruct op; try done; simpl.
    + eauto.
    + eauto.
    + destruct (Hpre _ eq_refl). rewrite append_ok by done. simpl. eauto.
    + destruct (Hpre _ eq_refl). rewrite prepend_ok by done. simpl. eauto.
    + eauto.
  - destruct op; eauto.
Qed.

(** C8, as the code has it: a successful APPEND stores the existing value
    without its last two bytes followed by the new value; a successful PREPEND
    stores the NEW value without its last two bytes followed by the whole
    existing value. *)
Theorem Store_concatenation (cache : gmap string Item) (it second : Item)
    (op : ENGINE_STORE_OPERATION) (r : stored) :
  fits (value it) → fits (value second) →
  cache !! key it = Some second →
  Store max_size cache it op = Return r →
  code r = ENGINE_SUCCESS →
  (op = OPERATION_APPEND →
     value <$> cache_after r !! key it
     = Some (appended (value second) (value it))) ∧
  (op = OPERATION_PREPEND →
     value <$> cache_after r !! key it
     = Some (trim_terminator (value it) ++ value second)).
Proof.
  intros Hit Hsecond Hk HStore Hcode. unfold Store in HStore. rewrite Hk in HStore.
  split; intros ->; simpl in HStore.
  - destruct (decide (cas it ≠ 0 ∧ cas it ≠ cas second));
      [injection HStore as <-; done |].
    destruct (Z_lt_le_dec (size (value second)) 2) as [Hshort | Hlong].
    { by rewrite append_throws in HStore. }
    rewrite append_ok in HStore by done. simpl in HStore.
    injection HStore as <-. simpl. by rewrite lookup_insert_eq.
  - destruct (decide (cas it ≠ 0 ∧ cas it ≠ cas second));
      [injection HStore as <-; done |].
    destruct (Z_lt_le_dec (size (value it)) 2) as [Hshort | Hlong].
    { by rewrite prepend_throws in HStore. }
    rewrite prepend_ok in HStore by done. simpl in HStore.
    injection HStore as <-. simpl. by rewrite lookup_insert_eq.
Qed.

(** C10: the subtraction [length() - 2] wraps around exactly when the value
    being shortened (the cached one for APPEND, the caller's for PREPEND) has
    fewer than two bytes; [Store] has no guard for it and leaves by
    [length_error]; with at least two bytes nothing wraps and [Store] returns
    ENGINE_SUCCESS. *)
Theorem trim_needs_two_bytes (cache : gmap string Item) (it second : Item)
    (op : ENGINE_STORE_OPERATION) (v : list byte) :
  cache !! key it = Some second →
  ¬ (cas it ≠ 0 ∧ cas it ≠ cas second) →
  trimmed_by cache it op = Some v →
  fits v →
  (size v < 2 →
     size_sub (size v) 2 = 2 ^ 64 - 2 + size v ∧
     max_size < size_sub (size v) 2 ∧
     Store max_size cache it op = Throw_length_error) ∧
  (2 <= size v →
     size_sub (size v) 2 = size v - 2 ∧
     ∃ r, Store max_size cache it op = Return r ∧ code r = ENGINE_SUCCESS).
Proof.
  intros Hk Hcas Htrim Hfit. unfold trimmed_by in Htrim. rewrite Hk in Htrim.
  assert (0 <= size v) by (unfold size; lia).
  split; intros Hlen.
  - rewrite size_sub_wraps by lia. split; [done |].
    split; [unfold SIZE_MAX in *; lia |].
    unfold Store. rewrite Hk.
    destruct op; try done; simpl; injection Htrim as <-;
      (destruct (decide (cas it ≠ 0 ∧ cas it ≠ cas second)); [done |]).
    + by rewrite append_throws.
    + by rewrite prepend_throws.
  - unfold STL.fits in Hfit. rewrite size_sub_no_wrap by lia. split; [done |].
    unfold Store. rewrite Hk.
    destruct op; try done; simpl; injection Htrim as <-;
      (destruct (decide (cas it ≠ 0 ∧ cas it ≠ cas second)); [done |]).
    + rewrite append_ok by done. simpl. eauto.
    + rewrite prepend_ok by done. simpl. eauto.
Qed.

End STL_Properties.

(** *** Concrete calls of the STL engine *)

Section STL_Examples.
Import STL STLSpec.

(** A PREPEND of "ab\r\n" before a cached "cd\r\n" stores "abcd\r\n". *)
Example Store_prepend_ab_cd :
  ∃ r, Store libstdcxx_max_size {[ "k" := item_k (bytes "cd" ++ CRLF) 0 ]}
         (item_k (bytes "ab" ++ CRLF) 0) OPERATION_PREPEND = Return r ∧
       code r = ENGINE_SUCCESS ∧
       value <$> cache_after r !! "k" = Some (bytes "abcd" ++ CRLF).
Proof. eexists. split; [vm_compute; reflexivity |]. split; reflexivity. Qed.

(** C6, counterexample: an APPEND to a cached empty value passes every check
    of the list and yet does not succeed: [Store] leaves by [length_error]. *)
Lemma Store_append_short_value_not_listed :
  let cache : gmap string Item := {[ "k" := item_k [] 0 ]} in
  let it := item_k (bytes "x") 0 in
  store_result (cas <$> cache !! key it) (cas it) OPERATION_APPEND
    = ENGINE_SUCCESS ∧
  ¬ ∃ r, Store libstdcxx_max_size cache it OPERATION_APPEND = Return r ∧
         code r = store_result (cas <$> cache !! key it) (cas it) OPERATION_APPEND.
Proof.
  split; [vm_compute; reflexivity |].
  intros [r [HStore _]]. vm_compute in HStore. discriminate.
Qed.

Lemma Store_result_as_listed_witness :
  ∃ r, Store libstdcxx_max_size {[ "k" := item_k (bytes "cd" ++ CRLF) 7 ]}
         (item_k (bytes "ab" ++ CRLF) 7) OPERATION_APPEND = Return r ∧
       code r = ENGINE_SUCCESS.
Proof.
  apply (Store_result_as_listed libstdcxx_max_size).
  - vm_compute. split; [intros H | split; intros H]; discriminate H.
  - intros v Hv. vm_compute in Hv. injection Hv as <-.
    vm_compute. split; intros H; discriminate H.
Defined.

(** C8, counterexample: the PREPEND above does not store the new value
    followed by the trimmed existing one. *)
Lemma Store_prepend_trims_new_value :
  ∃ r, Store libstdcxx_max_size {[ "k" := item_k (bytes "cd" ++ CRLF) 0 ]}
         (item_k (bytes "ab" ++ CRLF) 0) OPERATION_PREPEND = Return r ∧
       code r = ENGINE_SUCCESS ∧
       value <$> cache_after r !! "k"
       ≠ Some (prepended (bytes "cd" ++ CRLF) (bytes "ab" ++ CRLF)).
Proof.
  eexists. split; [vm_compute; reflexivity |]. split; [reflexivity |].
  vm_compute. discriminate.
Qed.

Lemma Store_concatenation_witness :
  value <$> ({[ "k" := item_k (bytes "abcd" ++ CRLF) 0 ]} : gmap string Item) !! "k"
  = Some (trim_terminator (bytes "ab" ++ CRLF) ++ (bytes "cd" ++ CRLF)).
Proof.
  refine (proj2 (Store_concatenation libstdcxx_max_size _
                   {[ "k" := item_k (bytes "cd" ++ CRLF) 0 ]}
                   (item_k (bytes "ab" ++ CRLF) 0)
                   (item_k (bytes "cd" ++ CRLF) 0) OPERATION_PREPEND
                   (mkStored ENGINE_SUCCESS
                      {[ "k" := item_k (bytes "abcd" ++ CRLF) 0 ]}
                      (item_k (bytes "abcd" ++ CRLF) 0) (Some 0))
                   _ _ _ _ _) eq_refl).
  - vm_compute. split; [intros H | split; intros H]; discriminate H.
  - vm_compute. intros H; discriminate H.
  - vm_compute. intros H; discriminate H.
  - reflexivity.
  - vm_compute. reflexivity.
  - reflexivity.
Defined.

Lemma trim_needs_two_bytes_witness :
  Store libstdcxx_max_size {[ "k" := item_k (bytes "c") 0 ]}
    (item_k (bytes "ab" ++ CRLF) 0) OPERATION_APPEND = Throw_length_error.
Proof.
  refine (proj2 (proj2 (proj1 (trim_needs_two_bytes libstdcxx_max_size _
            {[ "k" := item_k (bytes "c") 0 ]} (item_k (bytes "ab" ++ CRLF) 0)
            (item_k (bytes "c") 0) OPERATION_APPEND (bytes "c") _ _ _ _) _))).
  - vm_compute. split; [intros H | split; intros H]; discriminate H.
  - reflexivity.
  - intros [H _]. apply H. reflexivity.
  - reflexivity.
  - vm_compute. intros H; discriminate H.
  - reflexivity.
Defined.

End STL_Examples.

(** ** [std::map] *)

Section StdMap_Properties.
Import StdMap.

#[global] Instance string_strict_cmp : StrictCmp string.
Proof.
  split; unfold cmp, string_cmp.
  - intros x y. destruct (String_as_OT.compare_spec x y) as [Heq | Hlt | Hgt].
    + done.
    + split; [done | intros ->].
      by apply (StrictOrder_Irreflexive (R := String_as_OT.lt)) in Hlt.
    + split; [done | intros ->].
      by apply (StrictOrder_Irreflexive (R := String_as_OT.lt)) in Hgt.
  - intros x y.
    pose proof (StrictOrder_Irreflexive (R := String_as_OT.lt)) as Hirr.
    pose proof (StrictOrder_Transitive (R := String_as_OT.lt)) as Htr.
    destruct (String_as_OT.compare_spec x y) as [Heq | Hlt | Hgt];
      destruct (String_as_OT.compare_spec y x) as [Heq' | Hlt' | Hgt'];
      simpl; try reflexivity; exfalso;
      unfold String_as_OT.eq in *; subst;
      first [ by eapply Hirr | by eapply Hirr, Htr ].
  - intros x y z Hxy Hyz.
    exact (StrictOrder_Transitive (R := String_as_OT.lt) x y z Hxy Hyz).
Qed.

#[global] Instance Z_strict_cmp : StrictCmp Z.
Proof.
  split; unfold cmp, Z_cmp.
  - apply Z.compare_eq_iff.
  - intros x y. apply Z.compare_antisym.
  - intros x y z. rewrite !Z.compare_lt_iff. lia.
Qed.

Context {K V : Type} `{StrictCmp K}.
Implicit Types (k : K) (v : V) (m : list (K * V)).

Lemma cmp_refl k : cmp k k = Eq.
Proof. by apply cmp_eq. Qed.

Lemma cmp_Gt_Lt k k' : cmp k k' = Gt → cmp k' k = Lt.
Proof. intros E. by rewrite cmp_antisym, E. Qed.

Lemma cmp_Lt_Gt k k' : cmp k k' = Lt → cmp k' k = Gt.
Proof. intros E. by rewrite cmp_antisym, E. Qed.

Lemma cmp_Lt_ne k k' : cmp k k' = Lt → k ≠ k'.
Proof. intros E ->. by rewrite cmp_refl in E. Qed.

Lemma find_insert_eq k v m : find k (insert k v m) = Some v.
Proof.
  induction m as [| [k' v'] m IH]; simpl.
  - by rewrite cmp_refl.
  - destruct (cmp k k') eqn:E; simpl; by rewrite ?cmp_refl, ?E.
Qed.

Lemma find_insert_ne k k' v m : k ≠ k' → find k' (insert k v m) = find k' m.
Proof.
  intros Hne. induction m as [| [k0 v0] m IH]; simpl.
  - destruct (cmp k' k) eqn:E; try done. apply cmp_eq in E. congruence.
  - destruct (cmp k k0) eqn:E; simpl.
    + apply cmp_eq in E as <-.
      destruct (cmp k' k) eqn:E'; try done. apply cmp_eq in E'. congruence.
    + destruct (cmp k' k) eqn:E'; try done.
      * apply cmp_eq in E'. congruence.
      * by rewrite (cmp_trans _ _ _ E' E).
    + by destruct (cmp k' k0).
Qed.

Lemma find_below k m : Forall (lt k) (keys m) → find k m = None.
Proof.
  destruct m as [| [k' v'] m]; [done |]. simpl.
  intros Hall. apply Forall_cons in Hall as [Hlt _]. unfold lt in Hlt.
  by rewrite Hlt.
Qed.

Lemma sorted_cons k v m :
  sorted ((k, v) :: m) ↔ sorted m ∧ Forall (lt k) (keys m).
Proof.
  unfold sorted. simpl. split.
  - intros Hs. by apply StronglySorted_inv in Hs.
  - intros [Hs Hall]. by constructor.
Qed.

Lemma sorted_erase_begin m : sorted m → sorted (erase_begin m).
Proof.
  destruct m as [| [k v] m]; [done |]. simpl. rewrite sorted_cons. tauto.
Qed.

Lemma Forall_keys_insert (P : K → Prop) k v m :
  P k → Forall P (keys m) → Forall P (keys (insert k v m)).
Proof.
  intros Hk. induction m as [| [k' v'] m IH]; simpl; intros Hall.
  - by constructor.
  - apply Forall_cons in Hall as [Hk' Hall].
    destruct (cmp k k'); simpl; repeat constructor; auto.
Qed.

Lemma Forall_keys_erase (P : K → Prop) k m :
  Forall P (keys m) → Forall P (keys (erase k m)).
Proof.
  induction m as [| [k' v'] m IH]; simpl; intros Hall; [done |].
  apply Forall_cons in Hall as [Hk' Hall].
  destruct (cmp k k'); simpl; repeat constructor; auto.
Qed.

Lemma Forall_lt_trans k k' m :
  lt k k' → Forall (lt k') (keys m) → Forall (lt k) (keys m).
Proof.
  intros Hlt Hall. eapply Forall_impl; [exact Hall |].
  intros k0 Hk0. exact (cmp_trans _ _ _ Hlt Hk0).
Qed.

Lemma sorted_insert k v m : sorted m → sorted (insert k v m).
Proof.
  induction m as [| [k' v'] m IH]; simpl; intros Hs.
  - apply sorted_cons. split; constructor.
  - apply sorted_cons in Hs as [Hs Hall].
    destruct (cmp k k') eqn:E.
    + apply cmp_eq in E as ->. by apply sorted_cons.
    + apply sorted_cons. split.
      * by apply sorted_cons.
      * simpl. constructor; [done |]. by apply Forall_lt_trans with k'.
    + apply sorted_cons. split; [auto |].
      apply Forall_keys_insert; [| done]. by apply cmp_Gt_Lt.
Qed.

Lemma sorted_erase k m : sorted m → sorted (erase k m).
Proof.
  induction m as [| [k' v'] m IH]; simpl; intros Hs; [done |].
  pose proof Hs as Hs'. apply sorted_cons in Hs' as [Hm Hall].
  destruct (cmp k k'); try done.
  apply sorted_cons. split; [auto |]. by apply Forall_keys_erase.
Qed.

Lemma find_erase_eq k m : sorted m → find k (erase k m) = None.
Proof.
  induction m as [| [k' v'] m IH]; simpl; intros Hs; [done |].
  apply sorted_cons in Hs as [Hm Hall].
  destruct (cmp k k') eqn:E; simpl.
  - apply cmp_eq in E as ->. by apply find_below.
  - by rewrite E.
  - rewrite E. auto.
Qed.

Lemma find_erase_ne k k' m : sorted m → k ≠ k' → find k' (erase k m) = find k' m.
Proof.
  intros Hs Hne. induction m as [| [k0 v0] m IH]; simpl; [done |].
  apply sorted_cons in Hs as [Hm Hall].
  destruct (cmp k k0) eqn:E; simpl; try done.
  - apply cmp_eq in E as <-.
    destruct (cmp k' k) eqn:E'.
    + apply cmp_eq in E'. congruence.
    + apply find_below. by apply Forall_lt_trans with k.
    + done.
  - destruct (cmp k' k0); auto.
Qed.

Lemma erase_absent k m : sorted m → find k m = None → erase k m = m.
Proof.
  induction m as [| [k' v'] m IH]; simpl; intros Hs Hfind; [done |].
  apply sorted_cons in Hs as [Hm Hall].
  destruct (cmp k k'); try done. f_equal. auto.
Qed.

Lemma insert_erase k v m : sorted m → insert k v (erase k m) = insert k v m.
Proof.
  induction m as [| [k' v'] m IH]; simpl; intros Hs; [done |].
  apply sorted_cons in Hs as [Hm Hall].
  destruct (cmp k k') eqn:E; simpl.
  - apply cmp_eq in E as ->.
    destruct m as [| [k0 v0] m]; [done |]. simpl in *.
    apply Forall_cons in Hall as [Hlt _]. unfold lt in Hlt. by rewrite Hlt.
  - by rewrite E.
  - rewrite E. f_equal. auto.
Qed.

Lemma length_insert_present k v v' m :
  find k m = Some v' → length (insert k v m) = length m.
Proof.
  induction m as [| [k0 v0] m IH]; simpl; [done |].
  destruct (cmp k k0); simpl; try done. intros Hf. f_equal. auto.
Qed.

Lemma length_insert_absent k v m :
  find k m = None → length (insert k v m) = S (length m).
Proof.
  induction m as [| [k0 v0] m IH]; simpl; [done |].
  destruct (cmp k k0); simpl; try done. intros Hf. f_equal. auto.
Qed.

Lemma sorted_NoDup m : sorted m → NoDup (keys m).
Proof.
  induction m as [| [k v] m IH]; simpl; intros Hs; [constructor |].
  apply sorted_cons in Hs as [Hm Hall]. constructor; [| auto].
  intros Hin. rewrite Forall_forall in Hall.
  apply Hall in Hin. unfold lt in Hin. by rewrite cmp_refl in Hin.
Qed.

Lemma find_tail k k0 v0 m :
  sorted ((k0, v0) :: m) → k ≠ k0 → find k m = find k ((k0, v0) :: m).
Proof.
  intros Hs Hne. apply sorted_cons in Hs as [Hm Hall]. simpl.
  destruct (cmp k k0) eqn:E.
  - apply cmp_eq in E. congruence.
  - apply find_below. by apply Forall_lt_trans with k0.
  - done.
Qed.

Lemma find_elem_of k v m : find k m = Some v → (k, v) ∈ m.
Proof.
  induction m as [| [k0 v0] m IH]; simpl; [done |].
  destruct (cmp k k0) eqn:E; try done.
  - apply cmp_eq in E as ->. intros [= ->]. left.
  - intros Hf. right. auto.
Qed.

Lemma elem_of_find k v m : sorted m → (k, v) ∈ m → find k m = Some v.
Proof.
  induction m as [| [k0 v0] m IH]; intros Hs Hin.
  - by apply elem_of_nil in Hin.
  - apply sorted_cons in Hs as [Hm Hall]. simpl.
    apply elem_of_cons in Hin as [[= <- <-] | Hin].
    + by rewrite cmp_refl.
    + assert (lt k0 k) as Hlt.
      { rewrite Forall_forall in Hall. apply Hall.
        apply list_elem_of_In. apply in_map_iff. exists (k, v).
        split; [done |]. by apply list_elem_of_In. }
      by rewrite (cmp_Lt_Gt _ _ Hlt); auto.
Qed.

End StdMap_Properties.

(** ** The persistent engine: get, delete, initialisation *)

Section Get_Properties.
Import Persistent.
Context {A : Type} `{ItemsLayer A}.
Implicit Types (e : persistent_engine A) (c : cache A).

Lemma substring_whole (s : string) : substring 0 (String.length s) s = s.
Proof. induction s as [| a s IH]; simpl; [done | by rewrite IH]. Qed.

Lemma std_string_whole (key : string) :
  (String.length key ≤ 250)%nat →
  std_string key (uint16_t (Z.of_nat (String.length key))) = key.
Proof.
  intros Hlen. unfold std_string, uint16_t.
  rewrite Z.mod_small by lia. rewrite Nat2Z.id. apply substring_whole.
Qed.

(** C3: a [get] whose lookup hits returns the item with ENGINE_SUCCESS; one
    whose lookup misses returns ENGINE_EWOULDBLOCK and leaves the entry
    (cookie, key) in the read-through queue.  Keys are at most 250 bytes
    long. *)
Theorem persistent_get_hit_or_would_block e (cookie : cookie) (key : string) :
  (String.length key ≤ 250)%nat →
  (∀ it c, item_get (store e) key = (Some it, c) →
     persistent_get e cookie key = (ENGINE_SUCCESS, Some it, set_store c e)) ∧
  (∀ c, item_get (store e) key = (None, c) →
     ∃ e', persistent_get e cookie key = (ENGINE_EWOULDBLOCK, None, e') ∧
           StdMap.find cookie (reader_queue e') = Some key ∧
           (cookie, key) ∈ reader_queue e' ∧
           store e' = c).
Proof.
  intros Hlen. split.
  - intros it c Hget. unfold persistent_get. by rewrite Hget.
  - intros c Hget. unfold persistent_get. rewrite Hget.
    eexists. split; [done |].
    unfold sqlite_io_get_item, SQLiteReader_enqueue. simpl.
    rewrite std_string_whole by done.
    split; [apply find_insert_eq |].
    split; [| done].
    apply find_elem_of, find_insert_eq.
Qed.

End Get_Properties.

Section Delete_Properties.
Import Persistent.
Context {A : Type} `{ItemsLayer A}.
Implicit Types (e : persistent_engine A) (c : cache A).

Lemma persistent_item_delete_returns_success e (cookie : cookie)
    (key : string) (cas : Z) :
  (persistent_item_delete e cookie key cas).1 = ENGINE_SUCCESS.
Proof.
  unfold persistent_item_delete.
  destruct (persistent_get e cookie key) as [[[] [it |]] e']; done.
Qed.

Lemma persistent_item_delete_miss e (cookie : cookie) (key : string) (cas : Z) c :
  item_get (store e) key = (None, c) →
  persistent_item_delete e cookie key cas
  = (ENGINE_SUCCESS,
     sqlite_io_get_item (set_store c e) cookie key
       (uint16_t (Z.of_nat (String.length key)))).
Proof.
  intros Hget. unfold persistent_item_delete, persistent_get. by rewrite Hget.
Qed.

End Delete_Properties.

(** C4, the code at a key that is absent: the delete answers ENGINE_SUCCESS,
    not ENGINE_KEY_ENOENT, and leaves a read request for the key in the
    read-through queue. *)
Theorem persistent_item_delete_absent_key :
  let e := Persistent.fresh_engine 4 in
  Persistent.item_get (Persistent.store e) "k" = (None, Persistent.store e) ∧
  (Persistent.persistent_item_delete e 77 "k" 0).1 = ENGINE_SUCCESS ∧
  Persistent.reader_queue (Persistent.persistent_item_delete e 77 "k" 0).2
  = [(77, "k")].
Proof. vm_compute. done. Qed.

(** *** Initialisation *)

Section Initialize_Properties.
Import Persistent.
Context {A : Type}.

(** C9: whatever [parse_config] answers for the configuration string,
    [initalize_configuration] returns ENGINE_SUCCESS, and
    [persistent_initialize] goes on to the later stages: its result does not
    depend on that answer. *)
Theorem initalize_configuration_succeeds (env : init_env (A := A))
    (c : cache A) (cfg_str : option string) (ret : Z) :
  (initalize_configuration env (cfg c) cfg_str).1 = ENGINE_SUCCESS ∧
  persistent_initialize (with_parse_result env ret) c cfg_str
  = persistent_initialize env c cfg_str ∧
  ((persistent_initialize env c cfg_str).1 ≠ ENGINE_SUCCESS →
     let c' := (persistent_initialize env c cfg_str).2 in
     assoc_init env c' ≠ ENGINE_SUCCESS ∨ slabs_init env c' ≠ ENGINE_SUCCESS ∨
     sqlite_io_start_threads env c' ≠ ENGINE_SUCCESS).
Proof.
  split; [| split].
  - unfold initalize_configuration.
    destruct cfg_str as [str |]; [by destruct (parse_config env str (cfg c)) | done].
  - unfold persistent_initialize, initalize_configuration, with_parse_result.
    destruct cfg_str as [str |]; simpl; [| done].
    by destruct (parse_config env str (cfg c)).
  - unfold persistent_initialize.
    destruct (initalize_configuration env (cfg c) cfg_str) as [r config] eqn:Hcfg.
    assert (r = ENGINE_SUCCESS) as ->.
    { unfold initalize_configuration in Hcfg.
      destruct cfg_str as [str |];
        [destruct (parse_config env str (cfg c)) |]; by injection Hcfg as <-. }
    repeat case_decide; simpl; try done; auto.
Qed.

End Initialize_Properties.

(** ** The read-through worker *)

Section Reader_Properties.
Import Persistent.
Context {A : Type} `{ItemsLayer A}.
Implicit Types (e : persistent_engine A) (c : cache A).

Lemma same_io_refl e : same_io e e.
Proof. by repeat split. Qed.

Lemma same_io_trans e1 e2 e3 : same_io e1 e2 → same_io e2 e3 → same_io e1 e3.
Proof.
  intros (? & ? & ? & ? & ?) (? & ? & ? & ? & ?).
  repeat split; congruence.
Qed.

Lemma same_io_set_store e c : same_io e (set_store c e).
Proof. by repeat split. Qed.

Lemma persistent_item_allocate_same_io e key nbytes flags exptime :
  same_io e (persistent_item_allocate e key nbytes flags exptime).2.
Proof.
  unfold persistent_item_allocate. case_decide; [apply same_io_refl |].
  destruct (item_alloc _ _ _ _ _) as [[it |] c]; apply same_io_set_store.
Qed.

Lemma persistent_item_allocate_item e key nbytes flags exptime :
  (persistent_item_allocate e key nbytes flags exptime).1.1 = ENGINE_SUCCESS ↔
  is_Some (persistent_item_allocate e key nbytes flags exptime).1.2.
Proof.
  unfold persistent_item_allocate. case_decide; simpl.
  - split; [done | by intros [? ?]].
  - destruct (item_alloc _ _ _ _ _) as [[it |] c]; simpl.
    + split; [by eexists | done].
    + split; [done | by intros [? ?]].
Qed.

Lemma store_item_cache_only_same_io e item op :
  same_io e (store_item e item op false).2.
Proof.
  unfold store_item.
  destruct (do_store_item (store e) item op) as [[ret [it |]] c]; simpl;
    apply same_io_set_store.
Qed.

Lemma createItem_spec e cols key flagoffset :
  (createItem e cols key flagoffset).1
  = bool_decide
      ((persistent_item_allocate e key
          (sqlite3_column_bytes cols (flagoffset + 2))
          (sqlite3_column_int cols flagoffset)
          (sqlite3_column_int cols (flagoffset + 1))).1.1 = ENGINE_SUCCESS) ∧
  same_io e (createItem e cols key flagoffset).2.
Proof.
  unfold createItem.
  pose proof (persistent_item_allocate_same_io e key
    (sqlite3_column_bytes cols (flagoffset + 2))
    (sqlite3_column_int cols flagoffset)
    (sqlite3_column_int cols (flagoffset + 1))) as Hio.
  pose proof (persistent_item_allocate_item e key
    (sqlite3_column_bytes cols (flagoffset + 2))
    (sqlite3_column_int cols flagoffset)
    (sqlite3_column_int cols (flagoffset + 1))) as Hitem.
  destruct (persistent_item_allocate _ _ _ _ _) as [[r it] e1]. simpl in *.
  destruct (decide (r = ENGINE_SUCCESS)) as [-> | Hr].
  - destruct it as [itm |]; [| by destruct (proj1 Hitem eq_refl)].
    rewrite bool_decide_eq_true_2 by done.
    pose proof (store_item_cache_only_same_io
      (update_item e1 itm (memcpy_data (sqlite3_column_text cols (flagoffset + 2))))
      itm OPERATION_ADD) as Hst.
    destruct (store_item _ _ _ _) as [[r' cas] e2]. simpl in *.
    split; [done |].
    eapply same_io_trans; [exact Hio |].
    eapply same_io_trans; [| exact Hst]. apply same_io_set_store.
  - rewrite bool_decide_eq_false_2 by done.
    by destruct r, it.
Qed.

Lemma readItem_spec e key :
  (readItem e key).1 = found_and_allocated e key ∧
  same_io e (readItem e key).2.
Proof.
  unfold readItem, found_and_allocated.
  destruct (kv e !! key) as [r |]; [| split; [done | apply same_io_refl]].
  apply createItem_spec.
Qed.

Lemma reader_serve_spec e cookie key :
  reader_queue (reader_serve e cookie key) = reader_queue e ∧
  kv (reader_serve e cookie key) = kv e ∧
  io_complete (reader_serve e cookie key)
  = io_complete e ++
    [(cookie, if found_and_allocated e key then ENGINE_SUCCESS
              else ENGINE_KEY_ENOENT)].
Proof.
  unfold reader_serve.
  destruct (readItem_spec e key) as [Hres (Hr & _ & Hkv & _ & Hio)].
  destruct (readItem e key) as [success e1]. simpl in *.
  by rewrite Hr, Hkv, Hio, Hres.
Qed.

Lemma found_and_allocated_set_reader_queue e q key :
  found_and_allocated (set_reader_queue q e) key
  = found_and_allocated e key.
Proof.
  unfold found_and_allocated, persistent_item_allocate. simpl.
  destruct (kv e !! key) as [r |]; [| done].
  case_decide; [done |].
  by destruct (item_alloc _ _ _ _ _) as [[it |] c].
Qed.


(** *** The loop, turn by turn *)






End Reader_Properties.

(** ** The write-behind worker *)

Section Writer_Properties.
Import Persistent.
Context {A : Type} `{!ItemsLayer A, !ReleaseLaws A}.
Implicit Types (e : persistent_engine A) (c : cache A) (s : writer_system A).

Lemma latest_snoc (log : list (string * row)) (k : string) (r : row) :
  latest (log ++ [(k, r)]) = <[k := r]> (latest log).
Proof. unfold latest. by rewrite foldl_app. Qed.

Lemma frame_refl c : frame c c.
Proof. intros p it Hp. unfold entry_at. by rewrite Hp. Qed.

Lemma frame_release c0 c (p : item_ptr) :
  frame c0 c → frame c0 (item_release c p).
Proof.
  intros Hfr q it Hq. destruct (decide (p = q)) as [<- | Hne].
  - apply release_same in Hq as (it0 & Hp & <-). by apply Hfr.
  - rewrite release_other in Hq by done. by apply Hfr.
Qed.

Lemma frame_update c0 c (p : item_ptr) (f : hash_item → hash_item) :
  (∀ it, item_entry (f it) = item_entry it) →
  frame c0 c → frame c0 (set_mem (alter f p (mem c)) c).
Proof.
  intros Hf Hfr q it Hq. simpl in Hq.
  destruct (decide (p = q)) as [<- | Hne].
  - rewrite lookup_alter_eq in Hq. apply fmap_Some in Hq as (it0 & Hp & ->).
    rewrite Hf. by apply Hfr.
  - rewrite lookup_alter_ne in Hq by done. by apply Hfr.
Qed.

(** *** One enqueue *)

Lemma SQLiteWriter_enqueue_queue e (item : item_ptr) (it : hash_item) :
  StdMap.sorted (writer_queue e) →
  mem (store e) !! item = Some it →
  writer_queue (SQLiteWriter_enqueue e item)
  = StdMap.insert (key it) item (writer_queue e).
Proof.
  intros Hs Hit. unfold SQLiteWriter_enqueue. rewrite Hit. simpl.
  destruct (StdMap.find _ _); simpl; [by apply insert_erase | done].
Qed.

Lemma SQLiteWriter_enqueue_frame c0 e (item : item_ptr) :
  frame c0 (store e) → frame c0 (store (SQLiteWriter_enqueue e item)).
Proof.
  intros Hfr. unfold SQLiteWriter_enqueue.
  destruct (mem (store e) !! item) as [it |]; [| done]. simpl.
  destruct (StdMap.find _ _); simpl.
  - apply frame_release. by apply frame_update.
  - by apply frame_update.
Qed.

Lemma SQLiteWriter_enqueue_kv e (item : item_ptr) :
  kv (SQLiteWriter_enqueue e item) = kv e ∧
  kv_log (SQLiteWriter_enqueue e item) = kv_log e.
Proof.
  unfold SQLiteWriter_enqueue.
  destruct (mem (store e) !! item) as [it |]; [| done]. simpl.
  by destruct (StdMap.find _ _).
Qed.

(** Enqueueing an item whose key is queued puts it in the place of the queued
    one, which is released. *)
Lemma SQLiteWriter_enqueue_supersedes e (item second : item_ptr)
    (it : hash_item) :
  StdMap.sorted (writer_queue e) →
  mem (store e) !! item = Some it →
  StdMap.find (key it) (writer_queue e) = Some second →
  StdMap.find (key it) (writer_queue (SQLiteWriter_enqueue e item)) = Some item ∧
  length (writer_queue (SQLiteWriter_enqueue e item)) = length (writer_queue e) ∧
  store (SQLiteWriter_enqueue e item)
  = item_release
      (store (update_item e item (set_refcount (S (refcount it))))) second.
Proof.
  intros Hs Hit Hfind.
  rewrite (SQLiteWriter_enqueue_queue e item it Hs Hit).
  split; [apply find_insert_eq |].
  split; [by eapply length_insert_present |].
  unfold SQLiteWriter_enqueue. rewrite Hit. simpl.
  unfold item_get_key. by rewrite Hfind.
Qed.

(** *** The invariant *)

Lemma writer_inv_initial s :
  writer_queue (engine s) = [] → item_local s = None → enqueued s = [] →
  writer_inv (store (engine s)) s.
Proof.
  intros Hq Hl Hlog. split; rewrite ?Hq, ?Hl, ?Hlog; try done.
  - constructor.
  - apply frame_refl.
Qed.

Lemma writer_inv_step c0 s s' (ev : writer_event) :
  writer_inv c0 s → writer_step s ev = Some s' → writer_inv c0 s'.
Proof.
  intros [Hs Hfr Hq Hl Hlat] Hstep. destruct ev as [item | |]; simpl in Hstep.
  - (* a producer enqueues [item] *)
    destruct (mem (store (engine s)) !! item) as [it |] eqn:Hit;
      simpl in Hstep; [| done].
    injection Hstep as <-.
    assert (entry_at c0 item = Some (item_entry it)) as Hentry by by apply Hfr.
    split; simpl.
    + rewrite (SQLiteWriter_enqueue_queue _ _ it) by done. by apply sorted_insert.
    + by apply SQLiteWriter_enqueue_frame.
    + intros k p. rewrite (SQLiteWriter_enqueue_queue _ _ it) by done.
      destruct (decide (key it = k)) as [<- | Hne].
      * rewrite find_insert_eq. intros [= <-]. eexists. exact Hentry.
      * rewrite find_insert_ne by done. apply Hq.
    + done.
    + intros k r. unfold item_entry at 1. rewrite latest_snoc.
      rewrite (SQLiteWriter_enqueue_queue _ _ it) by done.
      rewrite (proj1 (SQLiteWriter_enqueue_kv _ _)).
      unfold item_get_key.
      destruct (decide (key it = k)) as [<- | Hne].
      * rewrite lookup_insert_eq. intros [= <-]. rewrite find_insert_eq.
        exact Hentry.
      * rewrite lookup_insert_ne by done. rewrite find_insert_ne by done.
        apply Hlat.
  - (* the worker pops the first entry *)
    destruct (item_local s) eqn:Hloc; [done |]. unfold writer_pop in Hstep.
    destruct (writer_queue (engine s)) as [| [k0 p0] rest] eqn:Hqueue;
      simpl in Hstep; [done |].
    injection Hstep as <-.
    pose proof Hs as Hs'. apply sorted_cons in Hs' as [Hrest Hall].
    assert (∃ r, entry_at c0 p0 = Some (k0, r)) as [r0 Hp0].
    { apply Hq. simpl. by rewrite cmp_refl. }
    split; simpl.
    + done.
    + done.
    + intros k p Hf. apply Hq. destruct (decide (k = k0)) as [-> | Hne].
      * by rewrite find_below in Hf.
      * by rewrite <- (find_tail k k0 p0 rest).
    + intros p [= <-]. eauto.
    + intros k r Hk. specialize (Hlat k r Hk).
      destruct (decide (k = k0)) as [-> | Hne].
      * rewrite find_below by done. simpl in Hlat. rewrite cmp_refl in Hlat.
        by left.
      * rewrite (find_tail k k0 p0 rest) by done.
        destruct (StdMap.find k ((k0, p0) :: rest)); [done |].
        right. split; [| done]. intros r' Hr'. congruence.
  - (* the worker persists the entry it holds *)
    destruct (item_local s) as [p |] eqn:Hloc; simpl in Hstep; [| done].
    destruct (mem (store (engine s)) !! p) as [it |] eqn:Hit;
      simpl in Hstep; [| done].
    injection Hstep as <-.
    destruct (Hl p eq_refl) as (k0 & r0 & Hp).
    assert (item_entry it = (k0, r0)) as Hent.
    { apply Hfr in Hit. congruence. }
    unfold item_entry in Hent. injection Hent as Hk0 Hr0.
    unfold writer_persist, SQLiteWriter_storeItem. rewrite Hit.
    split; simpl.
    + done.
    + by apply frame_release.
    + done.
    + done.
    + intros k r Hk. specialize (Hlat k r Hk).
      destruct (StdMap.find k (writer_queue (engine s))); [done |].
      rewrite Hk0, Hr0.
      destruct Hlat as [Hleft | [Hne Hkv]].
      * rewrite Hp in Hleft. injection Hleft as <- <-. apply lookup_insert_eq.
      * rewrite lookup_insert_ne; [done |]. intros <-. by apply (Hne r0).
Qed.

Lemma writer_inv_steps c0 s s' (evs : list writer_event) :
  writer_inv c0 s → writer_steps s evs = Some s' → writer_inv c0 s'.
Proof.
  revert s. induction evs as [| ev evs IH]; intros s Hinv Hsteps; simpl in *.
  - by injection Hsteps as <-.
  - destruct (writer_step s ev) as [s1 |] eqn:Hstep; simpl in Hsteps; [| done].
    eapply IH; [| done]. by eapply writer_inv_step.
Qed.

(** C1: in every state that producers and the worker reach from an empty
    queue, under any interleaving, the queue has at most one entry per key;
    enqueueing an item whose key is queued puts the item in the place of the
    queued one, which is released, and the queue does not grow; and once the
    queue is empty and the worker idle, the table has, for every key ever
    enqueued, the row of the item enqueued last under that key. *)
Theorem write_queue_supersedes s0 s (evs : list writer_event) :
  writer_queue (engine s0) = [] → item_local s0 = None → enqueued s0 = [] →
  writer_steps s0 evs = Some s →
  NoDup (StdMap.keys (writer_queue (engine s))) ∧
  (∀ (item second : item_ptr) (it : hash_item),
     mem (store (engine s)) !! item = Some it →
     StdMap.find (key it) (writer_queue (engine s)) = Some second →
     let e' := SQLiteWriter_enqueue (engine s) item in
     StdMap.find (key it) (writer_queue e') = Some item ∧
     length (writer_queue e') = length (writer_queue (engine s)) ∧
     store e'
     = item_release
         (store (update_item (engine s) item (set_refcount (S (refcount it)))))
         second) ∧
  (writer_queue (engine s) = [] → item_local s = None →
   ∀ (k : string) (r : row),
     latest (enqueued s) !! k = Some r → kv (engine s) !! k = Some r).
Proof.
  intros Hq0 Hl0 Hlog0 Hsteps.
  pose proof (writer_inv_steps _ _ _ _ (writer_inv_initial s0 Hq0 Hl0 Hlog0) Hsteps)
    as [Hs Hfr Hq Hl Hlat].
  split; [by apply sorted_NoDup |]. split.
  - intros item second it Hit Hfind. by apply SQLiteWriter_enqueue_supersedes.
  - intros Hempty Hidle k r Hk. specialize (Hlat k r Hk).
    by rewrite Hempty, Hidle in Hlat.
Qed.

(** *** Draining *)

Lemma writer_persist_spec e (p : item_ptr) (it : hash_item) :
  mem (store e) !! p = Some it →
  writer_queue (writer_persist e p) = writer_queue e ∧
  kv_log (writer_persist e p) = kv_log e ++ [key it] ∧
  store (writer_persist e p) = item_release (store e) p.
Proof.
  intros Hit. unfold writer_persist, SQLiteWriter_storeItem. by rewrite Hit.
Qed.

Lemma SQLiteWriter_run_log e (fuel : nat) :
  writer_queue_ok e →
  (length (writer_queue e) ≤ fuel)%nat →
  writer_queue (SQLiteWriter_run fuel e) = [] ∧
  kv_log (SQLiteWriter_run fuel e) = kv_log e ++ StdMap.keys (writer_queue e).
Proof.
  revert e. induction fuel as [| fuel IH]; intros e [Hs Hitems] Hfuel.
  - destruct (writer_queue e) eqn:Hq; [| simpl in Hfuel; lia].
    simpl. by rewrite Hq, app_nil_r.
  - simpl. unfold writer_pop.
    destruct (writer_queue e) as [| [k0 p0] rest] eqn:Hq; simpl.
    { by rewrite Hq, app_nil_r. }
    destruct (Hitems k0 p0) as (it & Hit & <-); [left |].
    destruct (writer_persist_spec (set_writer_queue rest e) p0 it Hit)
      as (Hq2 & Hlog2 & Hstore2).
    change (writer_queue (set_writer_queue rest e)) with rest in Hq2.
    change (kv_log (set_writer_queue rest e)) with (kv_log e) in Hlog2.
    change (store (set_writer_queue rest e)) with (store e) in Hstore2.
    apply sorted_cons in Hs as [Hrest Hall].
    destruct (IH (writer_persist (set_writer_queue rest e) p0)) as [IHq IHlog].
    + split; [by rewrite Hq2 |].
      intros k p Hin. rewrite Hq2 in Hin.
      destruct (Hitems k p) as (it' & Hit' & <-); [by right |].
      exists it'. split; [| done].
      rewrite Hstore2, release_other; [done |].
      intros <-. assert (it' = it) as -> by congruence.
      rewrite Forall_forall in Hall.
      assert (StdMap.lt (key it) (key it)) as Hlt.
      { apply Hall, list_elem_of_In, in_map_iff. exists (key it, p0).
        split; [done | by apply list_elem_of_In]. }
      unfold StdMap.lt in Hlt. by rewrite cmp_refl in Hlt.
    + rewrite Hq2. simpl in Hfuel. lia.
    + split; [done |]. by rewrite IHlog, Hq2, Hlog2, <- app_assoc.
Qed.

(** C5, as the code has it: in every state that producers and the worker
    reach from an empty queue, the pending entries are in ascending order of
    their keys, the order of [std::map], whatever the order of their
    insertion, and the worker's loop, left alone, executes their upserts in
    that order and empties the queue.  The pending items are allocated. *)
Theorem writer_drains_in_key_order s0 s (evs : list writer_event) (fuel : nat) :
  writer_queue (engine s0) = [] → item_local s0 = None → enqueued s0 = [] →
  writer_steps s0 evs = Some s →
  (∀ k p, (k, p) ∈ writer_queue (engine s) →
          is_Some (mem (store (engine s)) !! p)) →
  (length (writer_queue (engine s)) ≤ fuel)%nat →
  StronglySorted StdMap.lt (StdMap.keys (writer_queue (engine s))) ∧
  kv_log (SQLiteWriter_run fuel (engine s))
  = kv_log (engine s) ++ StdMap.keys (writer_queue (engine s)) ∧
  writer_queue (SQLiteWriter_run fuel (engine s)) = [].
Proof.
  intros Hq0 Hl0 Hlog0 Hsteps Halloc Hfuel.
  pose proof (writer_inv_steps _ _ _ _ (writer_inv_initial s0 Hq0 Hl0 Hlog0) Hsteps)
    as [Hs Hfr Hq Hl Hlat].
  assert (writer_queue_ok (engine s)) as Hok.
  { split; [done |]. intros k p Hin.
    destruct (Halloc k p Hin) as [it Hit]. exists it. split; [done |].
    destruct (Hq k p) as [r Hr]; [by apply elem_of_find |].
    apply Hfr in Hit. rewrite Hr in Hit. by injection Hit as ->. }
  destruct (SQLiteWriter_run_log (engine s) fuel Hok Hfuel) as [Hempty Hlog].
  done.
Qed.

End Writer_Properties.

(** *** The item layer of the specification releases as required *)

Section Items_Properties.
Import Persistent.

#[global] Instance Items_release_laws : ReleaseLaws tables_t.
Proof.
  split; simpl; unfold spec_item_release.
  - intros c p q Hne. destruct (mem c !! p) as [it |]; [| done].
    destruct (_ && _); simpl.
    + by rewrite lookup_delete_ne.
    + by rewrite lookup_insert_ne.
  - intros c p it'. destruct (mem c !! p) as [it |] eqn:Hp; [| by rewrite Hp].
    destruct (_ && _); simpl.
    + by rewrite lookup_delete_eq.
    + rewrite lookup_insert_eq. intros [= <-]. by exists it.
Qed.

Lemma spec_release_lookup (c : cache tables_t) (p q : item_ptr)
    (it : hash_item) :
  mem c !! q = Some it → (p = q → (2 ≤ refcount it)%nat) →
  ∃ it', mem (spec_item_release c p) !! q = Some it' ∧
         refcount it' = if decide (p = q) then pred (refcount it)
                        else refcount it.
Proof.
  intros Hq Hsame. unfold spec_item_release.
  destruct (decide (p = q)) as [-> | Hne].
  - specialize (Hsame eq_refl). rewrite Hq.
    rewrite bool_decide_eq_false_2 by lia. simpl. rewrite lookup_insert_eq.
    by eexists.
  - destruct (mem c !! p) as [itp |]; [| eauto].
    destruct (_ && _); simpl.
    + rewrite lookup_delete_ne by done. eauto.
    + rewrite lookup_insert_ne by done. eauto.
Qed.

#[global] Instance Items_release_counts : ReleaseCounts tables_t.
Proof. split. exact spec_release_lookup. Qed.

End Items_Properties.

(** *** The queue's references keep its items allocated *)

Section Writer_Safety.
Import Persistent.
Context {A : Type} `{!ItemsLayer A, !ReleaseLaws A, !ReleaseCounts A}.
Implicit Types (e : persistent_engine A) (c : cache A) (s : writer_system A).

Lemma enqueue_store e (item : item_ptr) (itq : hash_item) :
  mem (store e) !! item = Some itq →
  store (SQLiteWriter_enqueue e item)
  = let bumped := set_mem (alter (set_refcount (S (refcount itq))) item
                             (mem (store e))) (store e) in
    match StdMap.find (key itq) (writer_queue e) with
    | Some second => item_release bumped second
    | None => bumped
    end.
Proof.
  intros Hitq. unfold SQLiteWriter_enqueue. rewrite Hitq. simpl.
  unfold item_get_key. by destruct (StdMap.find _ _).
Qed.

(** An item is queued under one key only. *)
Lemma queued_once c0 s (k k' : string) (p : item_ptr) :
  writer_inv c0 s →
  StdMap.find k (writer_queue (engine s)) = Some p →
  StdMap.find k' (writer_queue (engine s)) = Some p → k = k'.
Proof.
  intros Hinv Hk Hk'.
  destruct (inv_queue _ _ Hinv _ _ Hk) as [r Hr].
  destruct (inv_queue _ _ Hinv _ _ Hk') as [r' Hr']. congruence.
Qed.

Lemma references_counted_step c0 s s' (ev : writer_event) :
  writer_inv c0 s → references_counted s →
  writer_step s ev = Some s' → references_counted s'.
Proof.
  intros Hinv Hsafe Hstep. pose proof Hinv as [Hs Hfr Hq Hl Hlat].
  destruct ev as [item | |]; simpl in Hstep.
  - (* a producer enqueues [item] *)
    destruct (mem (store (engine s)) !! item) as [itq |] eqn:Hitq;
      simpl in Hstep; [| done].
    injection Hstep as <-. intros p. simpl.
    rewrite (SQLiteWriter_enqueue_queue _ _ itq) by done.
    rewrite (enqueue_store _ _ itq Hitq). simpl.
    intros Hheld.
    (* whoever holds [p] now, other than through this enqueue, held it before *)
    assert (p ≠ item →
            (∃ k, StdMap.find k (StdMap.insert (key itq) item
                                   (writer_queue (engine s))) = Some p) →
            ∃ k, k ≠ key itq ∧
                 StdMap.find k (writer_queue (engine s)) = Some p) as Hwas.
    { intros Hne [k Hk]. exists k. destruct (decide (key itq = k)) as [<- | Hk'].
      - rewrite find_insert_eq in Hk. congruence.
      - by rewrite find_insert_ne in Hk. }
    (* the item at [p] once the reference count of [item] has gone up *)
    assert (∃ it1,
              alter (set_refcount (S (refcount itq))) item
                (mem (store (engine s))) !! p = Some it1 ∧
              (1 ≤ refcount it1)%nat ∧
              ((∃ k, StdMap.find k (writer_queue (engine s)) = Some p) →
               item_local s = Some p → (2 ≤ refcount it1)%nat) ∧
              (p = item → item_local s = Some p → (2 ≤ refcount it1)%nat) ∧
              (p = item →
               (∃ k, StdMap.find k (writer_queue (engine s)) = Some p) →
               (2 ≤ refcount it1)%nat ∧
               (item_local s = Some p → (3 ≤ refcount it1)%nat)))
      as (it1 & Hit1 & Hone & Htwo & Hnew & Hboth).
    { destruct (decide (p = item)) as [-> | Hne].
      - rewrite lookup_alter_eq, Hitq. simpl. eexists. split; [done |]. simpl.
        split; [lia |]. split; [| split].
        + intros Hqd Hw. destruct (Hsafe item) as (it & Hit & H1 & H2); [by left |].
          assert (it = itq) as -> by congruence. lia.
        + intros _ Hw. destruct (Hsafe item) as (it & Hit & H1 & H2); [by right |].
          assert (it = itq) as -> by congruence. lia.
        + intros _ Hqd. destruct (Hsafe item) as (it & Hit & H1 & H2); [by left |].
          assert (it = itq) as -> by congruence.
          split; [lia |]. intros Hw. specialize (H2 Hqd Hw). lia.
      - rewrite lookup_alter_ne by done.
        destruct (Hsafe p) as (it & Hit & H1 & H2).
        { destruct Hheld as [Hqd | Hw]; [| by right].
          left. destruct (Hwas Hne Hqd) as (k & _ & Hk). eauto. }
        exists it. repeat split; try done. }
    destruct (StdMap.find (key itq) (writer_queue (engine s))) as [second |]
      eqn:Hsecond.
    + (* the key is queued: its item [second] is released *)
      destruct (release_counts
        (set_mem (alter (set_refcount (S (refcount itq))) item
                    (mem (store (engine s)))) (store (engine s)))
        second p it1 Hit1) as (it2 & Hit2 & Hrc2).
      { intros ->. destruct (decide (p = item)) as [-> | Hne].
        - apply Hboth; eauto.
        - (* [p] was queued under the key and is superseded: the worker, then,
             has it in hand *)
          destruct Hheld as [Hqd | Hw].
          + destruct (Hwas Hne Hqd) as (k & Hk & Hfind).
            destruct Hk. symmetry. by eapply queued_once.
          + apply Htwo; eauto. }
      exists it2. split; [done |]. rewrite Hrc2.
      destruct (decide (second = p)) as [-> | Hne2].
      * destruct (decide (p = item)) as [-> | Hne].
        -- destruct Hboth as [H2 H3]; [done | eauto |].
           split; [lia |]. intros _ Hw. specialize (H3 Hw). lia.
        -- assert (item_local s = Some p) as Hw.
           { destruct Hheld as [Hqd | Hw]; [| done].
             destruct (Hwas Hne Hqd) as (k & Hk & Hfind).
             destruct Hk. symmetry. by eapply queued_once. }
           specialize (Htwo ltac:(eauto) Hw). split; [lia |].
           intros Hqd _. destruct (Hwas Hne Hqd) as (k & Hk & Hfind).
           destruct Hk. symmetry. by eapply queued_once.
      * split; [done |]. intros Hqd Hw.
        destruct (decide (p = item)) as [-> | Hne]; [by apply Hnew |].
        apply Htwo; [| done]. destruct (Hwas Hne Hqd) as (k & _ & Hk). eauto.
    + (* the key is not queued *)
      exists it1. split; [done |]. split; [done |]. intros Hqd Hw.
      destruct (decide (p = item)) as [-> | Hne]; [by apply Hnew |].
      apply Htwo; [| done]. destruct (Hwas Hne Hqd) as (k & _ & Hk). eauto.
  - (* the worker pops the first entry *)
    destruct (item_local s) eqn:Hloc; [done |]. unfold writer_pop in Hstep.
    destruct (writer_queue (engine s)) as [| [k0 p0] rest] eqn:Hqueue;
      simpl in Hstep; [done |].
    injection Hstep as <-. intros p. simpl. intros Hheld.
    pose proof Hs as Hs'. apply sorted_cons in Hs' as [Hrest Hall].
    assert (StdMap.find k0 ((k0, p0) :: rest) = Some p0) as Hhead
      by (simpl; by rewrite cmp_refl).
    assert (∀ k, StdMap.find k rest = Some p →
                 k ≠ k0 ∧ StdMap.find k ((k0, p0) :: rest) = Some p) as Hwas.
    { intros k Hk. assert (k ≠ k0) as Hne.
      { intros ->. by rewrite find_below in Hk. }
      split; [done |]. by rewrite <- find_tail. }
    assert (¬ ((∃ k, StdMap.find k rest = Some p) ∧ Some p0 = Some p)) as Hnot.
    { intros [[k Hk] [= ->]]. destruct (Hwas k Hk) as [Hne Hk'].
      destruct Hne. rewrite <- Hqueue in Hk', Hhead. by eapply queued_once. }
    destruct (Hsafe p) as (it & Hit & H1 & H2).
    { left. rewrite Hqueue. destruct Hheld as [[k Hk] | [= ->]]; [| eauto].
      destruct (Hwas k Hk) as [_ Hk']. eauto. }
    exists it. split; [done |]. split; [done |]. intros Hqd Hw. by destruct Hnot.
  - (* the worker persists the entry it holds *)
    destruct (item_local s) as [p0 |] eqn:Hloc; simpl in Hstep; [| done].
    destruct (mem (store (engine s)) !! p0) as [it0 |] eqn:Hit0;
      simpl in Hstep; [| done].
    injection Hstep as <-. intros p. simpl.
    unfold SQLiteWriter_storeItem. rewrite Hit0. simpl.
    intros [Hqd | Hw]; [| done].
    destruct (Hsafe p) as (it & Hit & H1 & H2); [by left |].
    destruct (release_counts (store (engine s)) p0 p it Hit)
      as (it' & Hit' & Hrc'); [intros <-; by apply H2 |].
    exists it'. split; [done |]. rewrite Hrc'. split; [| done].
    case_decide as Heq; [| done]. subst. specialize (H2 Hqd Hloc). lia.
Qed.

(** X19: the write-behind queue's use of the reference counts keeps its
    items alive.  The enqueue takes a reference for the queue, the entry it
    supersedes gives its reference back, and the worker gives the popped
    item's reference back once the row is written.  On an item layer that
    counts references, every schedule in which producers enqueue allocated
    items and the worker pops and persists in turn runs to its end: the worker
    never finds the item it has popped freed, the items pending in the queue
    are allocated, and each holds a reference for the queue and one more when
    the worker has it in hand. *)
Theorem writer_schedule_runs s0 (evs : list writer_event) :
  writer_queue (engine s0) = [] → item_local s0 = None → enqueued s0 = [] →
  runnable s0 evs →
  ∃ s, writer_steps s0 evs = Some s ∧
       references_counted s ∧
       ∀ k p, (k, p) ∈ writer_queue (engine s) →
              is_Some (mem (store (engine s)) !! p).
Proof.
  intros Hq0 Hl0 Hlog0.
  pose proof (writer_inv_initial s0 Hq0 Hl0 Hlog0) as Hinv.
  assert (references_counted s0) as Hsafe.
  { intros p. rewrite Hq0, Hl0. simpl. intros [[k Hk] | Hw]; done. }
  revert Hinv Hsafe. generalize (store (engine s0)) as c0.
  clear Hq0 Hl0 Hlog0. revert s0.
  induction evs as [| ev evs IH]; intros s c0 Hinv Hsafe Hrun; simpl in *.
  - exists s. split; [done |]. split; [done |].
    intros k p Hin. destruct (Hsafe p) as (it & Hit & _).
    { left. exists k. apply elem_of_find; [apply Hinv | done]. }
    by eexists.
  - destruct Hrun as [Hen Hrun].
    assert (is_Some (writer_step s ev)) as [s1 Hstep].
    { destruct ev as [item | |]; simpl in *.
      - destruct Hen as [it ->]. by eexists.
      - destruct Hen as [-> Hne]. unfold writer_pop.
        destruct (writer_queue (engine s)) as [| [k p] rest]; [done |].
        by eexists.
      - destruct Hen as [p Hp]. rewrite Hp. simpl.
        destruct (Hsafe p) as (it & -> & _); [by right |]. by eexists. }
    rewrite Hstep. simpl.
    apply (IH s1 c0); [by eapply writer_inv_step | | by apply Hrun].
    by eapply references_counted_step.
Qed.

End Writer_Safety.

(** ** Concrete runs of the two workers *)

Section Worker_Examples.
Import Persistent.

(** "b", "a" and "b" again are enqueued; the table gets "a" first, then the
    second "b". *)
Example drained_b_a_b_log :
  writer_steps start_b_a_b schedule_b_a_b = Some drained_b_a_b ∧
  kv_log (engine drained_b_a_b) = ["a"; "b"] ∧
  kv (engine drained_b_a_b) !! "b" = Some (mk_row 0 0 0 (bytes "v2")).
Proof. vm_compute. done. Qed.

Lemma write_queue_supersedes_witness :
  kv (engine drained_b_a_b) !! "b" = Some (mk_row 0 0 0 (bytes "v2")).
Proof.
  refine (proj2 (proj2
    (write_queue_supersedes start_b_a_b drained_b_a_b schedule_b_a_b _ _ _ _))
    _ _ "b" _ _); vm_compute; reflexivity.
Defined.

(** C5, counterexample: "b" was enqueued before "a", and is upserted after
    it. *)
Lemma writer_upserts_a_before_b :
  writer_steps start_b_a_b schedule_b_a_b = Some drained_b_a_b ∧
  first_occurrences (enqueued drained_b_a_b).*1 = ["b"; "a"] ∧
  kv_log (engine drained_b_a_b) = ["a"; "b"] ∧
  kv_log (engine drained_b_a_b)
  ≠ first_occurrences (enqueued drained_b_a_b).*1.
Proof. vm_compute. repeat split; discriminate. Qed.

Lemma writer_drains_in_key_order_witness :
  kv_log (SQLiteWriter_run 2 (engine pending_b_a_b)) = ["a"; "b"].
Proof.
  refine (proj1 (proj2
    (writer_drains_in_key_order start_b_a_b pending_b_a_b enqueues_b_a_b 2
       _ _ _ _ _ _))); try (vm_compute; reflexivity).
  - assert (writer_queue (engine pending_b_a_b)
            = [("a", 2%positive); ("b", 3%positive)]) as ->
      by (vm_compute; reflexivity).
    intros k p Hin.
    apply elem_of_cons in Hin as [[= -> ->] | Hin];
      [| apply elem_of_cons in Hin as [[= -> ->] | Hin];
         [| by apply elem_of_nil in Hin]];
      vm_compute; by eexists.
Defined.

(** The superseded item at address 1 has lost the queue's reference: it is
    back to the one reference of its allocation; the queued items hold two. *)
Example pending_b_a_b_refcounts :
  refcount <$> mem (store (engine pending_b_a_b)) !! 1%positive = Some 1%nat ∧
  refcount <$> mem (store (engine pending_b_a_b)) !! 2%positive = Some 2%nat ∧
  refcount <$> mem (store (engine pending_b_a_b)) !! 3%positive = Some 2%nat ∧
  writer_queue (engine pending_b_a_b) = [("a", 2%positive); ("b", 3%positive)].
Proof. vm_compute. done. Qed.

(** The request for the absent key is answered ENGINE_KEY_ENOENT, the one for
    the stored key ENGINE_SUCCESS. *)
Example reads_a_k_notified :
  io_complete (SQLiteReader_run 2 engine_reads_a_k)
  = [(1, ENGINE_KEY_ENOENT); (2, ENGINE_SUCCESS)].
Proof. vm_compute. reflexivity. Qed.

Lemma persistent_get_hit_or_would_block_witness :
  ∃ e', persistent_get (fresh_engine 4) 77 "k" = (ENGINE_EWOULDBLOCK, None, e') ∧
        StdMap.find 77 (reader_queue e') = Some "k" ∧
        (77, "k") ∈ reader_queue e' ∧
        store e' = store (fresh_engine 4).
Proof.
  refine (proj2 (persistent_get_hit_or_would_block (fresh_engine 4) 77 "k" _)
            (store (fresh_engine 4)) _).
  - vm_compute. repeat constructor.
  - reflexivity.
Defined.

End Worker_Examples.

(** ** Arithmetic on an absent key *)

Section Arithmetic_Properties.
Import Persistent.

Section AnyLayer.
Context {A : Type} `{!ItemsLayer A}.
Implicit Types (e : persistent_engine A) (c : cache A).

(** The engine handed to the ADD: the lookup has missed, the item has been
    allocated and filled with the decimal text and its line terminator. *)
Lemma persistent_arithmetic_miss (fuel : nat) e (key : string)
    (increment : bool) (delta initial exptime : Z) (out : arith_out)
    c1 (item : item_ptr) c2 (ret : ENGINE_ERROR_CODE) (cas : option Z) e4 :
  item_get (store e) key = (None, c1) →
  item_alloc c1 key 0 exptime (size (decimal initial ++ CRLF)) = (Some item, c2) →
  store_item
    (update_item (set_store c2 (set_store c1 e)) item
       (memcpy_data (decimal initial ++ CRLF)))
    item OPERATION_ADD true = (ret, cas, e4) →
  persistent_arithmetic (S fuel) e key increment true delta initial exptime out
  = if decide (ret = ENGINE_KEY_EEXISTS) then
      persistent_arithmetic fuel (persistent_item_release e4 item) key
        increment true delta initial exptime
        (mk_out (default (out_cas out) cas) (out_result out))
    else
      Some (ret,
            mk_out (default 0 (item_get_cas <$> mem (store e4) !! item)) initial,
            persistent_item_release e4 item).
Proof.
  intros Hget Halloc Hstore. simpl. rewrite Hget. simpl. rewrite Halloc.
  by rewrite Hstore.
Qed.

End AnyLayer.

(** *** The contended layer *)

Lemma contended_enqueue_tables (e : persistent_engine contended_t)
    (item : item_ptr) :
  tables (store (SQLiteWriter_enqueue e item)) = tables (store e).
Proof.
  unfold SQLiteWriter_enqueue.
  destruct (mem (store e) !! item) as [it |]; [| done]. simpl.
  by destruct (StdMap.find _ _).
Qed.

Lemma contended_store_item_refused (e : persistent_engine contended_t)
    (item : item_ptr) (op : ENGINE_STORE_OPERATION) (persist : bool)
    (r : ENGINE_ERROR_CODE) (rest : list ENGINE_ERROR_CODE) :
  replies (tables (store e)) = r :: rest → r ≠ ENGINE_SUCCESS →
  store_item e item op persist
  = (r, None,
     set_store
       (mk_cache (mem (store e))
          (mk_contended rest (S (adds (tables (store e))))
             (next_chunk (tables (store e))))
          (cfg (store e))) e).
Proof.
  intros Hre Hr. unfold store_item. simpl. unfold contended_do_store_item.
  rewrite Hre. by rewrite decide_False.
Qed.

Lemma contended_store_item_accepted (e : persistent_engine contended_t)
    (item : item_ptr) (op : ENGINE_STORE_OPERATION) (persist : bool) :
  replies (tables (store e)) = [] →
  ∃ cas e', store_item e item op persist = (ENGINE_SUCCESS, cas, e') ∧
            tables (store e')
            = mk_contended [] (S (adds (tables (store e))))
                (next_chunk (tables (store e))).
Proof.
  intros Hre. unfold store_item. simpl. unfold contended_do_store_item.
  rewrite Hre. eexists _, _. split; [reflexivity |].
  destruct persist; [| done].
  unfold sqlite_io_store_item. by rewrite contended_enqueue_tables.
Qed.

(** On the contended layer a call whose ADD is answered ENGINE_KEY_EEXISTS [n]
    times makes [n + 1] ADDs, [n] self-calls deep. *)
Lemma contended_arithmetic_retries (n : nat) :
  ∀ (e : persistent_engine contended_t) (key : string) (increment : bool)
    (delta initial exptime : Z) (out : arith_out),
    replies (tables (store e)) = replicate n ENGINE_KEY_EEXISTS →
    (∃ out' e',
       persistent_arithmetic (S n) e key increment true delta initial exptime out
       = Some (ENGINE_SUCCESS, out', e') ∧
       out_result out' = initial ∧
       adds (tables (store e')) = (adds (tables (store e)) + S n)%nat) ∧
    persistent_arithmetic n e key increment true delta initial exptime out = None.
Proof.
  induction n as [| n IH]; intros e key increment delta initial exptime out Hre.
  - split; [| done].
    edestruct (contended_store_item_accepted
      (update_item
         (set_store (contended_item_alloc (store e) key 0 exptime
                       (size (decimal initial ++ CRLF))).2
            (set_store (store e) e))
         (next_chunk (tables (store e)))
         (memcpy_data (decimal initial ++ CRLF)))
      (next_chunk (tables (store e))) OPERATION_ADD true)
      as (cas & e4 & Hstore & Htables); [done |].
    erewrite persistent_arithmetic_miss; [| reflexivity | reflexivity | exact Hstore].
    rewrite decide_False by done.
    eexists _, _. split; [reflexivity |]. split; [done |].
    simpl. rewrite Htables. simpl. lia.
  - pose proof (contended_store_item_refused
      (update_item
         (set_store (contended_item_alloc (store e) key 0 exptime
                       (size (decimal initial ++ CRLF))).2
            (set_store (store e) e))
         (next_chunk (tables (store e)))
         (memcpy_data (decimal initial ++ CRLF)))
      (next_chunk (tables (store e))) OPERATION_ADD true
      ENGINE_KEY_EEXISTS (replicate n ENGINE_KEY_EEXISTS) Hre) as Hstore.
    assert (ENGINE_KEY_EEXISTS ≠ ENGINE_SUCCESS) as Hne by done.
    specialize (Hstore Hne).
    split.
    + erewrite persistent_arithmetic_miss;
        [| reflexivity | reflexivity | exact Hstore].
      rewrite decide_True by done.
      edestruct IH as [(out' & e' & Hrun & Hres & Hadds) _]; [| rewrite Hrun].
      { reflexivity. }
      eexists _, _. split; [reflexivity |]. split; [done |].
      rewrite Hadds. simpl. lia.
    + erewrite persistent_arithmetic_miss;
        [| reflexivity | reflexivity | exact Hstore].
      rewrite decide_True by done.
      apply IH. reflexivity.
Qed.

(** *** The item layer of the specification, with no other thread *)

Lemma same_item_refl (it : hash_item) : same_item it it.
Proof. done. Qed.

Lemma same_item_trans (it1 it2 it3 : hash_item) :
  same_item it1 it2 → same_item it2 it3 → same_item it1 it3.
Proof. unfold same_item. congruence. Qed.

Lemma same_item_set_refcount (n : nat) (it : hash_item) :
  same_item it (set_refcount n it).
Proof. done. Qed.

Lemma same_item_fields (it it' : hash_item) :
  same_item it it' →
  key it' = key it ∧ data it' = data it ∧ linked it' = linked it ∧
  item_get_cas it' = item_get_cas it.
Proof.
  destruct it, it'. unfold same_item, set_refcount, linked, item_get_cas. simpl.
  intros [= -> -> -> -> -> ->]. done.
Qed.

Lemma spec_item_release_linked (c : cache tables_t) (q p : item_ptr)
    (it : hash_item) :
  mem c !! p = Some it → linked it = true →
  assoc (tables (spec_item_release c q)) = assoc (tables c) ∧
  ∃ it', mem (spec_item_release c q) !! p = Some it' ∧ same_item it it'.
Proof.
  intros Hp Hlinked. unfold spec_item_release.
  destruct (mem c !! q) as [it0 |] eqn:Hq; [| eauto using same_item_refl].
  destruct (decide (q = p)) as [-> | Hne].
  - assert (it0 = it) as -> by congruence. rewrite Hlinked, andb_false_r. simpl.
    split; [done |]. rewrite lookup_insert_eq. eauto using same_item_set_refcount.
  - destruct (_ && _); simpl; (split; [done |]).
    + rewrite lookup_delete_ne by done. eauto using same_item_refl.
    + rewrite lookup_insert_ne by done. eauto using same_item_refl.
Qed.

Lemma spec_enqueue_linked (e : persistent_engine tables_t) (q p : item_ptr)
    (it : hash_item) :
  mem (store e) !! p = Some it → linked it = true →
  assoc (tables (store (SQLiteWriter_enqueue e q))) = assoc (tables (store e)) ∧
  ∃ it', mem (store (SQLiteWriter_enqueue e q)) !! p = Some it' ∧
         same_item it it'.
Proof.
  intros Hp Hlinked. unfold SQLiteWriter_enqueue.
  destruct (mem (store e) !! q) as [it0 |] eqn:Hq; [| eauto using same_item_refl].
  assert (∃ it1, alter (set_refcount (S (refcount it0))) q (mem (store e)) !! p
                 = Some it1 ∧ same_item it it1) as (it1 & Hp1 & Hsame1).
  { destruct (decide (q = p)) as [-> | Hne].
    - rewrite lookup_alter_eq, Hp. simpl. eauto using same_item_set_refcount.
    - rewrite lookup_alter_ne by done. eauto using same_item_refl. }
  simpl. destruct (StdMap.find _ _) as [second |]; simpl; [| eauto].
  edestruct (spec_item_release_linked
    (set_mem (alter (set_refcount (S (refcount it0))) q (mem (store e))) (store e))
    second p it1) as (Hassoc & it2 & Hp2 & Hsame2); [exact Hp1 | |].
  { apply same_item_fields in Hsame1 as (_ & _ & -> & _). done. }
  split; [exact Hassoc |]. eauto using same_item_trans.
Qed.

Lemma spec_item_link_lookup (c : cache tables_t) (p : item_ptr)
    (it : hash_item) :
  mem c !! p = Some it →
  mem (spec_item_link c p) !! p
  = Some (item_set_cas (set_iflag (Z.lor (iflag it) ITEM_LINKED) it)
            (next_cas (tables c) + 1)) ∧
  assoc (tables (spec_item_link c p)) = <[key it := p]> (assoc (tables c)).
Proof.
  intros Hp. unfold spec_item_link. rewrite Hp. simpl.
  split; [by rewrite lookup_insert_eq |].
  unfold item_set_cas. by case_decide.
Qed.

Lemma spec_do_store_item_add_absent (c : cache tables_t) (p : item_ptr)
    (it : hash_item) :
  mem c !! p = Some it → assoc (tables c) !! key it = None →
  spec_do_store_item c p OPERATION_ADD
  = (ENGINE_SUCCESS, Some p, spec_item_link c p).
Proof.
  intros Hp Habsent. unfold spec_do_store_item. by rewrite Hp, Habsent.
Qed.

Lemma linked_after_link (it : hash_item) (cas : Z) :
  let it' := item_set_cas (set_iflag (Z.lor (iflag it) ITEM_LINKED) it) cas in
  key it' = key it ∧ data it' = data it ∧ linked it' = true.
Proof.
  unfold item_set_cas, linked. simpl.
  assert (Z.land (Z.lor (iflag it) ITEM_LINKED) ITEM_LINKED ≠ 0) as Hbit.
  { intros Hz. apply (f_equal (λ z, Z.testbit z 8)) in Hz.
    rewrite Z.land_spec, Z.lor_spec in Hz. simpl in Hz.
    by rewrite orb_true_r in Hz. }
  case_decide; simpl; repeat split; by apply negb_true_iff, Z.eqb_neq.
Qed.

(** With no other thread at work, an arithmetic call that creates the key
    stores the decimal text of [initial] with its line terminator under the
    key, by an ADD, and returns [initial] and the CAS of the item. *)
Lemma spec_arithmetic_creates (e : persistent_engine tables_t) (key : string)
    (increment : bool) (delta initial exptime : Z) (out : arith_out)
    (fuel : nat) :
  assoc (tables (store e)) !! key = None →
  free_chunks (tables (store e)) ≠ 0%nat →
  ∃ e' item it,
    persistent_arithmetic (S fuel) e key increment true delta initial exptime out
    = Some (ENGINE_SUCCESS, mk_out (item_get_cas it) initial, e') ∧
    assoc (tables (store e')) !! key = Some item ∧
    mem (store e') !! item = Some it ∧
    Persistent.key it = key ∧
    data it = decimal initial ++ CRLF.
Proof.
  intros Habsent Hfree.
  remember (decimal initial ++ CRLF) as buffer eqn:Hbuffer.
  remember (next_item (tables (store e))) as p eqn:Hp.
  destruct (free_chunks (tables (store e))) as [| n] eqn:Hchunks; [done |].
  (* the lookup misses and the allocation succeeds *)
  assert (item_get (store e) key = (None, store e)) as Hget.
  { simpl. unfold spec_item_get. by rewrite Habsent. }
  assert (∃ c2, item_alloc (store e) key 0 exptime (size buffer) = (Some p, c2) ∧
                assoc (tables c2) = assoc (tables (store e)) ∧
                mem c2 !! p
                = Some (mk_hash_item 1
                          (if use_cas (cfg (store e)) then ITEM_WITH_CAS else 0)
                          0 exptime 0 key
                          (replicate (Z.to_nat (size buffer)) Byte.x00)))
    as (c2 & Halloc & Hassoc2 & Hp2).
  { simpl. unfold spec_item_alloc. rewrite Hchunks, <- Hp.
    eexists. split; [done |]. simpl. by rewrite lookup_insert_eq. }
  (* the item is filled with the text *)
  remember (update_item (set_store c2 (set_store (store e) e)) p
              (memcpy_data buffer)) as e3 eqn:He3.
  remember (mk_hash_item 1
              (if use_cas (cfg (store e)) then ITEM_WITH_CAS else 0)
              0 exptime 0 key buffer) as it3 eqn:Hit3.
  assert (mem (store e3) !! p = Some it3) as Hp3.
  { rewrite He3, Hit3. simpl. rewrite lookup_alter_eq, Hp2. simpl.
    unfold memcpy_data, set_data. simpl. do 2 f_equal.
    rewrite drop_ge; [by rewrite app_nil_r |].
    rewrite length_replicate. unfold size. lia. }
  assert (Persistent.key it3 = key ∧ data it3 = buffer) as [Hkey3 Hdata3]
    by by rewrite Hit3.
  assert (assoc (tables (store e3)) !! Persistent.key it3 = None) as Habsent3.
  { rewrite Hkey3, He3. simpl. by rewrite Hassoc2. }
  (* the ADD links it *)
  destruct (spec_item_link_lookup (store e3) p it3 Hp3) as [Hp4 Hassoc4].
  remember (item_set_cas (set_iflag (Z.lor (iflag it3) ITEM_LINKED) it3)
              (next_cas (tables (store e3)) + 1)) as it4 eqn:Hit4.
  pose proof (linked_after_link it3 (next_cas (tables (store e3)) + 1))
    as (Hkey4 & Hdata4 & Hlinked4).
  simpl in Hkey4, Hdata4, Hlinked4. rewrite <- Hit4 in Hkey4, Hdata4, Hlinked4.
  remember (set_store (spec_item_link (store e3) p) e3) as e4 eqn:He4.
  assert (mem (store e4) !! p = Some it4) as Hp4' by by rewrite He4.
  (* and the write-behind queue takes a reference *)
  destruct (spec_enqueue_linked e4 p p it4 Hp4' Hlinked4)
    as (Hassoc5 & it5 & Hp5 & Hsame5).
  pose proof (same_item_fields _ _ Hsame5) as (Hkey5 & Hdata5 & Hlinked5 & Hcas5).
  (* the caller's reference is given up *)
  destruct (spec_item_release_linked _ p p it5 Hp5) as (Hassoc6 & it6 & Hp6 & Hsame6);
    [congruence |].
  pose proof (same_item_fields _ _ Hsame6) as (Hkey6 & Hdata6 & _ & Hcas6).
  assert (store_item e3 p OPERATION_ADD true
          = (ENGINE_SUCCESS, Some (item_get_cas it4), SQLiteWriter_enqueue e4 p))
    as Hstore.
  { unfold store_item.
    change (do_store_item (store e3) p OPERATION_ADD)
      with (spec_do_store_item (store e3) p OPERATION_ADD).
    rewrite (spec_do_store_item_add_absent _ _ it3 Hp3 Habsent3).
    rewrite Hp4, <- He4. reflexivity. }
  exists (persistent_item_release (SQLiteWriter_enqueue e4 p) p), p, it6.
  split; [| split; [| split; [exact Hp6 | split; congruence]]].
  - erewrite persistent_arithmetic_miss;
      [| exact Hget | rewrite <- Hbuffer; exact Halloc
       | rewrite <- Hbuffer, <- He3; exact Hstore].
    rewrite decide_False by done. rewrite Hp5. simpl. do 3 f_equal. congruence.
  - change (store (persistent_item_release (SQLiteWriter_enqueue e4 p) p))
      with (spec_item_release (store (SQLiteWriter_enqueue e4 p)) p).
    rewrite Hassoc6, Hassoc5, He4. simpl. rewrite Hassoc4, Hkey3.
    apply lookup_insert_eq.
Qed.

End Arithmetic_Properties.

Section Arithmetic_Claim.
Import Persistent.

(** C7, as the code has it.  On a key absent from the cache, with a chunk to
    allocate and no other thread at work, [persistent_arithmetic] with
    [create] stores the decimal text of [initial] and its line terminator by
    an ADD and returns ENGINE_SUCCESS, [initial] and the new item's CAS.  On
    any item layer, when the ADD answers ENGINE_KEY_EEXISTS the function
    releases the item and calls itself with the same arguments, and otherwise
    returns the ADD's answer with [initial] and the item's CAS.  The self-calls
    are not bounded: answered ENGINE_KEY_EEXISTS [n] times, the function makes
    [n + 1] ADDs, and [n] nested calls are not enough. *)
Theorem persistent_arithmetic_create_retries :
  (∀ (e : persistent_engine tables_t) (key : string) (increment : bool)
     (delta initial exptime : Z) (out : arith_out) (fuel : nat),
     assoc (tables (store e)) !! key = None →
     free_chunks (tables (store e)) ≠ 0%nat →
     ∃ e' item it,
       persistent_arithmetic (S fuel) e key increment true delta initial
         exptime out
       = Some (ENGINE_SUCCESS, mk_out (item_get_cas it) initial, e') ∧
       assoc (tables (store e')) !! key = Some item ∧
       mem (store e') !! item = Some it ∧
       Persistent.key it = key ∧
       data it = decimal initial ++ CRLF) ∧
  (∀ (A : Type) (L : ItemsLayer A) (fuel : nat) (e : persistent_engine A)
     (key : string) (increment : bool) (delta initial exptime : Z)
     (out : arith_out) (c1 c2 : cache A) (item : item_ptr)
     (ret : ENGINE_ERROR_CODE) (cas : option Z) (e4 : persistent_engine A),
     item_get (store e) key = (None, c1) →
     item_alloc c1 key 0 exptime (size (decimal initial ++ CRLF))
     = (Some item, c2) →
     store_item
       (update_item (set_store c2 (set_store c1 e)) item
          (memcpy_data (decimal initial ++ CRLF)))
       item OPERATION_ADD true = (ret, cas, e4) →
     persistent_arithmetic (S fuel) e key increment true delta initial exptime out
     = if decide (ret = ENGINE_KEY_EEXISTS) then
         persistent_arithmetic fuel (persistent_item_release e4 item) key
           increment true delta initial exptime
           (mk_out (default (out_cas out) cas) (out_result out))
       else
         Some (ret,
               mk_out (default 0 (item_get_cas <$> mem (store e4) !! item))
                 initial,
               persistent_item_release e4 item)) ∧
  (∀ (n : nat) (key : string) (increment : bool) (delta initial exptime : Z)
     (out : arith_out),
     let e := contended_engine (replicate n ENGINE_KEY_EEXISTS) in
     (∃ out' e',
        persistent_arithmetic (S n) e key increment true delta initial exptime
          out
        = Some (ENGINE_SUCCESS, out', e') ∧
        out_result out' = initial ∧
        adds (tables (store e')) = S n) ∧
     persistent_arithmetic n e key increment true delta initial exptime out
     = None).
Proof.
  split; [| split].
  - intros. by apply spec_arithmetic_creates.
  - intros. by eapply persistent_arithmetic_miss.
  - intros n key increment delta initial exptime out e.
    by apply (contended_arithmetic_retries n e).
Qed.

(** C7, counterexample: the ADD is answered ENGINE_KEY_EEXISTS twice; the call
    makes three ADDs, two of them retries, and two nested calls (one retry)
    do not complete it. *)
Lemma persistent_arithmetic_retries_twice :
  let e := contended_engine [ENGINE_KEY_EEXISTS; ENGINE_KEY_EEXISTS] in
  (∃ out' e',
     persistent_arithmetic 3 e "ctr" true true 5 10 0 (mk_out 0 0)
     = Some (ENGINE_SUCCESS, out', e') ∧
     out_result out' = 10 ∧
     adds (tables (store e')) = 3%nat ∧
     ¬ (adds (tables (store e')) ≤ 2)%nat) ∧
  persistent_arithmetic 2 e "ctr" true true 5 10 0 (mk_out 0 0) = None.
Proof.
  split; [| vm_compute; reflexivity].
  eexists _, _. split; [vm_compute; reflexivity |].
  split; [reflexivity |]. split; [reflexivity |]. simpl. lia.
Qed.

Lemma persistent_arithmetic_create_retries_witness :
  ∃ e' item it,
    persistent_arithmetic 1 (fresh_engine 4) "ctr" true true 5 10 0 (mk_out 0 0)
    = Some (ENGINE_SUCCESS, mk_out (item_get_cas it) 10, e') ∧
    assoc (tables (store e')) !! "ctr" = Some item ∧
    mem (store e') !! item = Some it ∧
    Persistent.key it = "ctr" ∧
    data it = decimal 10 ++ CRLF.
Proof.
  apply (proj1 persistent_arithmetic_create_retries
           (fresh_engine 4) "ctr" true 5 10 0 (mk_out 0 0) 0%nat).
  - reflexivity.
  - vm_compute. discriminate.
Defined.

(** The counter of the specification's example: created at 10, then
    incremented by 5. *)
Example arithmetic_ctr_10_then_15 :
  ∃ o1 e1 o2 e2,
    persistent_arithmetic 1 (fresh_engine 4) "ctr" true true 5 10 0 (mk_out 0 0)
    = Some (ENGINE_SUCCESS, o1, e1) ∧
    persistent_arithmetic 1 e1 "ctr" true true 5 10 0 o1
    = Some (ENGINE_SUCCESS, o2, e2) ∧
    out_result o1 = 10 ∧ out_result o2 = 15 ∧ out_cas o1 ≠ out_cas o2.
Proof.
  eexists _, _, _, _. split; [vm_compute; reflexivity |].
  split; [vm_compute; reflexivity |]. vm_compute. repeat split; discriminate.
Qed.

End Arithmetic_Claim.

(** ** The read-through worker and the cache *)

Section Reader_And_Cache.
Import Persistent.
Implicit Types (e : persistent_engine tables_t) (c : cache tables_t).











End Reader_And_Cache.

(** * Further properties *)

(** ** The STL engine: the calls together *)

Section STL_Interface.
Import STL STLSpec.

Variable max_size : Z.

(** What a returning [Store] has done: nothing, or the caller's item, with
    its value combined by APPEND or PREPEND, is filed under its key. *)
Lemma Store_returns (cache : gmap string Item) (it : Item)
    (op : ENGINE_STORE_OPERATION) (r : stored) :
  Store max_size cache it op = Return r →
  (code r ≠ ENGINE_SUCCESS ∧ cache_after r = cache ∧ item_after r = it ∧
   cas_out r = None) ∨
  (code r = ENGINE_SUCCESS ∧
   cache_after r = <[key it := item_after r]> cache ∧
   key (item_after r) = key it ∧ cas (item_after r) = cas it ∧
   flags (item_after r) = flags it ∧ exptime (item_after r) = exptime it ∧
   (op ≠ OPERATION_APPEND → op ≠ OPERATION_PREPEND → item_after r = it) ∧
   cas_out r = (cache !! key it) ≫= (λ _, Some (cas it))).
Proof.
  intros HStore. unfold Store in HStore.
  destruct (cache !! key it) as [second |] eqn:Hk; simpl.
  - destruct (decide (op = OPERATION_ADD)) as [-> | Hadd].
    { injection HStore as <-. by left. }
    destruct (decide (cas it ≠ 0 ∧ cas it ≠ cas second)).
    { injection HStore as <-. by left. }
    right.
    assert (∀ o : outcome Item, (o ≫= λ it',
              Return (mkStored ENGINE_SUCCESS
                        (<[key it' := clone it']> (delete (key it) cache))
                        it' (Some (cas it')))) = Return r →
            ∃ it', o = Return it' ∧
                   r = mkStored ENGINE_SUCCESS
                         (<[key it' := clone it']> (delete (key it) cache))
                         it' (Some (cas it'))) as Hbind.
    { intros [it' |] Ho; [| done]. injection Ho as <-. eauto. }
    apply Hbind in HStore as (it' & Hit' & ->). simpl.
    assert (key it' = key it ∧ cas it' = cas it ∧ flags it' = flags it ∧
            exptime it' = exptime it ∧
            (op ≠ OPERATION_APPEND → op ≠ OPERATION_PREPEND → it' = it))
      as (Hkey & Hcas & Hflags & Hexp & Hsame).
    { repeat case_decide.
      - unfold append in Hit'.
        destruct (resize _ _ _) as [val |]; [| done]. by injection Hit' as <-.
      - unfold prepend in Hit'.
        destruct (resize _ _ _) as [val |]; [| done]. by injection Hit' as <-.
      - by injection Hit' as <-. }
    rewrite Hkey, Hcas. unfold clone. rewrite insert_delete_eq. done.
  - destruct op; injection HStore as <-; simpl; (by left) || (by right).
Qed.

(** X1: after a successful [Store] a [Get] of the key answers ENGINE_SUCCESS
    with the caller's item as [Store] left it: the key, CAS token, flags and
    expiry time are the caller's, also after APPEND or PREPEND, where only the
    value is a combination; for the other operations it is the caller's item
    unchanged. *)
Theorem Store_then_Get (cache : gmap string Item) (it : Item)
    (op : ENGINE_STORE_OPERATION) (r : stored) :
  Store max_size cache it op = Return r →
  code r = ENGINE_SUCCESS →
  Get (cache_after r) (key it) = (ENGINE_SUCCESS, Some (item_after r)) ∧
  key (item_after r) = key it ∧ cas (item_after r) = cas it ∧
  flags (item_after r) = flags it ∧ exptime (item_after r) = exptime it ∧
  (op ≠ OPERATION_APPEND → op ≠ OPERATION_PREPEND → item_after r = it).
Proof.
  intros HStore Hcode.
  destruct (Store_returns _ _ _ _ HStore)
    as [[Hne _] | (_ & Hafter & Hkey & Hcas & Hflags & Hexp & Hsame & _)];
    [done |].
  split; [| done]. unfold Get. by rewrite Hafter, lookup_insert_eq.
Qed.

(** X2: a [Store] changes the entry of the item's key at most; when it does
    not answer ENGINE_SUCCESS it changes neither the cache nor the caller's
    item; and it writes the [cas] out-parameter only when it replaces an
    entry, with the caller's own token: a first store of a key leaves [*cas]
    unwritten. *)
Theorem Store_changes_one_key (cache : gmap string Item) (it : Item)
    (op : ENGINE_STORE_OPERATION) (r : stored) :
  Store max_size cache it op = Return r →
  (∀ k, k ≠ key it → cache_after r !! k = cache !! k) ∧
  (code r ≠ ENGINE_SUCCESS → cache_after r = cache ∧ item_after r = it) ∧
  (is_Some (cas_out r) ↔
     code r = ENGINE_SUCCESS ∧ is_Some (cache !! key it)) ∧
  (∀ c, cas_out r = Some c → c = cas it).
Proof.
  intros HStore.
  destruct (Store_returns _ _ _ _ HStore)
    as [(Hne & Hafter & Hitem & Hout)
       | (Hcode & Hafter & Hkey & Hcas & _ & _ & _ & Hout)].
  - rewrite Hafter, Hout. repeat split; try done.
    by intros [? ?].
  - rewrite Hout. split; [| split; [done |]].
    + intros k Hk. by rewrite Hafter, lookup_insert_ne.
    + destruct (cache !! key it) as [second |]; simpl.
      * split; [split; [by split | by eexists] |].
        by intros c [= <-].
      * split; [| done]. split; [by intros [? ?] | by intros [_ [? ?]]].
Qed.

(** X3: [Remove] wants the exact CAS token of the cached item: after a
    successful [Store] a [Remove] of the key with any other token, 0 included,
    answers ENGINE_KEY_EEXISTS and changes nothing; with the caller's token
    it answers ENGINE_SUCCESS, and a [Get] of the key then misses. *)
Theorem Store_then_Remove (cache : gmap string Item) (it : Item)
    (op : ENGINE_STORE_OPERATION) (r : stored) :
  Store max_size cache it op = Return r →
  code r = ENGINE_SUCCESS →
  (∀ c, c ≠ cas it →
     Remove (cache_after r) (key it) c = (ENGINE_KEY_EEXISTS, cache_after r)) ∧
  Remove (cache_after r) (key it) (cas it)
  = (ENGINE_SUCCESS, delete (key it) cache) ∧
  Get (Remove (cache_after r) (key it) (cas it)).2 (key it)
  = (ENGINE_KEY_ENOENT, None).
Proof.
  intros HStore Hcode.
  destruct (Store_returns _ _ _ _ HStore)
    as [[Hne _] | (_ & Hafter & Hkey & Hcas & _)]; [done |].
  assert (Remove (cache_after r) (key it) (cas it)
          = (ENGINE_SUCCESS, delete (key it) cache)) as Hrem.
  { unfold Remove. rewrite Hafter, lookup_insert_eq, Hcas.
    rewrite decide_True by done. by rewrite delete_insert_eq. }
  split; [| split; [done |]].
  - intros c Hc. unfold Remove. rewrite Hafter at 1.
    rewrite lookup_insert_eq, Hcas. by rewrite decide_False.
  - rewrite Hrem. unfold Get. simpl. by rewrite lookup_delete_eq.
Qed.

(** X4: [Flush] with a time other than 0 answers ENGINE_ENOTSUP and keeps
    the cache; with 0 it answers ENGINE_SUCCESS and empties the cache: every
    [Get] and [Remove] then misses, REPLACE, APPEND and PREPEND answer
    ENGINE_KEY_ENOENT, and an ADD, SET or CAS files its item as the only
    entry. *)
Theorem Flush_empties (cache : gmap string Item) (when : Z) :
  (when ≠ 0 → Flush cache when = (ENGINE_ENOTSUP, cache)) ∧
  (Flush cache 0).1 = ENGINE_SUCCESS ∧
  (∀ k, Get (Flush cache 0).2 k = (ENGINE_KEY_ENOENT, None)) ∧
  (∀ k c, (Remove (Flush cache 0).2 k c).1 = ENGINE_KEY_ENOENT) ∧
  (∀ it op,
     op = OPERATION_REPLACE ∨ op = OPERATION_APPEND ∨ op = OPERATION_PREPEND →
     Store max_size (Flush cache 0).2 it op
     = Return (mkStored ENGINE_KEY_ENOENT ∅ it None)) ∧
  (∀ it op,
     op = OPERATION_ADD ∨ op = OPERATION_SET ∨ op = OPERATION_CAS →
     Store max_size (Flush cache 0).2 it op
     = Return (mkStored ENGINE_SUCCESS {[ key it := it ]} it None)).
Proof.
  split; [| split; [done |]].
  - intros Hw. unfold Flush. by rewrite decide_True.
  - simpl. split; [| split; [| split]].
    + intros k. unfold Get. by rewrite lookup_empty.
    + intros k c. unfold Remove. by rewrite lookup_empty.
    + intros it op Hop. unfold Store. rewrite lookup_empty.
      by destruct Hop as [-> | [-> | ->]].
    + intros it op Hop. unfold Store. rewrite lookup_empty.
      destruct Hop as [-> | [-> | ->]]; by rewrite insert_empty.
Qed.

(** X5: [Store] never issues a CAS token: the entry it files carries the
    token the caller supplied.  A token that was accepted once is therefore
    accepted again: after a successful [Store], a SET, REPLACE or CAS of an
    item with the same key and the same token succeeds and replaces the
    entry. *)
Theorem Store_cas_token_reusable (cache : gmap string Item) (it it2 : Item)
    (op op2 : ENGINE_STORE_OPERATION) (r : stored) :
  Store max_size cache it op = Return r →
  code r = ENGINE_SUCCESS →
  key it2 = key it → cas it2 = cas it →
  op2 = OPERATION_SET ∨ op2 = OPERATION_REPLACE ∨ op2 = OPERATION_CAS →
  cas <$> cache_after r !! key it = Some (cas it) ∧
  Store max_size (cache_after r) it2 op2
  = Return (mkStored ENGINE_SUCCESS (<[key it := it2]> cache) it2
              (Some (cas it))).
Proof.
  intros HStore Hcode Hkey2 Hcas2 Hop2.
  destruct (Store_returns _ _ _ _ HStore)
    as [[Hne _] | (_ & Hafter & Hkey & Hcas & _)]; [done |].
  split; [by rewrite Hafter, lookup_insert_eq; simpl; rewrite Hcas |].
  unfold Store. rewrite Hkey2, Hafter, lookup_insert_eq.
  rewrite decide_False by (destruct Hop2 as [-> | [-> | ->]]; done).
  rewrite decide_False by (rewrite Hcas, Hcas2; intros [_ ?]; done).
  rewrite !decide_False by (destruct Hop2 as [-> | [-> | ->]]; done).
  simpl. unfold clone. rewrite Hkey2, Hcas2.
  by rewrite insert_delete_eq, insert_insert_eq.
Qed.

Lemma serve_keyed (cache cache' : gmap string Item) (c : call) :
  keyed cache → serve max_size cache c = Return cache' → keyed cache'.
Proof.
  intros Hkeyed Hserve. destruct c as [it op | k c | k | when]; simpl in Hserve.
  - destruct (Store max_size cache it op) as [r |] eqn:HStore; [| done].
    injection Hserve as <-.
    destruct (Store_returns _ _ _ _ HStore)
      as [(_ & -> & _) | (_ & -> & Hkey & _)]; [done |].
    intros k it' Hk. destruct (decide (key it = k)) as [<- | Hne].
    + rewrite lookup_insert_eq in Hk. by injection Hk as <-.
    + rewrite lookup_insert_ne in Hk by done. by apply Hkeyed.
  - injection Hserve as <-. unfold Remove.
    destruct (cache !! k) as [second |] eqn:Hk; [| done].
    case_decide; [| done]. simpl. intros k' it' Hk'.
    apply lookup_delete_Some in Hk' as [_ Hk']. by apply Hkeyed.
  - by injection Hserve as <-.
  - injection Hserve as <-. unfold Flush. by case_decide.
Qed.

(** X6: in every cache that calls of [Store], [Remove], [Get] and [Flush]
    lead to from the empty cache of a new engine, each entry is filed under
    the key of its item; a [Get] that hits returns an item with the key asked
    for. *)
Theorem cache_keyed_by_item_key (cs : list call) (cache : gmap string Item) :
  serve_all max_size ∅ cs = Return cache →
  keyed cache ∧
  (∀ k it, Get cache k = (ENGINE_SUCCESS, Some it) → key it = k).
Proof.
  intros Hrun.
  assert (keyed cache) as Hkeyed.
  { assert (keyed (∅ : gmap string Item)) as H0 by (by intros k it).
    revert H0 Hrun. generalize (∅ : gmap string Item) as cache0.
    induction cs as [| c cs IH]; intros cache0 H0 Hrun; simpl in Hrun.
    - by injection Hrun as <-.
    - destruct (serve max_size cache0 c) as [cache1 |] eqn:Hserve; [| done].
      eapply IH; [| exact Hrun]. by eapply serve_keyed. }
  split; [done |]. intros k it HGet. unfold Get in HGet.
  destruct (cache !! k) as [second |] eqn:Hk; [| done].
  injection HGet as <-. by apply Hkeyed.
Qed.

Lemma serve_terminated (cache cache' : gmap string Item) (c : call) :
  (∀ k it, cache !! k = Some it → terminated (value it)) →
  Forall (λ it, terminated (value it)) (stored_items [c]) →
  serve max_size cache c = Return cache' →
  ∀ k it, cache' !! k = Some it → terminated (value it).
Proof.
  intros Hall Hc Hserve. destruct c as [it op | k c | k | when]; simpl in Hserve.
  - apply Forall_cons in Hc as [[new Hnew] _].
    destruct (Store max_size cache it op) as [r |] eqn:HStore; [| done].
    injection Hserve as <-. unfold Store in HStore.
    destruct (cache !! key it) as [second |] eqn:Hk.
    + destruct (Hall _ _ Hk) as [old Hold].
      repeat case_decide; try (injection HStore as <-; exact Hall).
      * subst op. unfold append in HStore.
        destruct (resize _ _ _) as [val |]; [| done]. injection HStore as <-.
        simpl. intros k it' Hk'.
        destruct (decide (key it = k)) as [<- | Hne].
        -- rewrite lookup_insert_eq in Hk'. injection Hk' as <-. simpl.
           exists (val ++ new). by rewrite Hnew, app_assoc.
        -- rewrite lookup_insert_ne, lookup_delete_ne in Hk' by done. eauto.
      * subst op. unfold prepend in HStore.
        destruct (resize _ _ _) as [val |]; [| done]. injection HStore as <-.
        simpl. intros k it' Hk'.
        destruct (decide (key it = k)) as [<- | Hne].
        -- rewrite lookup_insert_eq in Hk'. injection Hk' as <-. simpl.
           exists (val ++ old). by rewrite Hold, app_assoc.
        -- rewrite lookup_insert_ne, lookup_delete_ne in Hk' by done. eauto.
      * injection HStore as <-. simpl. intros k it' Hk'.
        destruct (decide (key it = k)) as [<- | Hne].
        -- rewrite lookup_insert_eq in Hk'. injection Hk' as <-. by exists new.
        -- rewrite lookup_insert_ne, lookup_delete_ne in Hk' by done. eauto.
    + destruct op; injection HStore as <-; simpl; try exact Hall;
        intros k it' Hk';
        (destruct (decide (key it = k)) as [<- | Hne];
         [rewrite lookup_insert_eq in Hk'; injection Hk' as <-; by exists new
         | rewrite lookup_insert_ne in Hk' by done; eauto]).
  - injection Hserve as <-. unfold Remove.
    destruct (cache !! k) as [second |] eqn:Hk; [| done].
    case_decide; [| done]. simpl. intros k' it' Hk'.
    apply lookup_delete_Some in Hk' as [_ Hk']. eauto.
  - by injection Hserve as <-.
  - injection Hserve as <-. unfold Flush. by case_decide.
Qed.

(** X7: when every item handed to [Store] has a value that ends in the line
    terminator CR LF, so has every value in the cache, whatever the calls:
    APPEND and PREPEND keep the terminator at the end. *)
Theorem cache_values_stay_terminated (cs : list call)
    (cache : gmap string Item) :
  Forall (λ it, terminated (value it)) (stored_items cs) →
  serve_all max_size ∅ cs = Return cache →
  ∀ k it, cache !! k = Some it → terminated (value it).
Proof.
  intros Hcs Hrun.
  assert (∀ k it, (∅ : gmap string Item) !! k = Some it → terminated (value it))
    as H0 by (by intros k it).
  revert H0 Hcs Hrun. generalize (∅ : gmap string Item) as cache0.
  induction cs as [| c cs IH]; intros cache0 H0 Hcs Hrun; simpl in Hrun.
  - by injection Hrun as <-.
  - destruct (serve max_size cache0 c) as [cache1 |] eqn:Hserve; [| done].
    assert (Forall (λ it, terminated (value it)) (stored_items [c]) ∧
            Forall (λ it, terminated (value it)) (stored_items cs))
      as [Hc Hcs'].
    { unfold stored_items in *. simpl in *.
      destruct c; simpl in *; try (split; [constructor | done]).
      apply Forall_cons in Hcs as [? ?]. split; [by repeat constructor | done]. }
    eapply IH; [| exact Hcs' | exact Hrun].
    by eapply serve_terminated.
Qed.

End STL_Interface.

(** ** The STL engine: allocation and the values of the protocol *)

Section STL_Values.
Import STL STLSpec.

Variable max_size : Z.
Hypothesis max_size_below_npos : 0 <= max_size < SIZE_MAX - 1.

Local Abbreviation fits := (STL.fits max_size).

(** X8: for values that end in the line terminator, as the protocol hands
    them over, the two concatenations come out at the level of the payloads:
    with the cached value [old ++ CRLF] and the caller's [new ++ CRLF], whose
    CAS token passes, APPEND answers ENGINE_SUCCESS and files
    [old ++ new ++ CRLF], and PREPEND answers ENGINE_SUCCESS and files
    [new ++ old ++ CRLF]. *)
Theorem Store_payloads (cache : gmap string Item) (it second : Item)
    (old new : list byte) :
  cache !! key it = Some second →
  ¬ (cas it ≠ 0 ∧ cas it ≠ cas second) →
  value second = old ++ CRLF → value it = new ++ CRLF →
  fits (value second) → fits (value it) →
  (∃ r, Store max_size cache it OPERATION_APPEND = Return r ∧
        code r = ENGINE_SUCCESS ∧
        value <$> cache_after r !! key it = Some (old ++ new ++ CRLF)) ∧
  (∃ r, Store max_size cache it OPERATION_PREPEND = Return r ∧
        code r = ENGINE_SUCCESS ∧
        value <$> cache_after r !! key it = Some (new ++ old ++ CRLF)).
Proof.
  intros Hk Hcas Hold Hnew Hfit2 Hfit.
  assert (∀ p : list byte, 2 <= size (p ++ CRLF)) as Hlen.
  { intros p. unfold size. rewrite length_app. simpl. lia. }
  assert (∀ p : list byte, trim_terminator (p ++ CRLF) = p) as Htrim.
  { intros p. unfold trim_terminator. rewrite length_app. simpl.
    replace (length p + 2 - 2)%nat with (length p) by lia.
    by rewrite take_app_length. }
  split; unfold Store; rewrite Hk; simpl; rewrite decide_False by done.
  - rewrite (append_ok max_size max_size_below_npos)
      by first [rewrite Hold; apply Hlen | done].
    simpl. eexists. split; [done |]. split; [done |].
    cbn [cache_after]. rewrite lookup_insert_eq. simpl. unfold appended.
    by rewrite Hold, Hnew, Htrim.
  - rewrite (prepend_ok max_size max_size_below_npos)
      by first [rewrite Hnew; apply Hlen | done].
    simpl. eexists. split; [done |]. split; [done |].
    cbn [cache_after]. rewrite lookup_insert_eq. simpl.
    by rewrite Hold, Hnew, Htrim.
Qed.

Lemma resize_empty (n : Z) :
  0 <= n <= max_size →
  resize max_size n [] = Return (replicate (Z.to_nat n) Byte.x00).
Proof.
  intros Hn. unfold resize.
  destruct (Z.ltb_spec max_size n) as [Hlt | _]; [lia |].
  simpl. by rewrite take_nil, Nat.sub_0_r.
Qed.

(** X9: [Allocate] always answers ENGINE_SUCCESS, with an item whose CAS
    token is 0 and whose value is all NUL bytes.  Its [size_t] arguments are
    cut to the widths of the constructor's parameters: the key is the first
    [nkey mod 2^16] bytes of the key given and the value has
    [nbytes mod 2^32] bytes; they are the key and the length asked for when
    these are below [2^16] and [2^32]. *)
Theorem Allocate_narrows (key_in : string) (nbytes flags_in exptime_in : Z) :
  2 ^ 32 - 1 <= max_size →
  ∃ it, Allocate max_size key_in nbytes flags_in exptime_in
        = Return (ENGINE_SUCCESS, it) ∧
        key it
        = substring 0 (Z.to_nat (Z.of_nat (String.length key_in) mod 2 ^ 16))
            key_in ∧
        value it = replicate (Z.to_nat (nbytes mod 2 ^ 32)) Byte.x00 ∧
        size (value it) = nbytes mod 2 ^ 32 ∧
        cas it = 0 ∧ flags it = flags_in mod 2 ^ 32 ∧
        exptime it = exptime_in ∧
        (Z.of_nat (String.length key_in) < 2 ^ 16 → key it = key_in) ∧
        (0 <= nbytes < 2 ^ 32 → size (value it) = nbytes).
Proof.
  intros Hmax. unfold Allocate, Item_ctor, to_uint16, to_uint32.
  pose proof (Z.mod_pos_bound nbytes (2 ^ 32) ltac:(lia)) as Hn.
  rewrite resize_empty by lia. simpl.
  eexists. split; [done |]. simpl.
  assert (size (replicate (Z.to_nat (nbytes mod 2 ^ 32)) Byte.x00)
          = nbytes mod 2 ^ 32) as Hsize.
  { unfold size. rewrite length_replicate. lia. }
  repeat split; try done.
  - intros Hlen. rewrite Z.mod_small by lia. rewrite Nat2Z.id.
    apply substring_whole.
  - intros Hb. rewrite Hsize. by apply Z.mod_small.
Qed.

End STL_Values.

(** *** Concrete calls *)

Section STL_Interface_Examples.
Import STL STLSpec.

Lemma Store_then_Get_witness :
  Get {[ "k" := item_k (bytes "cdab" ++ CRLF) 7 ]} "k"
  = (ENGINE_SUCCESS, Some (item_k (bytes "cdab" ++ CRLF) 7)).
Proof.
  refine (proj1 (Store_then_Get libstdcxx_max_size
            {[ "k" := item_k (bytes "cd" ++ CRLF) 7 ]}
            (item_k (bytes "ab" ++ CRLF) 7) OPERATION_APPEND
            (mkStored ENGINE_SUCCESS
               {[ "k" := item_k (bytes "cdab" ++ CRLF) 7 ]}
               (item_k (bytes "cdab" ++ CRLF) 7) (Some 7)) _ _)).
  - vm_compute. reflexivity.
  - reflexivity.
Defined.

Lemma Store_changes_one_key_witness :
  let r := mkStored ENGINE_SUCCESS {[ "k" := item_k (bytes "ab" ++ CRLF) 7 ]}
             (item_k (bytes "ab" ++ CRLF) 7) None in
  is_Some (cas_out r) ↔
  code r = ENGINE_SUCCESS ∧ is_Some ((∅ : gmap string Item) !! "k").
Proof.
  refine (proj1 (proj2 (proj2 (Store_changes_one_key libstdcxx_max_size
            ∅ (item_k (bytes "ab" ++ CRLF) 7) OPERATION_SET
            (mkStored ENGINE_SUCCESS {[ "k" := item_k (bytes "ab" ++ CRLF) 7 ]}
               (item_k (bytes "ab" ++ CRLF) 7) None) _)))).
  vm_compute. reflexivity.
Defined.

Lemma Store_then_Remove_witness :
  Remove {[ "k" := item_k (bytes "ab" ++ CRLF) 7 ]} "k" 7
  = (ENGINE_SUCCESS, delete "k" (∅ : gmap string Item)).
Proof.
  refine (proj1 (proj2 (Store_then_Remove libstdcxx_max_size
            ∅ (item_k (bytes "ab" ++ CRLF) 7) OPERATION_SET
            (mkStored ENGINE_SUCCESS {[ "k" := item_k (bytes "ab" ++ CRLF) 7 ]}
               (item_k (bytes "ab" ++ CRLF) 7) None) _ _))).
  - vm_compute. reflexivity.
  - reflexivity.
Defined.

(** With the token 0 the [Remove] of an item whose token is 7 is refused. *)
Example Remove_token_0_refused :
  Remove {[ "k" := item_k (bytes "ab" ++ CRLF) 7 ]} "k" 0
  = (ENGINE_KEY_EEXISTS, {[ "k" := item_k (bytes "ab" ++ CRLF) 7 ]}).
Proof. vm_compute. reflexivity. Qed.

Lemma Store_cas_token_reusable_witness :
  Store libstdcxx_max_size {[ "k" := item_k (bytes "ab" ++ CRLF) 7 ]}
    (item_k (bytes "xy" ++ CRLF) 7) OPERATION_CAS
  = Return (mkStored ENGINE_SUCCESS
              (<["k" := item_k (bytes "xy" ++ CRLF) 7]>
                 {[ "k" := item_k (bytes "cd" ++ CRLF) 7 ]})
              (item_k (bytes "xy" ++ CRLF) 7) (Some 7)).
Proof.
  refine (proj2 (Store_cas_token_reusable libstdcxx_max_size
            {[ "k" := item_k (bytes "cd" ++ CRLF) 7 ]}
            (item_k (bytes "ab" ++ CRLF) 7) (item_k (bytes "xy" ++ CRLF) 7)
            OPERATION_CAS OPERATION_CAS
            (mkStored ENGINE_SUCCESS {[ "k" := item_k (bytes "ab" ++ CRLF) 7 ]}
               (item_k (bytes "ab" ++ CRLF) 7) (Some 7)) _ _ _ _ _)).
  - vm_compute. reflexivity.
  - reflexivity.
  - reflexivity.
  - reflexivity.
  - right. right. reflexivity.
Defined.

Lemma cache_keyed_by_item_key_witness :
  keyed ({[ "k" := item_k (bytes "cd" ++ CRLF) 0 ]} : gmap string Item) ∧
  (∀ k it, Get {[ "k" := item_k (bytes "cd" ++ CRLF) 0 ]} k
           = (ENGINE_SUCCESS, Some it) → key it = k).
Proof.
  apply (cache_keyed_by_item_key libstdcxx_max_size
           [Call_Store (item_k (bytes "ab" ++ CRLF) 7) OPERATION_SET;
            Call_Remove "k" 0; Call_Flush 0;
            Call_Store (item_k (bytes "cd" ++ CRLF) 0) OPERATION_ADD;
            Call_Get "k"]).
  vm_compute. reflexivity.
Defined.

Lemma cache_values_stay_terminated_witness :
  terminated (value (item_k (bytes "abcd" ++ CRLF) 0)).
Proof.
  apply (cache_values_stay_terminated libstdcxx_max_size
           [Call_Store (item_k (bytes "cd" ++ CRLF) 0) OPERATION_SET;
            Call_Store (item_k (bytes "ab" ++ CRLF) 0) OPERATION_PREPEND]
           {[ "k" := item_k (bytes "abcd" ++ CRLF) 0 ]}
           ltac:(repeat constructor;
                 [by exists (bytes "cd") | by exists (bytes "ab")])
           ltac:(vm_compute; reflexivity) "k").
  reflexivity.
Defined.

Lemma Store_payloads_witness :
  (∃ r, Store libstdcxx_max_size {[ "k" := item_k (bytes "cd" ++ CRLF) 0 ]}
          (item_k (bytes "ab" ++ CRLF) 0) OPERATION_APPEND = Return r ∧
        code r = ENGINE_SUCCESS ∧
        value <$> cache_after r !! "k"
        = Some (bytes "cd" ++ bytes "ab" ++ CRLF)) ∧
  (∃ r, Store libstdcxx_max_size {[ "k" := item_k (bytes "cd" ++ CRLF) 0 ]}
          (item_k (bytes "ab" ++ CRLF) 0) OPERATION_PREPEND = Return r ∧
        code r = ENGINE_SUCCESS ∧
        value <$> cache_after r !! "k"
        = Some (bytes "ab" ++ bytes "cd" ++ CRLF)).
Proof.
  apply (Store_payloads libstdcxx_max_size
           ltac:(vm_compute; split; [intros H | split; intros H]; discriminate H)
           {[ "k" := item_k (bytes "cd" ++ CRLF) 0 ]}
           (item_k (bytes "ab" ++ CRLF) 0) (item_k (bytes "cd" ++ CRLF) 0)
           (bytes "cd") (bytes "ab")).
  - reflexivity.
  - intros [H _]. by apply H.
  - reflexivity.
  - reflexivity.
  - vm_compute. intros H; discriminate H.
  - vm_compute. intros H; discriminate H.
Defined.

Lemma Allocate_narrows_witness :
  ∃ it, Allocate libstdcxx_max_size "k" (2 ^ 32 + 3) 0 0
        = Return (ENGINE_SUCCESS, it) ∧
        key it = substring 0 (Z.to_nat (Z.of_nat (String.length "k") mod 2 ^ 16))
                   "k" ∧
        value it = replicate (Z.to_nat ((2 ^ 32 + 3) mod 2 ^ 32)) Byte.x00 ∧
        size (value it) = (2 ^ 32 + 3) mod 2 ^ 32 ∧
        cas it = 0 ∧ flags it = 0 mod 2 ^ 32 ∧ exptime it = 0 ∧
        (Z.of_nat (String.length "k") < 2 ^ 16 → key it = "k") ∧
        (0 <= 2 ^ 32 + 3 < 2 ^ 32 → size (value it) = 2 ^ 32 + 3).
Proof.
  apply (Allocate_narrows libstdcxx_max_size).
  vm_compute. intros H; discriminate H.
Defined.

(** Asked for [2^32 + 3] bytes, [Allocate] gives a value of 3 bytes. *)
Example Allocate_wraps_at_4G :
  Allocate libstdcxx_max_size "k" (2 ^ 32 + 3) 0 0
  = Return (ENGINE_SUCCESS, item_k [Byte.x00; Byte.x00; Byte.x00] 0).
Proof. vm_compute. reflexivity. Qed.

End STL_Interface_Examples.

(** ** [std::map]: assigning twice *)

Section StdMap_Assignments.
Import StdMap.
Context {K V : Type} `{StrictCmp K}.
Implicit Types (k : K) (v : V) (m : list (K * V)).

(** [m[k] = v; m[k] = v';] leaves what [m[k] = v';] leaves. *)
Lemma insert_insert k v v' m : insert k v' (insert k v m) = insert k v' m.
Proof.
  induction m as [| [k0 v0] m IH]; simpl.
  - by rewrite cmp_refl.
  - destruct (cmp k k0) eqn:E; simpl; rewrite ?cmp_refl, ?E; [done | done |].
    by rewrite IH.
Qed.

End StdMap_Assignments.

(** ** The persistent engine: the accessors of an item *)

Section Item_Accessors.
Import Persistent.

Lemma with_cas_odd (it : hash_item) :
  Z.land (iflag it) ITEM_WITH_CAS ≠ 0 ↔ Z.odd (iflag it) = true.
Proof.
  unfold ITEM_WITH_CAS. change 1 with (Z.ones 1).
  rewrite Z.land_ones by lia. change (2 ^ 1) with 2.
  rewrite Zmod_odd. by destruct (Z.odd (iflag it)).
Qed.

Lemma item_get_cas_odd (it : hash_item) :
  item_get_cas it = if Z.odd (iflag it) then cas_slot it else 0.
Proof.
  unfold item_get_cas. pose proof (with_cas_odd it) as Hodd.
  destruct (Z.odd (iflag it)); case_decide; try done.
  - by destruct (proj2 Hodd eq_refl).
  - by apply Hodd in H.
Qed.

Lemma item_set_cas_odd (it : hash_item) (val : Z) :
  item_set_cas it val = if Z.odd (iflag it) then set_cas_slot val it else it.
Proof.
  unfold item_set_cas. pose proof (with_cas_odd it) as Hodd.
  destruct (Z.odd (iflag it)); case_decide; try done.
  - by destruct (proj2 Hodd eq_refl).
  - by apply Hodd in H.
Qed.

(** X10: [item_set_cas] followed by [item_get_cas] gives the value back
    exactly when the item has the flag ITEM_WITH_CAS, the lowest bit of
    [iflag]; without it the set changes nothing and the get answers 0.  The
    set changes no other field, and the bits ITEM_LINKED and ITEM_SLABBED do
    not matter. *)
Theorem item_cas_round_trip (it : hash_item) (val : Z) :
  item_get_cas (item_set_cas it val) = (if Z.odd (iflag it) then val else 0) ∧
  set_cas_slot 0 (item_set_cas it val) = set_cas_slot 0 it ∧
  (Z.odd (iflag it) = false → item_set_cas it val = it) ∧
  item_get_cas (set_iflag (Z.lor (iflag it) ITEM_LINKED) it) = item_get_cas it ∧
  item_get_cas (set_iflag (Z.lor (iflag it) ITEM_SLABBED) it) = item_get_cas it.
Proof.
  assert (∀ b, Z.odd (Z.lor (iflag it) (Z.shiftl b 8)) = Z.odd (iflag it))
    as Hbit.
  { intros b. rewrite <- !Z.bit0_odd, Z.lor_spec, Z.shiftl_spec by lia.
    rewrite (Z.testbit_neg_r b) by lia. apply orb_false_r. }
  rewrite !item_get_cas_odd, item_set_cas_odd. simpl.
  unfold ITEM_LINKED, ITEM_SLABBED. rewrite !Hbit.
  destruct (Z.odd (iflag it)) eqn:Hodd; simpl; rewrite ?Hodd; repeat split; done.
Qed.

End Item_Accessors.

(** ** The persistent engine and the table *)

Section Engine_And_Table.
Import Persistent.
Context {A : Type} `{ItemsLayer A}.
Implicit Types (e : persistent_engine A) (c : cache A).

Variable item_flush_expired : cache A → Z → cache A.

Lemma persistent_item_delete_sides e (cookie : cookie) (key : string)
    (cas : Z) :
  let e1 := (persistent_item_delete e cookie key cas).2 in
  kv e1 = kv e ∧ kv_log e1 = kv_log e ∧ writer_queue e1 = writer_queue e ∧
  io_complete e1 = io_complete e ∧
  (∀ it c, item_get (store e) key = (Some it, c) →
     reader_queue e1 = reader_queue e ∧
     store e1 = item_release (item_unlink c it) it).
Proof.
  unfold persistent_item_delete, persistent_get.
  destruct (item_get (store e) key) as [[it |] c] eqn:Hget; simpl.
  - do 4 (split; [done |]). by intros it' c' [= <- <-].
  - do 4 (split; [done |]). by intros it' c'.
Qed.

(** X11: [persistent_item_delete] and [persistent_flush] work on the cache
    only: both answer ENGINE_SUCCESS and leave the sqlite table, the
    write-behind queue and the notifications as they are, so the row of a
    deleted key stays in the table.  A delete that hits unlinks the item and
    releases the reference its lookup took. *)
Theorem delete_and_flush_leave_table e (cookie : cookie) (key : string)
    (cas : Z) (when : Z) :
  let e1 := (persistent_item_delete e cookie key cas).2 in
  let e2 := (persistent_flush item_flush_expired e when).2 in
  (persistent_item_delete e cookie key cas).1 = ENGINE_SUCCESS ∧
  kv e1 = kv e ∧ kv_log e1 = kv_log e ∧ writer_queue e1 = writer_queue e ∧
  io_complete e1 = io_complete e ∧
  (∀ it c, item_get (store e) key = (Some it, c) →
     reader_queue e1 = reader_queue e ∧
     store e1 = item_release (item_unlink c it) it) ∧
  (∀ r, kv e !! key = Some r → kv e1 !! key = Some r) ∧
  (persistent_flush item_flush_expired e when).1 = ENGINE_SUCCESS ∧
  same_io e e2.
Proof.
  cbv zeta.
  destruct (persistent_item_delete_sides e cookie key cas)
    as (Hkv & Hlog & Hw & Hio & Hhit).
  split; [apply persistent_item_delete_returns_success |].
  do 4 (split; [done |]). split; [exact Hhit |].
  split; [intros r Hr; by rewrite Hkv |].
  split; [done | apply same_io_set_store].
Qed.

Lemma SQLiteReader_run_single e (cookie : cookie) (key : string)
    (fuel : nat) :
  reader_queue e = [(cookie, key)] →
  io_complete (SQLiteReader_run (S fuel) e)
  = io_complete e ++
    [(cookie, if found_and_allocated e key then ENGINE_SUCCESS
              else ENGINE_KEY_ENOENT)].
Proof.
  intros Hq. simpl. unfold reader_pop. rewrite Hq. simpl.
  destruct (reader_serve_spec (set_reader_queue [] e) cookie key)
    as (Hq' & _ & Hio).
  rewrite found_and_allocated_set_reader_queue in Hio. simpl in Hq', Hio.
  assert (∀ e3, reader_queue e3 = [] → SQLiteReader_run fuel e3 = e3) as Hidle.
  { intros e3 He3. destruct fuel as [| fuel]; [done |]. simpl.
    unfold reader_pop. by rewrite He3. }
  by rewrite Hidle.
Qed.

(** X12: the read-through queue has one place for each cookie.  When two
    [get]s of the same caller miss before the worker runs, the request of the
    second takes the place of the first: the worker then makes one call of
    [notify_io_complete] for the caller, for the second key, and none for the
    first. *)
Theorem reader_one_request_per_cookie e (cookie : cookie) (k1 k2 : string)
    c1 c2 (fuel : nat) :
  (String.length k1 ≤ 250)%nat → (String.length k2 ≤ 250)%nat →
  item_get (store e) k1 = (None, c1) →
  item_get c1 k2 = (None, c2) →
  let e1 := (persistent_get e cookie k1).2 in
  let e2 := (persistent_get e1 cookie k2).2 in
  (persistent_get e cookie k1).1.1 = ENGINE_EWOULDBLOCK ∧
  (persistent_get e1 cookie k2).1.1 = ENGINE_EWOULDBLOCK ∧
  reader_queue e2 = StdMap.insert cookie k2 (reader_queue e) ∧
  (reader_queue e = [] →
   io_complete (SQLiteReader_run (S fuel) e2)
   = io_complete e ++
     [(cookie, if found_and_allocated e2 k2 then ENGINE_SUCCESS
               else ENGINE_KEY_ENOENT)]).
Proof.
  intros Hlen1 Hlen2 Hget1 Hget2.
  assert (persistent_get e cookie k1
          = (ENGINE_EWOULDBLOCK, None,
             SQLiteReader_enqueue (set_store c1 e) cookie k1)) as ->.
  { unfold persistent_get, sqlite_io_get_item. rewrite Hget1.
    by rewrite std_string_whole. }
  cbn [fst snd].
  assert (persistent_get (SQLiteReader_enqueue (set_store c1 e) cookie k1)
            cookie k2
          = (ENGINE_EWOULDBLOCK, None,
             SQLiteReader_enqueue
               (set_store c2 (SQLiteReader_enqueue (set_store c1 e) cookie k1))
               cookie k2)) as ->.
  { unfold persistent_get, sqlite_io_get_item. simpl. rewrite Hget2.
    by rewrite std_string_whole. }
  cbn [fst snd]. split; [done |]. split; [done |].
  assert (∀ q, StdMap.insert cookie k2 (StdMap.insert cookie k1 q)
               = StdMap.insert cookie k2 q) as Hins
    by (intros q; apply insert_insert).
  split; [apply Hins |].
  intros Hempty.
  rewrite (SQLiteReader_run_single _ cookie k2).
  - done.
  - simpl. by rewrite Hins, Hempty.
Qed.

Lemma to_int_uint32 (n : Z) :
  0 <= n < 2 ^ 32 → to_int n = if decide (n < 2 ^ 31) then n else n - 2 ^ 32.
Proof.
  intros Hn. unfold to_int. case_decide.
  - rewrite Z.mod_small; lia.
  - rewrite <- (Z.mod_unique (n + 2 ^ 31) (2 ^ 32) 1 (n + 2 ^ 31 - 2 ^ 32)); lia.
Qed.

(** X13: what the writer stores does not come back as it was.  The writer
    stores an item's flags and expiry time, both [uint32_t], through
    [sqlite3_bind_int] in the columns [flags] and [exptime], and 0 in [hash]:
    a value below 2^31 reaches the table as it is, a value from 2^31 on as
    the value less 2^32.  The reader takes the new item's flags from the
    column [exptime] and its expiry time from the column [hash].  An item read
    back is therefore allocated with the stored expiry time as its flags and
    with the expiry time 0, whatever its flags were; its data is the data
    stored. *)
Theorem reader_restores_exptime_as_flags e e2 (p : item_ptr)
    (itm : hash_item) :
  mem (store e) !! p = Some itm →
  0 <= flags itm < 2 ^ 32 → 0 <= exptime itm < 2 ^ 32 →
  kv e2 = kv (SQLiteWriter_storeItem e p) →
  let bound (n : Z) := if decide (n < 2 ^ 31) then n else n - 2 ^ 32 in
  let flags_given := bound (exptime itm) in
  let exptime_given := 0 in
  kv e2 !! key itm
  = Some (mk_row (bound (flags itm)) (bound (exptime itm)) 0 (data itm)) ∧
  readItem e2 (key itm)
  = match persistent_item_allocate e2 (key itm) (nbytes itm)
            flags_given exptime_given with
    | (ENGINE_SUCCESS, Some q, e3) =>
        (true,
         (store_item (update_item e3 q (memcpy_data (data itm))) q
            OPERATION_ADD false).2)
    | (_, _, e3) => (false, e3)
    end.
Proof.
  intros Hitm Hflags Hexptime Hkv. cbv beta zeta.
  rewrite <- !to_int_uint32 by done.
  assert (kv e2 !! key itm
          = Some (mk_row (to_int (flags itm)) (to_int (exptime itm)) 0
                    (data itm))) as Hrow.
  { rewrite Hkv. unfold SQLiteWriter_storeItem. rewrite Hitm. simpl.
    apply lookup_insert_eq. }
  split; [done |].
  unfold readItem. rewrite Hrow. unfold createItem.
  unfold sqlite3_column_bytes, sqlite3_column_int, sqlite3_column_text.
  cbn [lookup list_lookup Nat.add row_flags row_exptime row_hash row_value].
  fold (nbytes itm).
  destruct (persistent_item_allocate e2 (key itm) (nbytes itm)
              (to_int (exptime itm)) 0) as [[r it] e3].
  destruct r, it as [q |]; try done.
  by destruct (store_item _ _ _ _) as [[r' cas'] e4].
Qed.

(** X14: [storeItem] steps its statement until sqlite answers SQLITE_DONE or
    SQLITE_CONSTRAINT and takes every other answer as a reason to step again:
    while such answers keep coming it does not return.  When it returns, the
    worker releases the item, whether the row was written (SQLITE_DONE) or
    not (SQLITE_CONSTRAINT): the failure reaches nobody. *)
Theorem storeItem_steps_until_done e (item : item_ptr) (retried rest : list Z) :
  Forall (λ rc, rc ≠ SQLITE_DONE ∧ rc ≠ SQLITE_CONSTRAINT) retried →
  storeItem_loop retried true = None ∧
  writer_persist_on e item retried = None ∧
  storeItem_loop (retried ++ SQLITE_DONE :: rest) true
  = Some (true, S (length retried)) ∧
  storeItem_loop (retried ++ SQLITE_CONSTRAINT :: rest) true
  = Some (false, S (length retried)) ∧
  writer_persist_on e item (retried ++ SQLITE_DONE :: rest)
  = Some (writer_persist e item) ∧
  writer_persist_on e item (retried ++ SQLITE_CONSTRAINT :: rest)
  = Some (persistent_item_release e item).
Proof.
  intros Hretried.
  assert (storeItem_loop retried true = None ∧
          storeItem_loop (retried ++ SQLITE_DONE :: rest) true
          = Some (true, S (length retried)) ∧
          storeItem_loop (retried ++ SQLITE_CONSTRAINT :: rest) true
          = Some (false, S (length retried))) as (Hnone & Hdone & Hcons).
  { induction Hretried as [| rc retried [Hd Hc] _ (IH1 & IH2 & IH3)]; simpl.
    - done.
    - rewrite !(decide_False _ _ Hc), !(decide_False _ _ Hd).
      by rewrite IH1, IH2, IH3. }
  unfold writer_persist_on, SQLiteWriter_storeItem_on, writer_persist.
  rewrite Hnone, Hdone, Hcons. done.
Qed.

Lemma SQLiteCacheWarmup_run_same_io e (steps : list (Z * list column)) :
  same_io e (SQLiteCacheWarmup_run e steps).
Proof.
  revert e. induction steps as [| [rc cols] steps IH]; intros e; simpl.
  - apply same_io_refl.
  - case_decide; [| apply same_io_refl].
    eapply same_io_trans; [| apply IH]. apply createItem_spec.
Qed.

(** X15: the warm-up changes the cache only: it makes no call of
    [notify_io_complete] and leaves the two queues and the table as they are.
    It makes an item of every row until the first answer of [sqlite3_step]
    that is not SQLITE_ROW, an error as well as SQLITE_DONE, and of none
    after it; a row it loads the way the read-through worker loads the row of
    that key. *)
Theorem warmup_loads_rows_until_other_result e
    (rows rest : list (Z * list column)) (rc : Z) (cols : list column) :
  Forall (λ step, step.1 = SQLITE_ROW) rows →
  rc ≠ SQLITE_ROW →
  SQLiteCacheWarmup_run e (rows ++ (rc, cols) :: rest)
  = SQLiteCacheWarmup_run e rows ∧
  same_io e (SQLiteCacheWarmup_run e rows) ∧
  (∀ key r, kv e !! key = Some r →
     SQLiteCacheWarmup_run e [(SQLITE_ROW, warmup_columns key r)]
     = (readItem e key).2).
Proof.
  intros Hrows Hrc. split; [| split].
  - revert e. induction Hrows as [| [rc0 cols0] rows Hrow _ IH]; intros e.
    + cbn [app SQLiteCacheWarmup_run]. by case_decide.
    + simpl in Hrow. subst rc0. cbn [app SQLiteCacheWarmup_run].
      case_decide; [apply IH | done].
  - apply SQLiteCacheWarmup_run_same_io.
  - intros key r Hr. cbn [SQLiteCacheWarmup_run]. case_decide; [| done].
    unfold readItem. rewrite Hr. unfold warmup_columns, reader_columns.
    unfold sqlite3_column_text at 1. simpl.
    unfold bytes. by rewrite string_of_list_byte_of_string.
Qed.

Lemma store_item_leaves_reader e (item : item_ptr)
    (op : ENGINE_STORE_OPERATION) (persist : bool) :
  let e' := (store_item e item op persist).2 in
  reader_queue e' = reader_queue e ∧ io_complete e' = io_complete e ∧
  kv e' = kv e ∧ kv_log e' = kv_log e.
Proof.
  unfold store_item.
  destruct (do_store_item (store e) item op) as [[ret [it |]] c]; simpl;
    [| done].
  destruct persist; [| done].
  unfold sqlite_io_store_item, SQLiteWriter_enqueue. simpl.
  destruct (mem c !! it) as [itm |]; [| done]. simpl.
  by destruct (StdMap.find _ _).
Qed.

(** X18: [persistent_arithmetic] works on the cache and the write-behind
    queue only: whatever it answers, it has put no request in the
    read-through queue, made no notification and left the table as it is.  A
    key that is in the table but not in the cache is absent to it: without
    [create] the answer is ENGINE_KEY_ENOENT. *)
Theorem persistent_arithmetic_never_reads_table (fuel : nat) e (key : string)
    (increment create : bool) (delta initial exptime : Z) (out out' : arith_out)
    (ret : ENGINE_ERROR_CODE) e' :
  persistent_arithmetic fuel e key increment create delta initial exptime out
  = Some (ret, out', e') →
  reader_queue e' = reader_queue e ∧ io_complete e' = io_complete e ∧
  kv e' = kv e ∧ kv_log e' = kv_log e ∧
  (∀ c, item_get (store e) key = (None, c) → create = false →
     ret = ENGINE_KEY_ENOENT ∧ out' = out ∧ e' = set_store c e).
Proof.
  revert e out. induction fuel as [| fuel IH]; intros e out Hrun; [done |].
  simpl in Hrun.
  destruct (item_get (store e) key) as [[item |] c] eqn:Hget.
  - destruct (add_delta c item increment delta) as [[r written] c'].
    injection Hrun as <- <- <-. by repeat split.
  - destruct create; simpl in Hrun.
    + destruct (item_alloc c key 0 exptime _) as [[item |] c'] eqn:Halloc;
        [| injection Hrun as <- <- <-; by repeat split].
      match type of Hrun with
      | context [store_item ?e0 item OPERATION_ADD true] =>
          pose proof (store_item_leaves_reader e0 item OPERATION_ADD true)
            as (Hq & Hio & Hkv & Hlog);
          destruct (store_item e0 item OPERATION_ADD true) as [[r cas] e4]
      end.
      simpl in Hq, Hio, Hkv, Hlog.
      case_decide.
      * apply IH in Hrun as (Hq' & Hio' & Hkv' & Hlog' & _). simpl in *.
        repeat split; try congruence. all: by intros.
      * injection Hrun as <- <- <-. simpl. repeat split; try congruence.
        all: by intros.
    + injection Hrun as <- <- <-. repeat split; try done. congruence.
Qed.

End Engine_And_Table.

(** ** The persistent engine: initialisation and statistics *)

Section Initialize_Stages.
Import Persistent.

Lemma create_table_loop_none (rcs : list Z) :
  create_table_loop rcs = None ↔ SQLITE_DONE ∉ rcs.
Proof.
  induction rcs as [| rc rcs IH]; simpl.
  - split; [intros _; apply not_elem_of_nil | done].
  - destruct (decide (rc ≠ SQLITE_DONE)) as [Hrc | Hrc].
    + rewrite fmap_None, IH, not_elem_of_cons.
      split; [by intros ? | by intros [_ ?]].
    + apply dec_stable in Hrc as ->. split; [done |].
      intros Hnot. destruct Hnot. left.
Qed.

Lemma create_table_loop_steps (retried rest : list Z) :
  Forall (λ rc, rc ≠ SQLITE_DONE) retried →
  create_table_loop (retried ++ SQLITE_DONE :: rest) = Some (S (length retried)).
Proof.
  intros Hretried. induction Hretried as [| rc retried Hrc _ IH]; simpl.
  - done.
  - rewrite decide_True by done. by rewrite IH.
Qed.

Lemma initialize_with_cases (query : string) (a : sqlite_answers) :
  (initialize_with query a = None ↔ enters_loop a ∧ SQLITE_DONE ∉ step_rcs a) ∧
  (∀ this, initialize_with query a = Some (true, this) ↔
           comes_up a ∧ this = mk_SQLite true (Some query)) ∧
  (∀ this, initialize_with query a = Some (false, this) →
           ¬ comes_up a ∧ statement this = None).
Proof.
  unfold initialize_with, SQLite_initialize, comes_up, enters_loop.
  pose proof (create_table_loop_none (step_rcs a)) as Hloop.
  destruct (decide (open_rc a ≠ SQLITE_OK)) as [Hopen | Hopen]; simpl.
  { split; [| split]; [(intuition (subst; simpl; congruence)) | (intuition (subst; simpl; congruence)) |].
    intros this [= <-]. (intuition (subst; simpl; congruence)). }
  apply dec_stable in Hopen.
  destruct (decide (prepare_table_rc a ≠ SQLITE_OK)) as [Hprep | Hprep]; simpl.
  { split; [| split]; [(intuition (subst; simpl; congruence)) | (intuition (subst; simpl; congruence)) |].
    intros this [= <-]. (intuition (subst; simpl; congruence)). }
  apply dec_stable in Hprep.
  destruct (create_table_loop (step_rcs a)) as [n |] eqn:Hsteps; simpl.
  - assert (SQLITE_DONE ∈ step_rcs a) as Hdone.
    { destruct (decide (SQLITE_DONE ∈ step_rcs a)) as [| Hnot]; [done |].
      apply Hloop in Hnot. done. }
    destruct (decide (prepare_statement_rc a ≠ SQLITE_OK)) as [Hstmt | Hstmt].
    + split; [| split]; [(intuition (subst; simpl; congruence)) | (intuition (subst; simpl; congruence)) |].
      intros this [= <-]. (intuition (subst; simpl; congruence)).
    + apply dec_stable in Hstmt. split; [| split]; [(intuition (subst; simpl; congruence)) | | done].
      intros this. split; [intros [= <-]; (intuition (subst; simpl; congruence)) | intros [_ ->]; done].
  - split; [| split]; [| (intuition (subst; simpl; congruence)) | done].
    split; [intros _ | done]. split; [done |]. by apply Hloop.
Qed.

Lemma initialize_with_outcome (query : string) (a : sqlite_answers) :
  (initialize_with query a = None ∧
   (enters_loop a ∧ SQLITE_DONE ∉ step_rcs a) ∧ ¬ comes_up a) ∨
  (initialize_with query a = Some (true, mk_SQLite true (Some query)) ∧
   ¬ (enters_loop a ∧ SQLITE_DONE ∉ step_rcs a) ∧ comes_up a) ∨
  (∃ this, initialize_with query a = Some (false, this) ∧
           statement this = None ∧
           ¬ (enters_loop a ∧ SQLITE_DONE ∉ step_rcs a) ∧ ¬ comes_up a).
Proof.
  destruct (initialize_with_cases query a) as (Hnone & Htrue & Hfalse).
  destruct (initialize_with query a) as [[[] this] |] eqn:Hrun.
  - right. left. destruct (proj1 (Htrue this) eq_refl) as [Hup ->].
    split; [done |]. split; [| done].
    intros Hloop. by apply Hnone in Hloop.
  - right. right. exists this. destruct (Hfalse this eq_refl) as [Hdown Hstmt].
    do 2 (split; [done |]). split; [| done].
    intros Hloop. by apply Hnone in Hloop.
  - left. split; [done |]. split; [by apply Hnone |].
    intros Hup.
    discriminate (proj2 (Htrue (mk_SQLite true (Some query))) (conj Hup eq_refl)).
Qed.

(** X16: the starting of the workers, on the answers of sqlite.
    [SQLite::initialize] steps CREATE TABLE until sqlite answers SQLITE_DONE,
    whatever else it answers: [sqlite_io_start_threads] does not return
    exactly when an [initialize] that it reaches has entered this loop and
    no SQLITE_DONE comes.  When it returns, it answers ENGINE_SUCCESS exactly
    when the reader and the writer have opened the database and prepared
    both their statements and both their threads were created, and
    ENGINE_FAILED otherwise; [engine->reader] and [engine->writer] are set
    exactly when both objects came up.  On ENGINE_SUCCESS the threads are
    the reader's, the writer's and, when configured and created, the
    warm-up's; on ENGINE_FAILED the reader's thread runs all the same when
    only the writer's could not be created.  The result of the warm-up's
    [initialize] is not looked at: its thread is started without a prepared
    statement when the object did not come up. *)
Theorem sqlite_io_start_threads_stages (env : io_env) (config : config) :
  let r := sqlite env Reader (dbname config) in
  let w := sqlite env Writer (dbname config) in
  let u := sqlite env Warmup (dbname config) in
  let run := sqlite_io_start_threads_on env config in
  (run = None ↔
   (enters_loop r ∧ SQLITE_DONE ∉ step_rcs r) ∨
   (comes_up r ∧ enters_loop w ∧ SQLITE_DONE ∉ step_rcs w) ∨
   (comes_up r ∧ comes_up w ∧
    pthread_create env Reader = 0 ∧ pthread_create env Writer = 0 ∧
    warmup config = true ∧ enters_loop u ∧ SQLITE_DONE ∉ step_rcs u)) ∧
  (∀ rc th, run = Some (rc, th) →
     (rc = ENGINE_SUCCESS ↔
      comes_up r ∧ comes_up w ∧
      pthread_create env Reader = 0 ∧ pthread_create env Writer = 0) ∧
     (rc ≠ ENGINE_SUCCESS → rc = ENGINE_FAILED) ∧
     (is_Some (engine_reader th) ↔ comes_up r ∧ comes_up w) ∧
     (is_Some (engine_writer th) ↔ comes_up r ∧ comes_up w) ∧
     (rc = ENGINE_SUCCESS →
      (threads th).*1
      = [Reader; Writer]
        ++ if warmup config && bool_decide (pthread_create env Warmup = 0)
           then [Warmup] else []) ∧
     (rc = ENGINE_FAILED →
      (threads th).*1
      = if bool_decide (is_Some (engine_reader th)
                        ∧ pthread_create env Reader = 0)
        then [Reader] else []) ∧
     (∀ this, (Warmup, this) ∈ threads th → ¬ comes_up u →
              statement this = None)).
Proof.
  cbv zeta. unfold sqlite_io_start_threads_on.
  unfold SQLiteReader_initialize, SQLiteWriter_initialize,
    SQLiteCacheWarmup_initialize.
  set (qr := "SELECT flags, exptime, hash, value FROM kv where key = ?").
  set (qw := String "I" _).
  set (qu := "SELECT key, flags, exptime, hash, value FROM kv").
  destruct (initialize_with_outcome qr (sqlite env Reader (dbname config)))
    as [(-> & Hr1 & Hr2) | [(-> & Hr1 & Hr2) | (reader & -> & _ & Hr1 & Hr2)]];
    cbn [mbind option_bind negb].
  { split; [split; [by left | done] | done]. }
  2: { split; [split; [done | tauto] |]. intros rc th [= <- <-].
       cbn [engine_reader engine_writer threads fmap list_fmap].
       rewrite (bool_decide_eq_false_2 (is_Some _ ∧ _)) by (by intros [?%is_Some_None _]).
       repeat split; try done; try (unfold comes_up, enters_loop in *; tauto); try (by intros [? ?]).
       intros this Hin. by apply elem_of_nil in Hin. }
  destruct (initialize_with_outcome qw (sqlite env Writer (dbname config)))
    as [(-> & Hw1 & Hw2) | [(-> & Hw1 & Hw2) | (writer & -> & _ & Hw1 & Hw2)]];
    cbn [mbind option_bind negb].
  { split; [split; [by right; left | done] | done]. }
  2: { split; [split; [done | tauto] |]. intros rc th [= <- <-].
       cbn [engine_reader engine_writer threads fmap list_fmap].
       rewrite (bool_decide_eq_false_2 (is_Some _ ∧ _)) by (by intros [?%is_Some_None _]).
       repeat split; try done; try (unfold comes_up, enters_loop in *; tauto); try (by intros [? ?]).
       intros this Hin. by apply elem_of_nil in Hin. }
  destruct (decide (pthread_create env Reader ≠ 0)) as [Hpr | Hpr].
  { split; [split; [done | tauto] |]. intros rc th [= <- <-].
    cbn [engine_reader engine_writer threads fmap list_fmap].
    rewrite (bool_decide_eq_false_2 (is_Some _ ∧ _)) by (by intros [_ ?]).
    repeat split; try done; try (unfold comes_up, enters_loop in *; tauto); try (by eexists).
    intros this Hin. by apply elem_of_nil in Hin. }
  apply dec_stable in Hpr.
  destruct (decide (pthread_create env Writer ≠ 0)) as [Hpw | Hpw].
  { split; [split; [done | tauto] |]. intros rc th [= <- <-].
    cbn [engine_reader engine_writer threads fmap list_fmap fst].
    rewrite (bool_decide_eq_true_2 (is_Some _ ∧ _)) by (split; [by eexists | done]).
    repeat split; try done; try (unfold comes_up, enters_loop in *; tauto); try (by eexists).
    intros this Hin. by apply list_elem_of_singleton in Hin. }
  apply dec_stable in Hpw.
  destruct (warmup config) eqn:Hwarm; cbn [andb].
  2: { split; [split; [done | intros [? | [? | (_ & _ & _ & _ & ? & _)]];
                               [tauto | tauto | done]] |].
       intros rc th [= <- <-].
       cbn [engine_reader engine_writer threads fmap list_fmap fst].
       repeat split; try done;
         try (unfold comes_up, enters_loop in *; tauto); try (by eexists).
       intros this Hin _.
       apply elem_of_cons in Hin as [[=] | Hin].
       by apply list_elem_of_singleton in Hin. }
  destruct (initialize_with_outcome qu (sqlite env Warmup (dbname config)))
    as [(-> & Hu1 & Hu2) | [(-> & Hu1 & Hu2) | (cache_warmup & -> & Hstmt & Hu1 & Hu2)]];
    cbn [mbind option_bind].
  { split; [split; [intros _; right; right; tauto | done] | done]. }
  all: split; [split; [done | tauto] |]; intros rc th [= <- <-].
  all: cbn [engine_reader engine_writer threads fmap list_fmap fst app].
  all: repeat split; try done;
         try (unfold comes_up, enters_loop in *; tauto); try (by eexists).
  all: try (intros _; case_bool_decide; by rewrite ?decide_True, ?decide_False by done).
  all: intros this Hin Hdown.
  all: apply elem_of_cons in Hin as [[=] | Hin].
  all: apply elem_of_cons in Hin as [[=] | Hin].
  all: case_decide; [apply list_elem_of_singleton in Hin as [= ->]
                    | by apply elem_of_nil in Hin]; done.
Qed.

(** The initialisation further up takes the results of the two [initialize]
    as booleans of its environment.  When these are the results that the
    calls of sqlite give, and the threads are created alike, its
    [sqlite_io_start_threads] answers as the function does on the calls,
    whenever that returns. *)
Lemma sqlite_io_start_threads_agrees {A : Type} (ienv : init_env (A := A))
    (env : io_env) (c : cache A) (rc : ENGINE_ERROR_CODE) (th : io_threads) :
  sqlite_io_start_threads_on env (cfg c) = Some (rc, th) →
  (reader_initialize ienv (dbname (cfg c)) = true ↔
   comes_up (sqlite env Reader (dbname (cfg c)))) →
  (writer_initialize ienv (dbname (cfg c)) = true ↔
   comes_up (sqlite env Writer (dbname (cfg c)))) →
  pthread_create_reader ienv = pthread_create env Reader →
  pthread_create_writer ienv = pthread_create env Writer →
  sqlite_io_start_threads ienv c = rc.
Proof.
  intros Hrun Hreader Hwriter Hpr Hpw.
  unfold sqlite_io_start_threads. rewrite Hpr, Hpw.
  unfold sqlite_io_start_threads_on, SQLiteReader_initialize,
    SQLiteWriter_initialize in Hrun.
  destruct (initialize_with_outcome
              "SELECT flags, exptime, hash, value FROM kv where key = ?"
              (sqlite env Reader (dbname (cfg c))))
    as [(Hr & _) | [(Hr & _ & Hr2) | (reader & Hr & _ & _ & Hr2)]];
    rewrite Hr in Hrun; cbn [mbind option_bind negb] in Hrun; [done | |].
  2: { injection Hrun as <- _.
       destruct (reader_initialize ienv _); [by destruct Hr2; apply Hreader | done]. }
  rewrite (proj2 Hreader Hr2). cbn [negb orb].
  destruct (initialize_with_outcome
              "INSERT OR REPLACE INTO kv (key, flags, exptime, hash, value) values (?, ?, ?, ?, ?)"
              (sqlite env Writer (dbname (cfg c))))
    as [(Hw & _) | [(Hw & _ & Hw2) | (writer & Hw & _ & _ & Hw2)]];
    rewrite Hw in Hrun; cbn [mbind option_bind negb] in Hrun; [done | |].
  2: { injection Hrun as <- _.
       destruct (writer_initialize ienv _); [by destruct Hw2; apply Hwriter | done]. }
  rewrite (proj2 Hwriter Hw2). cbn [negb orb].
  destruct (decide (pthread_create env Reader ≠ 0)) as [Hr0 | Hr0].
  { injection Hrun as <- _. by rewrite (proj2 (Z.eqb_neq _ _) Hr0). }
  apply dec_stable in Hr0. rewrite Hr0 in *. cbn [Z.eqb negb orb].
  destruct (decide (pthread_create env Writer ≠ 0)) as [Hw0 | Hw0].
  { injection Hrun as <- _. by rewrite (proj2 (Z.eqb_neq _ _) Hw0). }
  apply dec_stable in Hw0. rewrite Hw0 in *. cbn [Z.eqb negb].
  destruct (warmup (cfg c)); [| by injection Hrun as <- _].
  destruct (SQLiteCacheWarmup_initialize _) as [[ok cw] |]; [| done].
  by injection Hrun as <- _.
Qed.

End Initialize_Stages.

Section Statistics.
Import Persistent.
Context {A : Type}.
Variable senv : stats_env (A := A).

Lemma strncmp_eq_substring (s1 s2 : string) (n : nat) :
  strncmp_eq s1 s2 n = true ↔ substring 0 n s1 = substring 0 n s2.
Proof.
  revert s1 s2. induction n as [| n IH]; intros s1 s2.
  - by destruct s1, s2.
  - destruct s1 as [| c1 s1], s2 as [| c2 s2]; simpl; try done.
    destruct (Ascii.eqb_spec c1 c2) as [-> | Hne].
    + rewrite IH. split; [by intros -> | by intros [= ->]].
    + split; [done | by intros [= ? _]].
Qed.

(** X17: [persistent_get_stats] looks at the first five bytes of the key
    only, and not at [nkey]: a key that begins with "slabs", "items" or
    "sizes" is answered by the statistics of that name, any other key with
    ENGINE_KEY_ENOENT and no call of [add_stat].  Without a key it reports
    "evictions", "curr_items", "total_items" and "bytes", in this order and in
    decimal; after [persistent_reset_stats] the first and the third are "0"
    and the other two are as before. *)
Theorem persistent_get_stats_by_prefix (c : cache A) (stats : engine_stats)
    (cookie : cookie) (k : string) (nkey : Z) :
  let r := persistent_get_stats senv c stats cookie (Some k) nkey in
  (substring 0 5 k = "slabs" → r = (ENGINE_SUCCESS, slabs_stats senv c cookie)) ∧
  (substring 0 5 k = "items" → r = (ENGINE_SUCCESS, item_stats senv c cookie)) ∧
  (substring 0 5 k = "sizes" →
     r = (ENGINE_SUCCESS, item_stats_sizes senv c cookie)) ∧
  (substring 0 5 k ≠ "slabs" → substring 0 5 k ≠ "items" →
   substring 0 5 k ≠ "sizes" → r = (ENGINE_KEY_ENOENT, [])) ∧
  (let '(c', stats') := persistent_reset_stats senv c stats in
   persistent_get_stats senv c' stats' cookie None nkey
   = (ENGINE_SUCCESS,
      [mk_stat "evictions" 9 (bytes "0") 1 cookie;
       add_llu "curr_items" 10 (curr_items stats) cookie;
       mk_stat "total_items" 11 (bytes "0") 1 cookie;
       add_llu "bytes" 5 (curr_bytes stats) cookie])).
Proof.
  cbv zeta. unfold persistent_get_stats.
  pose proof (strncmp_eq_substring k "slabs" 5) as Hslabs.
  pose proof (strncmp_eq_substring k "items" 5) as Hitems.
  pose proof (strncmp_eq_substring k "sizes" 5) as Hsizes.
  change (substring 0 5 "slabs") with "slabs" in Hslabs.
  change (substring 0 5 "items") with "items" in Hitems.
  change (substring 0 5 "sizes") with "sizes" in Hsizes.
  destruct (strncmp_eq k "slabs" 5) eqn:E1.
  { pose proof (proj1 Hslabs eq_refl) as Hk. rewrite Hk.
    repeat split; done. }
  destruct (strncmp_eq k "items" 5) eqn:E2.
  { pose proof (proj1 Hitems eq_refl) as Hk. rewrite Hk.
    repeat split; done. }
  destruct (strncmp_eq k "sizes" 5) eqn:E3.
  { pose proof (proj1 Hsizes eq_refl) as Hk. rewrite Hk.
    repeat split; done. }
  split; [intros Hk; apply Hslabs in Hk; done |].
  split; [intros Hk; apply Hitems in Hk; done |].
  split; [intros Hk; apply Hsizes in Hk; done |].
  split; done.
Qed.

End Statistics.

(** *** Concrete runs *)

Section Engine_Examples.
Import Persistent.

Lemma reader_one_request_per_cookie_witness :
  reader_queue
    (persistent_get (persistent_get (fresh_engine 4) 77 "a").2 77 "b").2
  = StdMap.insert 77 "b" (reader_queue (fresh_engine 4)).
Proof.
  refine (proj1 (proj2 (proj2
    (reader_one_request_per_cookie (fresh_engine 4) 77 "a" "b"
       (store (fresh_engine 4)) (store (fresh_engine 4)) 0 _ _ _ _)))).
  - vm_compute. repeat constructor.
  - vm_compute. repeat constructor.
  - reflexivity.
  - reflexivity.
Defined.

(** Caller 77 asks for "a" and then for "b"; the worker answers once. *)
Example second_get_takes_the_place :
  io_complete
    (SQLiteReader_run 5
       (persistent_get (persistent_get (fresh_engine 4) 77 "a").2 77 "b").2)
  = [(77, ENGINE_KEY_ENOENT)].
Proof. vm_compute. reflexivity. Qed.

Lemma reader_restores_exptime_as_flags_witness :
  kv (SQLiteWriter_storeItem engine_k_5_max 1%positive) !! "k"
  = Some (mk_row 5 (-1) 0 (bytes "hi")).
Proof.
  refine (proj1 (reader_restores_exptime_as_flags engine_k_5_max
                   (SQLiteWriter_storeItem engine_k_5_max 1%positive)
                   1%positive
                   (mk_hash_item 1 ITEM_WITH_CAS 5 4294967295 0 "k" (bytes "hi"))
                   _ _ _ _)).
  - vm_compute. reflexivity.
  - simpl. lia.
  - simpl. lia.
  - reflexivity.
Defined.

(** The item of [engine_k_5_9], with values below 2^31, is stored as it is. *)
Example small_values_are_stored_as_they_are :
  kv engine_restarted !! "k" = Some (mk_row 5 9 0 (bytes "hi")).
Proof. vm_compute. reflexivity. Qed.

(** The item "k" was stored with flags 5 and expiry time 9; read back into
    an empty cache it has flags 9 and expiry time 0. *)
Example restored_item_k :
  let e := (readItem engine_restarted "k").2 in
  (readItem engine_restarted "k").1 = true ∧
  (spec_item_get (store e) "k").1 = Some 1%positive ∧
  (λ it, (flags it, exptime it, data it)) <$> mem (store e) !! 1%positive
  = Some (9, 0, bytes "hi").
Proof. vm_compute. done. Qed.

Lemma sqlite_io_start_threads_stages_witness :
  sqlite_io_start_threads_on (io_env_busy 3) default_config = None.
Proof.
  apply (proj1 (sqlite_io_start_threads_stages (io_env_busy 3) default_config)).
  left. split; [done |]. simpl. intros Hin.
  repeat (apply elem_of_cons in Hin as [Hin | Hin]; [discriminate Hin |]).
  by apply elem_of_nil in Hin.
Defined.

(** The warm-up cannot open the database: the engine comes up, and the
    warm-up's thread runs on an object without database and without
    statement. *)
Example warmup_thread_without_statement :
  sqlite_io_start_threads_on io_env_no_warmup (with_warmup default_config)
  = Some (ENGINE_SUCCESS,
          let reader :=
            mk_SQLite true
              (Some "SELECT flags, exptime, hash, value FROM kv where key = ?") in
          let writer :=
            mk_SQLite true
              (Some "INSERT OR REPLACE INTO kv (key, flags, exptime, hash, value) values (?, ?, ?, ?, ?)") in
          mk_io_threads (Some reader) (Some writer)
            [(Reader, reader); (Writer, writer);
             (Warmup, mk_SQLite false None)]).
Proof. vm_compute. reflexivity. Qed.

Lemma storeItem_steps_until_done_witness :
  storeItem_loop [SQLITE_BUSY; SQLITE_BUSY; 1] true = None.
Proof.
  refine (proj1 (storeItem_steps_until_done engine_k_5_9 1%positive
                   [SQLITE_BUSY; SQLITE_BUSY; 1] [] _)).
  repeat constructor; vm_compute; intros H; discriminate H.
Defined.

Lemma warmup_loads_rows_until_other_result_witness :
  SQLiteCacheWarmup_run engine_restarted
    ([(SQLITE_ROW, warmup_columns "k" (mk_row 5 9 0 (bytes "hi")))]
     ++ (SQLITE_BUSY, [])
        :: [(SQLITE_ROW, warmup_columns "l" (mk_row 0 0 0 (bytes "yo")))])
  = SQLiteCacheWarmup_run engine_restarted
      [(SQLITE_ROW, warmup_columns "k" (mk_row 5 9 0 (bytes "hi")))].
Proof.
  refine (proj1 (warmup_loads_rows_until_other_result engine_restarted
                   [(SQLITE_ROW, warmup_columns "k" (mk_row 5 9 0 (bytes "hi")))]
                   [(SQLITE_ROW, warmup_columns "l" (mk_row 0 0 0 (bytes "yo")))]
                   SQLITE_BUSY [] _ _)).
  - repeat constructor.
  - vm_compute. intros H; discriminate H.
Defined.

Lemma persistent_arithmetic_never_reads_table_witness :
  let e := engine_reads_a_k in
  let e' := (default (ENGINE_FAILED, mk_out 0 0, e)
               (persistent_arithmetic 2 e "ctr" true true 5 10 0 (mk_out 0 0))).2
  in
  reader_queue e' = reader_queue e ∧ io_complete e' = io_complete e ∧
  kv e' = kv e ∧ kv_log e' = kv_log e.
Proof.
  cbv zeta.
  pose proof (persistent_arithmetic_never_reads_table 2 engine_reads_a_k "ctr"
                true true 5 10 0 (mk_out 0 0)) as Hthm.
  destruct (persistent_arithmetic 2 engine_reads_a_k "ctr" true true 5 10 0
              (mk_out 0 0)) as [[[ret out'] e'] |] eqn:Hrun.
  - destruct (Hthm out' ret e' eq_refl) as (Hq & Hio & Hkv & Hlog & _).
    by repeat split.
  - vm_compute in Hrun. discriminate Hrun.
Defined.

(** The table has a row for "k", the cache has not: an increment without
    [create] answers ENGINE_KEY_ENOENT. *)
Example arithmetic_on_a_stored_key :
  kv engine_reads_a_k !! "k" = Some (mk_row 5 0 0 (bytes "hi" ++ CRLF)) ∧
  fst <$> persistent_arithmetic 1 engine_reads_a_k "k" true false 1 0 0
            (mk_out 0 0)
  = Some (ENGINE_KEY_ENOENT, mk_out 0 0).
Proof. vm_compute. done. Qed.

Lemma writer_schedule_runs_witness :
  ∃ s, writer_steps start_b_a_b schedule_b_a_b = Some s ∧
       references_counted s ∧
       ∀ k p, (k, p) ∈ writer_queue (engine s) →
              is_Some (mem (store (engine s)) !! p).
Proof.
  apply (writer_schedule_runs start_b_a_b schedule_b_a_b);
    try reflexivity.
  unfold schedule_b_a_b.
  repeat (split;
          [vm_compute; first [by eexists | by split]
          | intros s' Hs'; vm_compute in Hs'; injection Hs' as <-]).
  exact I.
Defined.

End Engine_Examples.

(** ** The two workers keep to their sides *)

Section Workers_Sides.
Import Persistent.
Context {A : Type} `{!ItemsLayer A, !ReleaseLaws A}.
Implicit Types (e : persistent_engine A) (c : cache A).

(** X20: the read-through worker never writes: whatever it serves, its loop
    leaves the table, the record of the statements executed on it and the
    write-behind queue as they are.  The items it creates are stored in the
    cache without being handed to the writer. *)
Theorem reader_never_writes e (fuel : nat) :
  kv (SQLiteReader_run fuel e) = kv e ∧
  kv_log (SQLiteReader_run fuel e) = kv_log e ∧
  writer_queue (SQLiteReader_run fuel e) = writer_queue e.
Proof.
  revert e. induction fuel as [| fuel IH]; intros e; [done |].
  simpl. unfold reader_pop.
  destruct (reader_queue e) as [| [cookie key] rest]; [done |]. simpl.
  destruct (IH (reader_serve (set_reader_queue rest e) cookie key))
    as (-> & -> & ->).
  unfold reader_serve.
  destruct (readItem_spec (set_reader_queue rest e) key)
    as [_ (_ & Hw & Hkv & Hlog & _)].
  by destruct (readItem (set_reader_queue rest e) key) as [success e1].
Qed.

Lemma writer_persist_sides e (p : item_ptr) (it : hash_item) :
  mem (store e) !! p = Some it →
  reader_queue (writer_persist e p) = reader_queue e ∧
  io_complete (writer_persist e p) = io_complete e ∧
  kv (writer_persist e p) = <[key it := (item_entry it).2]> (kv e).
Proof.
  intros Hit. unfold writer_persist, SQLiteWriter_storeItem. by rewrite Hit.
Qed.

(** X21: the write-behind worker never answers a caller and never touches
    the read-through queue, and what it writes it writes under the queued
    keys: when the queue's entries point to allocated items filed under their
    keys, the loop leaves every row of the table whose key is not in the
    queue as it is, and gives every queued key the row of its item. *)
Theorem writer_writes_queued_keys_only e (fuel : nat) :
  writer_queue_ok e →
  (length (writer_queue e) ≤ fuel)%nat →
  reader_queue (SQLiteWriter_run fuel e) = reader_queue e ∧
  io_complete (SQLiteWriter_run fuel e) = io_complete e ∧
  (∀ k, k ∉ StdMap.keys (writer_queue e) →
        kv (SQLiteWriter_run fuel e) !! k = kv e !! k) ∧
  (∀ k p it, (k, p) ∈ writer_queue e → mem (store e) !! p = Some it →
        kv (SQLiteWriter_run fuel e) !! k = Some (item_entry it).2).
Proof.
  revert e. induction fuel as [| fuel IH]; intros e [Hs Hitems] Hfuel.
  - destruct (writer_queue e) eqn:Hq; [| simpl in Hfuel; lia].
    simpl. repeat split; try done. intros k p it Hin. by apply elem_of_nil in Hin.
  - simpl. unfold writer_pop.
    destruct (writer_queue e) as [| [k0 p0] rest] eqn:Hq; simpl.
    { repeat split; try done. intros k p it Hin. by apply elem_of_nil in Hin. }
    destruct (Hitems k0 p0) as (it0 & Hit0 & <-); [left |].
    destruct (writer_persist_spec (set_writer_queue rest e) p0 it0 Hit0)
      as (Hq2 & _ & Hstore2).
    destruct (writer_persist_sides (set_writer_queue rest e) p0 it0 Hit0)
      as (Hr2 & Hio2 & Hkv2).
    change (writer_queue (set_writer_queue rest e)) with rest in Hq2.
    change (store (set_writer_queue rest e)) with (store e) in Hstore2.
    change (reader_queue (set_writer_queue rest e)) with (reader_queue e) in Hr2.
    change (io_complete (set_writer_queue rest e)) with (io_complete e) in Hio2.
    change (kv (set_writer_queue rest e)) with (kv e) in Hkv2.
    pose proof Hs as Hs'. apply sorted_cons in Hs' as [Hrest Hall].
    assert (∀ k p, (k, p) ∈ rest → k ≠ key it0) as Hfresh.
    { intros k p Hin ->. rewrite Forall_forall in Hall.
      assert (StdMap.lt (key it0) (key it0)) as Hlt.
      { apply Hall, list_elem_of_In, in_map_iff. exists (key it0, p).
        split; [done | by apply list_elem_of_In]. }
      unfold StdMap.lt in Hlt. by rewrite cmp_refl in Hlt. }
    assert (∀ k p it, (k, p) ∈ rest → mem (store e) !! p = Some it →
              mem (store (writer_persist (set_writer_queue rest e) p0)) !! p
              = Some it) as Hkeep.
    { intros k p it Hin Hit. rewrite Hstore2, release_other; [done |].
      intros <-. destruct (Hitems k p0) as (it' & Hit' & Hk); [by right |].
      assert (it' = it0) as -> by congruence. by apply (Hfresh k p0). }
    destruct (IH (writer_persist (set_writer_queue rest e) p0))
      as (IHr & IHio & IHframe & IHrows).
    + split; [by rewrite Hq2 |].
      intros k p Hin. rewrite Hq2 in Hin.
      destruct (Hitems k p) as (it' & Hit' & <-); [by right |].
      exists it'. split; [| done]. by eapply Hkeep.
    + rewrite Hq2. simpl in Hfuel. lia.
    + rewrite Hq2 in IHframe, IHrows.
      split; [congruence |]. split; [congruence |]. split.
      * intros k Hk. simpl in Hk. apply not_elem_of_cons in Hk as [Hne Hk].
        rewrite IHframe by done. rewrite Hkv2. by rewrite lookup_insert_ne.
      * intros k p it Hin Hit.
        apply elem_of_cons in Hin as [[= -> ->] | Hin].
        -- assert (it = it0) as -> by congruence.
           rewrite IHframe.
           ++ rewrite Hkv2. by rewrite lookup_insert_eq.
           ++ intros Hin. apply list_elem_of_fmap in Hin as ([k p] & Hk & Hin).
              simpl in Hk. by apply (Hfresh k p).
        -- eapply IHrows; [done |]. by eapply Hkeep.
Qed.

End Workers_Sides.

(** ** The reference of a read-through *)

Section Read_Through_Reference.
Import Persistent.
Implicit Types (e : persistent_engine tables_t) (c : cache tables_t).

Lemma size_add_le (a b : Z) :
  0 <= a + b → 0 <= size_add a b <= a + b.
Proof.
  intros Hab. unfold size_add. split; [apply Z.mod_pos_bound; lia |].
  apply Z.mod_le; lia.
Qed.

Lemma unlinked_after_unlink (it : hash_item) :
  linked (set_iflag (Z.land (iflag it) (Z.lnot ITEM_LINKED)) it) = false.
Proof.
  unfold linked. simpl. apply negb_false_iff, Z.eqb_eq.
  apply Z.bits_inj'. intros i Hi.
  rewrite !Z.land_spec, Z.lnot_spec, Z.bits_0 by done.
  by destruct (Z.testbit ITEM_LINKED i), (Z.testbit (iflag it) i).
Qed.

Lemma item_set_cas_refcount (it : hash_item) (val : Z) :
  refcount (item_set_cas it val) = refcount it.
Proof. unfold item_set_cas. by case_decide. Qed.

(** The engine after a read-through, on the item layer of the specification,
    when the key is not cached and a chunk is free: the new item, with the
    row's data, is linked. *)
Lemma spec_readItem_result e (key : string) (r : row) (n : nat) :
  kv e !! key = Some r →
  assoc (tables (store e)) !! key = None →
  free_chunks (tables (store e)) = S n →
  48 + Z.of_nat (String.length key) + size (row_value r) + 8
    <= item_size_max (cfg (store e)) →
  let q := next_item (tables (store e)) in
  let it1 := mk_hash_item 1
               (if use_cas (cfg (store e)) then ITEM_WITH_CAS else 0)
               (row_exptime r) (row_hash r) 0 key (row_value r) in
  let cb := mk_cache (<[q := it1]> (mem (store e)))
              (mk_tables (assoc (tables (store e))) n (Pos.succ q)
                 (next_cas (tables (store e))))
              (cfg (store e)) in
  readItem e key = (true, set_store (spec_item_link cb q) e).
Proof.
  intros Hrow Hassoc Hfree Hsize. cbv zeta.
  remember (next_item (tables (store e))) as q eqn:Hq.
  remember (mk_hash_item 1 (if use_cas (cfg (store e)) then ITEM_WITH_CAS else 0)
              (row_exptime r) (row_hash r) 0 key
              (replicate (Z.to_nat (size (row_value r))) Byte.x00)) as it0
    eqn:Hit0.
  remember (mk_cache (<[q := it0]> (mem (store e)))
              (mk_tables (assoc (tables (store e))) n (Pos.succ q)
                 (next_cas (tables (store e))))
              (cfg (store e))) as ca eqn:Hca.
  assert (persistent_item_allocate e key (size (row_value r)) (row_exptime r)
            (row_hash r)
          = (ENGINE_SUCCESS, Some q, set_store ca e)) as Halloc.
  { unfold persistent_item_allocate. simpl. unfold spec_slabs_clsid.
    assert (∀ z, z <= 48 + Z.of_nat (String.length key) + size (row_value r) + 8 →
                 (item_size_max (cfg (store e)) <? z) = false) as Hfit.
    { intros z Hz. apply Z.ltb_ge. lia. }
    pose proof (size_add_le 48 (Z.of_nat (String.length key))) as Hkey.
    pose proof (size_add_le (size_add 48 (Z.of_nat (String.length key)))
                  (size (row_value r))) as Hvalue.
    pose proof (size_add_le
                  (size_add (size_add 48 (Z.of_nat (String.length key)))
                     (size (row_value r))) 8) as Hcas.
    unfold size in *.
    rewrite Hfit by (destruct (use_cas (cfg (store e))); lia).
    rewrite decide_False by done.
    unfold spec_item_alloc. rewrite Hfree. by subst. }
  remember (mk_hash_item 1 (if use_cas (cfg (store e)) then ITEM_WITH_CAS else 0)
              (row_exptime r) (row_hash r) 0 key (row_value r)) as it1 eqn:Hit1.
  assert (memcpy_data (row_value r) it0 = it1) as Hcopy.
  { subst it1 it0. unfold memcpy_data, set_data, size. simpl. f_equal.
    rewrite Nat2Z.id, drop_replicate, Nat.sub_diag. apply app_nil_r. }
  remember (mk_cache (<[q := it1]> (mem (store e)))
              (mk_tables (assoc (tables (store e))) n (Pos.succ q)
                 (next_cas (tables (store e))))
              (cfg (store e))) as cb eqn:Hcb.
  assert (update_item (set_store ca e) q (memcpy_data (row_value r))
          = set_store cb e) as Hfill.
  { unfold update_item. subst cb ca. simpl.
    by rewrite alter_insert_eq, Hcopy. }
  assert (mem cb !! q = Some it1) as Hq1
    by (subst cb; simpl; apply lookup_insert_eq).
  assert (store_item (set_store cb e) q OPERATION_ADD false
          = (ENGINE_SUCCESS,
             item_get_cas <$> mem (spec_item_link cb q) !! q,
             set_store (spec_item_link cb q) (set_store cb e))) as Hstore.
  { unfold store_item. simpl.
    rewrite (spec_do_store_item_add_absent cb q it1 Hq1)
      by (by subst cb it1).
    done. }
  unfold readItem. rewrite Hrow. unfold createItem.
  unfold sqlite3_column_bytes, sqlite3_column_int, sqlite3_column_text. simpl.
  rewrite Halloc, Hfill. by rewrite Hstore.
Qed.

(** What a read-through leaves in the cache then. *)
Lemma spec_readItem_links e (key : string) (r : row) (n : nat) :
  kv e !! key = Some r →
  assoc (tables (store e)) !! key = None →
  free_chunks (tables (store e)) = S n →
  48 + Z.of_nat (String.length key) + size (row_value r) + 8
    <= item_size_max (cfg (store e)) →
  let q := next_item (tables (store e)) in
  let e1 := (readItem e key).2 in
  (readItem e key).1 = true ∧
  (∃ it, mem (store e1) !! q = Some it ∧ refcount it = 1%nat ∧
         linked it = true ∧ Persistent.key it = key ∧
         data it = row_value r ∧ flags it = row_exptime r ∧
         exptime it = row_hash r) ∧
  assoc (tables (store e1)) = <[key := q]> (assoc (tables (store e))) ∧
  free_chunks (tables (store e1)) = n.
Proof.
  intros Hrow Hassoc Hfree Hsize. cbv zeta.
  rewrite (spec_readItem_result e key r n Hrow Hassoc Hfree Hsize).
  remember (next_item (tables (store e))) as q eqn:Hq.
  remember (mk_hash_item 1 (if use_cas (cfg (store e)) then ITEM_WITH_CAS else 0)
              (row_exptime r) (row_hash r) 0 key (row_value r)) as it1 eqn:Hit1.
  remember (mk_cache (<[q := it1]> (mem (store e)))
              (mk_tables (assoc (tables (store e))) n (Pos.succ q)
                 (next_cas (tables (store e))))
              (cfg (store e))) as cb eqn:Hcb.
  assert (mem cb !! q = Some it1) as Hq1
    by (subst cb; simpl; apply lookup_insert_eq).
  simpl. split; [done |].
  destruct (spec_item_link_lookup cb q it1 Hq1) as [Hlook Hassoc2].
  destruct (linked_after_link it1 (next_cas (tables cb) + 1))
    as (Hkey2 & Hdata2 & Hlinked2).
  split; [| split].
  - eexists. split; [exact Hlook |]. rewrite item_set_cas_refcount.
    split; [by subst it1 |]. split; [exact Hlinked2 |].
    split; [by rewrite Hkey2; subst it1 |].
    split; [by rewrite Hdata2; subst it1 |].
    unfold item_set_cas. case_decide; by subst it1.
  - rewrite Hassoc2. by subst cb it1.
  - unfold spec_item_link. rewrite Hq1. by subst cb.
Qed.

(** What a read-through leaves alone: the items at other addresses, the
    configuration and the engine outside the cache; the next allocation is
    one address further. *)
Lemma spec_readItem_frame e (key : string) (r : row) (n : nat) :
  kv e !! key = Some r →
  assoc (tables (store e)) !! key = None →
  free_chunks (tables (store e)) = S n →
  48 + Z.of_nat (String.length key) + size (row_value r) + 8
    <= item_size_max (cfg (store e)) →
  let q := next_item (tables (store e)) in
  let e1 := (readItem e key).2 in
  (∀ p, p ≠ q → mem (store e1) !! p = mem (store e) !! p) ∧
  next_item (tables (store e1)) = Pos.succ q ∧
  cfg (store e1) = cfg (store e) ∧
  same_io e e1.
Proof.
  intros Hrow Hassoc Hfree Hsize. cbv zeta.
  split; [| split; [| split]]; [| | | apply readItem_spec].
  all: rewrite (spec_readItem_result e key r n Hrow Hassoc Hfree Hsize).
  all: unfold spec_item_link; simpl; rewrite lookup_insert_eq; simpl; try done.
  intros p Hne. by rewrite !lookup_insert_ne.
Qed.

(** A delete that hits, on the item layer of the specification: the item
    loses its place in the index; its chunk is freed when the lookup's
    reference was the only one, and stays allocated otherwise. *)
Lemma spec_delete_hit e (cookie : cookie) (key : string) (cas : Z)
    (q : item_ptr) (it : hash_item) :
  assoc (tables (store e)) !! key = Some q →
  mem (store e) !! q = Some it →
  linked it = true → Persistent.key it = key →
  let e' := (persistent_item_delete e cookie key cas).2 in
  let it' := set_iflag (Z.land (iflag it) (Z.lnot ITEM_LINKED)) it in
  mem (store e') !! q
  = (if decide (refcount it = 0%nat) then None else Some it') ∧
  assoc (tables (store e')) = delete key (assoc (tables (store e))) ∧
  free_chunks (tables (store e'))
  = if decide (refcount it = 0%nat) then S (free_chunks (tables (store e)))
    else free_chunks (tables (store e)).
Proof.
  intros Hassoc Hit Hlinked Hkey. cbv zeta.
  unfold persistent_item_delete, persistent_get. cbn [item_get Items].
  unfold spec_item_get. rewrite Hassoc, Hit. cbn [fst snd store set_store].
  cbn [item_unlink item_release Items].
  unfold spec_item_unlink. cbn [mem set_mem]. rewrite lookup_insert_eq.
  assert (linked (set_refcount (S (refcount it)) it) = true) as ->
    by exact Hlinked.
  cbn [refcount set_refcount set_iflag iflag Persistent.key].
  rewrite decide_False by done. rewrite Hkey.
  unfold spec_item_release. cbn [mem]. rewrite lookup_insert_eq.
  assert (linked (set_iflag (Z.land (iflag it) (Z.lnot ITEM_LINKED))
                    (set_refcount (S (refcount it)) it)) = false) as ->
    by apply (unlinked_after_unlink (set_refcount (S (refcount it)) it)).
  assert (Init.Nat.pred
            (refcount (set_iflag (Z.land (iflag it) (Z.lnot ITEM_LINKED))
                         (set_refcount (S (refcount it)) it)))
          = refcount it) as -> by done.
  cbn [negb]. rewrite andb_true_r.
  destruct (decide (refcount it = 0%nat)) as [Hz | Hnz].
  - rewrite bool_decide_eq_true_2 by done. unfold spec_free. cbn.
    by rewrite lookup_delete_eq.
  - rewrite bool_decide_eq_false_2 by done. cbn.
    rewrite lookup_insert_eq. unfold set_refcount, set_iflag. cbn.
    by destruct it.
Qed.

(** X22: [createItem] allocates an item, which gives it a reference, stores
    it, and returns without releasing it.  On the item layer of the
    specification the item that a read-through has put in the cache
    therefore holds one reference that nobody has; a delete, which unlinks
    the item and releases the reference of its own lookup, leaves it
    allocated, unlinked and out of reach, and the allocator does not get the
    chunk back. *)
Theorem read_through_keeps_a_reference e (key : string) (r : row)
    (cookie : cookie) (cas : Z) (n : nat) :
  kv e !! key = Some r →
  assoc (tables (store e)) !! key = None →
  free_chunks (tables (store e)) = S n →
  48 + Z.of_nat (String.length key) + size (row_value r) + 8
    <= item_size_max (cfg (store e)) →
  let q := next_item (tables (store e)) in
  let e1 := (readItem e key).2 in
  let e2 := (persistent_item_delete e1 cookie key cas).2 in
  (readItem e key).1 = true ∧
  (∃ it, mem (store e1) !! q = Some it ∧ refcount it = 1%nat ∧
         linked it = true) ∧
  assoc (tables (store e1)) !! key = Some q ∧
  free_chunks (tables (store e1)) = n ∧
  (∃ it, mem (store e2) !! q = Some it ∧ refcount it = 1%nat ∧
         linked it = false) ∧
  assoc (tables (store e2)) !! key = None ∧
  free_chunks (tables (store e2)) = n.
Proof.
  intros Hrow Hassoc Hfree Hsize. cbv zeta.
  destruct (spec_readItem_links e key r n Hrow Hassoc Hfree Hsize)
    as (Hread & (it & Hit & Hrc & Hlinked & Hkey & _) & Hassoc1 & Hfree1).
  remember (next_item (tables (store e))) as q eqn:Hq.
  remember (readItem e key).2 as e1 eqn:He1.
  assert (assoc (tables (store e1)) !! key = Some q) as Hq1
    by (by rewrite Hassoc1, lookup_insert_eq).
  split; [done |]. split; [eauto |]. split; [done |]. split; [done |].
  destruct (spec_delete_hit e1 cookie key cas q it Hq1 Hit Hlinked Hkey)
    as (Hmem2 & Hassoc2 & Hfree2).
  destruct (decide (refcount it = 0%nat)) as [Hz | _]; [by rewrite Hrc in Hz |].
  split; [| split].
  - eexists. split; [exact Hmem2 |]. split; [exact Hrc |].
    apply unlinked_after_unlink.
  - by rewrite Hassoc2, lookup_delete_eq.
  - by rewrite Hfree2.
Qed.

End Read_Through_Reference.

(** *** Concrete runs of the workers' sides *)

Section Sides_Examples.
Import Persistent.

Lemma writer_writes_queued_keys_only_witness :
  reader_queue (SQLiteWriter_run 2 (engine pending_b_a_b))
  = reader_queue (engine pending_b_a_b).
Proof.
  refine (proj1 (writer_writes_queued_keys_only (engine pending_b_a_b) 2 _ _)).
  - split.
    + vm_compute. repeat constructor.
    + assert (writer_queue (engine pending_b_a_b)
              = [("a", 2%positive); ("b", 3%positive)]) as ->
        by (vm_compute; reflexivity).
      intros k p Hin.
      apply elem_of_cons in Hin as [[= -> ->] | Hin];
        [| apply elem_of_cons in Hin as [[= -> ->] | Hin];
           [| by apply elem_of_nil in Hin]];
        vm_compute; eexists; split; reflexivity.
  - vm_compute. repeat constructor.
Defined.

Lemma read_through_keeps_a_reference_witness :
  free_chunks
    (tables (store (persistent_item_delete (readItem engine_restarted "k").2
                      77 "k" 0).2))
  = 3%nat.
Proof.
  refine (proj2 (proj2 (proj2 (proj2 (proj2 (proj2
    (read_through_keeps_a_reference engine_restarted "k"
       (mk_row 5 9 0 (bytes "hi")) 77 0 3 _ _ _ _))))))).
  - vm_compute. reflexivity.
  - reflexivity.
  - reflexivity.
  - vm_compute. intros H; discriminate H.
Defined.

(** The same key stored by a caller, who releases the item after the store,
    and then deleted: the chunk is free again. *)
Example stored_and_released_item_is_freed :
  let '(_, _, e) := persistent_item_allocate (fresh_engine 4) "k" 2 5 9 in
  let '(_, _, e) := persistent_store e 1%positive OPERATION_SET in
  let e := persistent_item_release e 1%positive in
  let e := SQLiteWriter_run 1 e in
  free_chunks (tables (store e)) = 3%nat ∧
  free_chunks (tables (store (persistent_item_delete e 77 "k" 0).2)) = 4%nat.
Proof. vm_compute. done. Qed.

End Sides_Examples.

(** ** A delete and the table *)

Section Delete_And_Table.
Import Persistent.
Implicit Types (e : persistent_engine tables_t) (c : cache tables_t).


End Delete_And_Table.

(** *** A concrete delete *)

Section Delete_Examples.
Import Persistent.


(** The item "k" is stored, written to the table and deleted; caller 78 asks
    for it and is told to wait; the worker brings it back, with flags 9 and
    expiry time 0. *)
Example deleted_k_comes_back :
  let e1 := (persistent_item_delete engine_stored_k 77 "k" 0).2 in
  let e3 := SQLiteReader_run 1 (persistent_get e1 78 "k").2 in
  (persistent_get e1 78 "k").1 = (ENGINE_EWOULDBLOCK, None) ∧
  io_complete e3 = [(78, ENGINE_SUCCESS)] ∧
  (persistent_get e3 79 "k").1 = (ENGINE_SUCCESS, Some 2%positive) ∧
  (λ it, (flags it, exptime it, data it)) <$> mem (store e3) !! 2%positive
  = Some (9, 0, bytes "hi").
Proof. vm_compute. done. Qed.

End Delete_Examples.

(** ** The warm-up fills the cache *)

Section Warmup_Fills.
Import Persistent.
Implicit Types (e : persistent_engine tables_t) (c : cache tables_t).

Lemma SQLiteCacheWarmup_run_row e (key : string) (r : row)
    (steps : list (Z * list column)) :
  kv e !! key = Some r →
  SQLiteCacheWarmup_run e ((SQLITE_ROW, warmup_columns key r) :: steps)
  = SQLiteCacheWarmup_run (readItem e key).2 steps.
Proof.
  intros Hr. cbn [SQLiteCacheWarmup_run]. case_decide; [| done].
  unfold readItem. rewrite Hr. unfold warmup_columns, reader_columns.
  unfold sqlite3_column_text at 1. simpl.
  unfold bytes. by rewrite string_of_list_byte_of_string.
Qed.

(** The item of the row [(k, r)] is in the cache. *)
Local Abbreviation loaded e k r :=
  (∃ q it, assoc (tables (store e)) !! k = Some q ∧
           mem (store e) !! q = Some it ∧
           Persistent.key it = k ∧ data it = row_value r ∧ linked it = true).

Lemma warmup_loads (rows : list (string * row)) e :
  NoDup rows.*1 →
  (∀ k r, (k, r) ∈ rows →
     kv e !! k = Some r ∧ assoc (tables (store e)) !! k = None ∧
     48 + Z.of_nat (String.length k) + size (row_value r) + 8
       <= item_size_max (cfg (store e))) →
  (length rows ≤ free_chunks (tables (store e)))%nat →
  let e' := SQLiteCacheWarmup_run e (warmup_steps rows) in
  (∀ k r, (k, r) ∈ rows → loaded e' k r) ∧
  (∀ k q it, k ∉ rows.*1 →
     assoc (tables (store e)) !! k = Some q → mem (store e) !! q = Some it →
     (q < next_item (tables (store e)))%positive →
     assoc (tables (store e')) !! k = Some q ∧ mem (store e') !! q = Some it).
Proof.
  revert e. induction rows as [| [k0 r0] rows IH]; intros e Hnodup Hrows Hfree.
  { cbv zeta. simpl. split; [| done]. intros k r Hin. by apply elem_of_nil in Hin. }
  cbv zeta. simpl in Hnodup. apply NoDup_cons in Hnodup as [Hk0 Hnodup].
  destruct (Hrows k0 r0) as (Hrow0 & Hassoc0 & Hsize0); [left |].
  destruct (free_chunks (tables (store e))) as [| n] eqn:Hn;
    [simpl in Hfree; lia |].
  unfold warmup_steps in *. cbn [map fst snd].
  rewrite (SQLiteCacheWarmup_run_row e k0 r0) by done.
  destruct (spec_readItem_links e k0 r0 n Hrow0 Hassoc0 Hn Hsize0)
    as (_ & (it0 & Hit0 & _ & Hlinked0 & Hkey0 & Hdata0 & _) & Hassoc1 & Hfree1).
  destruct (spec_readItem_frame e k0 r0 n Hrow0 Hassoc0 Hn Hsize0)
    as (Hmem1 & Hnext1 & Hcfg1 & (_ & _ & Hkv1 & _)).
  remember (readItem e k0).2 as e1 eqn:He1.
  remember (next_item (tables (store e))) as q0 eqn:Hq0.
  destruct (IH e1 Hnodup) as [IHloaded IHkept].
  { intros k r Hin. destruct (Hrows k r) as (Hrow & Hassoc & Hsize); [by right |].
    rewrite Hkv1, Hcfg1, Hassoc1. split; [done |]. split; [| done].
    rewrite lookup_insert_ne; [done |]. intros <-. apply Hk0.
    apply list_elem_of_fmap. by exists (k0, r). }
  { rewrite Hfree1. simpl in Hfree. lia. }
  split.
  - intros k r Hin. apply elem_of_cons in Hin as [[= -> ->] | Hin].
    + destruct (IHkept k0 q0 it0 Hk0) as [Ha Hm].
      * by rewrite Hassoc1, lookup_insert_eq.
      * done.
      * rewrite Hnext1. lia.
      * exists q0, it0. done.
    + by apply IHloaded.
  - intros k q it Hk Ha Hm Hlt. simpl in Hk.
    apply not_elem_of_cons in Hk as [Hne Hk].
    apply IHkept; [done | | |].
    + rewrite Hassoc1. by rewrite lookup_insert_ne.
    + rewrite Hmem1; [done | lia].
    + rewrite Hnext1. lia.
Qed.

(** X24: the warm-up does what it is for.  On the item layer of the
    specification, when the SELECT yields the rows of the table once each,
    none of their keys is cached and the cache has a free chunk for each,
    then after the warm-up every row's key is in the cache with the row's
    data, and a [get] of it hits. *)
Theorem warmup_fills_the_cache e (rows : list (string * row))
    (cookie : cookie) :
  NoDup rows.*1 →
  (∀ k r, (k, r) ∈ rows →
     kv e !! k = Some r ∧ assoc (tables (store e)) !! k = None ∧
     48 + Z.of_nat (String.length k) + size (row_value r) + 8
       <= item_size_max (cfg (store e))) →
  (length rows ≤ free_chunks (tables (store e)))%nat →
  let e' := SQLiteCacheWarmup_run e (warmup_steps rows) in
  ∀ k r, (k, r) ∈ rows →
    ∃ q it, (persistent_get e' cookie k).1 = (ENGINE_SUCCESS, Some q) ∧
            mem (store e') !! q = Some it ∧
            Persistent.key it = k ∧ data it = row_value r.
Proof.
  intros Hnodup Hrows Hfree. cbv zeta. intros k r Hin.
  destruct (warmup_loads rows e Hnodup Hrows Hfree) as [Hloaded _].
  destruct (Hloaded k r Hin) as (q & it & Ha & Hm & Hkey & Hdata & _).
  exists q, it. split; [| done].
  unfold persistent_get. simpl. unfold spec_item_get. by rewrite Ha, Hm.
Qed.

End Warmup_Fills.

Section Warmup_Examples.
Import Persistent.

Lemma warmup_fills_the_cache_witness :
  ∃ q it,
    (persistent_get
       (SQLiteCacheWarmup_run engine_restarted
          (warmup_steps [("k", mk_row 5 9 0 (bytes "hi"))]))
       77 "k").1
    = (ENGINE_SUCCESS, Some q) ∧
    mem (store (SQLiteCacheWarmup_run engine_restarted
                  (warmup_steps [("k", mk_row 5 9 0 (bytes "hi"))])))
      !! q = Some it ∧
    key it = "k" ∧ data it = row_value (mk_row 5 9 0 (bytes "hi")).
Proof.
  refine (warmup_fills_the_cache engine_restarted
            [("k", mk_row 5 9 0 (bytes "hi"))] 77 _ _ _
            "k" (mk_row 5 9 0 (bytes "hi")) _).
  - repeat constructor. by intros Hin%elem_of_nil.
  - intros k r Hin. apply elem_of_cons in Hin as [[= -> ->] | Hin];
      [| by apply elem_of_nil in Hin].
    split; [vm_compute; reflexivity |]. split; [reflexivity |].
    vm_compute. intros H; discriminate H.
  - vm_compute. repeat constructor.
  - left.
Defined.

End Warmup_Examples.

(** ** The read-through worker and the answers of sqlite *)

Section Reader_Answers.
Import Persistent.
Context {A : Type} `{ItemsLayer A}.
Implicit Types (e : persistent_engine A) (c : cache A).


End Reader_Answers.
